(** * anchorboost: anchor-regularised boosting objectives

    A shallow embedding of [anchorboost/classification_mixins.py],
    [anchorboost/lgbm_mixins.py] and [anchorboost/anchor_objectives.py].

    NumPy arrays of floats are lists of real numbers.  A two-dimensional
    array is held as the list of its columns, so that the column-major
    ([order="F"]) view of a flat score vector is the concatenation of the
    columns.  Elementwise NumPy expressions are [map]/[map2] over arrays of
    one shape; the operations that can raise (reshape, integer-array
    indexing, assertions, a Python division by zero) return [option]. *)

From Stdlib Require Import Reals Lra Lia List ZArith Bool Psatz Sorted Finite.
Import ListNotations.
Open Scope R_scope.

(** ** NumPy primitives *)

Module Np.

Definition vec := list R.
(** columns of a 2-d array *)
Definition mat := list vec.

Fixpoint map2 {A B C : Type} (g : A -> B -> C) (a : list A) (b : list B)
  : list C :=
  match a, b with
  | x :: a', y :: b' => g x y :: map2 g a' b'
  | _, _ => []
  end.

Definition vsum (v : vec) : R := fold_right Rplus 0 v.
Definition vmean (v : vec) : R := vsum v / INR (length v).
Definition vadd : vec -> vec -> vec := map2 Rplus.
Definition vsub : vec -> vec -> vec := map2 Rminus.
Definition vmul : vec -> vec -> vec := map2 Rmult.
Definition vdiv : vec -> vec -> vec := map2 Rdiv.
Definition vscale (a : R) : vec -> vec := map (Rmult a).
Definition vneg : vec -> vec := map Ropp.
Definition dot (a b : vec) : R := vsum (vmul a b).

(** [a[j] = t] on a copy *)
Fixpoint upd (a : vec) (j : nat) (t : R) : vec :=
  match a, j with
  | [], _ => []
  | _ :: a', O => t :: a'
  | x :: a', S j' => x :: upd a' j' t
  end.

(** number of rows of a 2-d array with at least one column *)
Definition nrows (m : mat) : nat :=
  match m with [] => O | c :: _ => length c end.

(** [m.sum(axis=1)] and [np.max(m, axis=1)], for at least one column *)
Fixpoint sum_axis1 (m : mat) : vec :=
  match m with
  | [] => []
  | c :: cs => match cs with [] => c | _ :: _ => vadd c (sum_axis1 cs) end
  end.

Fixpoint max_axis1 (m : mat) : vec :=
  match m with
  | [] => []
  | c :: cs => match cs with [] => c | _ :: _ => map2 Rmax c (max_axis1 cs) end
  end.

(** [v[:, np.newaxis]] broadcast against every column *)
Definition sub_col (m : mat) (v : vec) : mat := map (fun c => vsub c v) m.
Definition div_col (m : mat) (v : vec) : mat := map (fun c => vdiv c v) m.

(** [m - m.mean(axis=0, keepdims=True)] *)
Definition center (v : vec) : vec := map (fun x => x - vmean v) v.
Definition center_axis0 (m : mat) : mat := map center m.

(** [a.reshape((-1, k), order="F")]: k columns of [len a / k] rows *)
Fixpoint chunks (n k : nat) (a : vec) : mat :=
  match k with
  | O => []
  | S k' => firstn n a :: chunks n k' (skipn n a)
  end.

Definition reshape_F (k : nat) (a : vec) : option mat :=
  match k with
  | O => None
  | S _ => if Nat.eqb (length a mod k) 0
           then Some (chunks (length a / k) k a) else None
  end.

(** [m.flatten("F")] *)
Definition flatten_F (m : mat) : vec := concat m.

(** One integer index into an axis of length [len]: negative indices count
    from the end, anything else out of range raises [IndexError]. *)
Definition index (len : nat) (i : Z) : option nat :=
  if ((0 <=? i) && (i <? Z.of_nat len))%Z then Some (Z.to_nat i)
  else if ((- Z.of_nat len <=? i) && (i <? 0))%Z
       then Some (Z.to_nat (Z.of_nat len + i))
       else None.

(** Resolve a pair of integer index arrays against the shape of [m]. *)
Fixpoint resolve (nr nc : nat) (rows cols : list Z) : option (list (nat * nat)) :=
  match rows, cols with
  | r :: rows', c :: cols' =>
      match index nr r, index nc c, resolve nr nc rows' cols' with
      | Some r', Some c', Some rest => Some ((r', c') :: rest)
      | _, _, _ => None
      end
  | [], [] => Some []
  | _, _ => None
  end.

Definition mget (m : mat) (rc : nat * nat) : R :=
  nth (fst rc) (nth (snd rc) m []) 0.

Fixpoint upd_col (m : mat) (c r : nat) (t : R) : mat :=
  match m, c with
  | [], _ => []
  | col :: m', O => upd col r t :: m'
  | col :: m', S c' => col :: upd_col m' c' r t
  end.

Definition mset (m : mat) (rc : nat * nat) (t : R) : mat :=
  upd_col m (snd rc) (fst rc) t.

(** [m[(rows, cols)]] *)
Definition take (m : mat) (idx : list Z * list Z) : option vec :=
  match resolve (nrows m) (length m) (fst idx) (snd idx) with
  | Some rcs => Some (map (mget m) rcs)
  | None => None
  end.

(** [m[(rows, cols)] -= 1]: the indexed entries are read, decremented and
    written back in index order. *)
Definition sub1_at (m : mat) (idx : list Z * list Z) : option mat :=
  match resolve (nrows m) (length m) (fst idx) (snd idx) with
  | Some rcs =>
      Some (fold_left (fun acc p => mset acc (fst p) (snd p))
                      (combine rcs (map (fun v => v - 1) (map (mget m) rcs)))
                      m)
  | None => None
  end.

(** Broadcasting of two 1-d arrays under a binary operation. *)
Definition broadcast (op : R -> R -> R) (a b : vec) : option vec :=
  if Nat.eqb (length a) (length b) then Some (map2 op a b)
  else if Nat.eqb (length a) 1 then Some (map (op (hd 0 a)) b)
  else if Nat.eqb (length b) 1 then Some (map (fun x => op x (hd 0 b)) a)
  else None.

Fixpoint insert_count (v : Z) (l : list (Z * nat)) : list (Z * nat) :=
  match l with
  | [] => [(v, 1%nat)]
  | (w, c) :: l' =>
      if (v <? w)%Z then (v, 1%nat) :: l
      else if (v =? w)%Z then (w, S c) :: l'
      else (w, c) :: insert_count v l'
  end.

(** [np.unique(y, return_counts=True)]: the sorted distinct values and how
    often each occurs. *)
Definition unique (y : list Z) : list Z * list nat :=
  split (fold_right insert_count [] y).

Fixpoint insert_sorted (v : Z) (l : list Z) : list Z :=
  match l with
  | [] => [v]
  | w :: l' => if (v <=? w)%Z then v :: l else w :: insert_sorted v l'
  end.

(** Python's [sorted] *)
Definition sorted (l : list Z) : list Z := fold_right insert_sorted [] l.

(** [(a == b).all()] for arrays of one length *)
Definition all_eq (a b : list Z) : bool :=
  forallb (fun p => Z.eqb (fst p) (snd p)) (combine a b).

End Np.
Import Np.

(** ** The dataset handed over by the boosting engine *)

Record Dataset (L : Type) : Type := mkDataset {
  get_label : list L;
  anchor : mat
}.
Arguments mkDataset {L} _ _.
Arguments get_label {L} _.
Arguments anchor {L} _.

(** Modelled from the spec: [AnchorMixin._proj] ([anchor_mixins.py] is not
    part of the sources).  The spec gives it as the map from an anchor matrix
    and a residual vector to the ordinary-least-squares fitted values of the
    residual on the anchor; the objectives are written against this
    interface. *)
Class AnchorMixin : Type := { _proj : mat -> vec -> vec }.

(** Modelled from the spec: [AnchorMixin._proj] on a residual with several
    columns, where the spec has it operate column by column. *)
Definition _proj2 {am : AnchorMixin} (a : mat) (r : mat) : mat :=
  map (_proj a) r.

(** [sum_c b_c * a_c], a vector of the column space of [a] *)
Fixpoint lincomb (n : nat) (b : vec) (a : mat) : vec :=
  match b, a with
  | bc :: b', col :: a' => vadd (vscale bc col) (lincomb n b' a')
  | _, _ => repeat 0 n
  end.

(** [p] is the least-squares fit of [r] on the columns of [a]: it lies in
    their span and leaves a residual orthogonal to each of them. *)
Definition ols_fit (a : mat) (r p : vec) : Prop :=
  length p = length r /\
  (exists b : vec, p = lincomb (length r) b a) /\
  (forall col, In col a -> dot col (vsub r p) = 0).

(** [_proj] is the OLS projection for the [n]-row anchor [a]. *)
Definition ols_projection (am : AnchorMixin) (n : nat) (a : mat) : Prop :=
  (forall col, In col a -> length col = n) /\
  (forall r, length r = n -> ols_fit a r (_proj a r)).

(** ** IEEE results of the scalar operations that can leave the reals *)

Inductive xreal : Type :=
| Fin (r : R)
| PInf
| NInf
| NaN.

(** float division of two finite numbers *)
Definition xdiv (a b : R) : xreal :=
  if Req_dec_T b 0
  then if Req_dec_T a 0 then NaN
       else if Rlt_dec 0 a then PInf else NInf
  else Fin (a / b).

(** [np.log] *)
Definition xlog (q : xreal) : xreal :=
  match q with
  | Fin r => if Rlt_dec 0 r then Fin (ln r)
             else if Req_dec_T r 0 then NInf else NaN
  | PInf => PInf
  | NInf => NaN
  | NaN => NaN
  end.

Definition is_finite (q : xreal) : Prop :=
  match q with Fin _ => True | _ => False end.

(** ** classification_mixins.py: ClassificationMixin *)

Module ClassificationMixin.

Definition sigmoid (x : R) : R := 1 / (1 + exp (- x)).

(** the scalar [np.log(p / (1 - p))] of [init_score] *)
Definition init_score_value (y : vec) : xreal :=
  match xdiv (vsum y) (INR (length y)) with
  | Fin p => xlog (xdiv p (1 - p))
  | _ => NaN
  end.

Definition init_score (y : vec) : list xreal :=
  repeat (init_score_value y) (length y).

Definition loss (f : vec) (data : Dataset R) : vec :=
  map2 (fun fi yi => ln (1 + exp ((-2 * yi + 1) * fi))) f (get_label data).

Definition predictions (f : vec) : vec := map sigmoid f.

Definition grad (f : vec) (data : Dataset R) : vec :=
  vsub (predictions f) (get_label data).

Definition hess (f : vec) (data : Dataset R) : vec :=
  let predictions := predictions f in
  vmul predictions (map (fun p => 1 - p) predictions).

End ClassificationMixin.

(** ** classification_mixins.py: MultiClassificationMixin *)

Module MultiClassificationMixin.

Section WithClasses.
Variable n_classes : nat.

Definition factor : R := (INR n_classes - 1) / INR n_classes.

(** each row of the tiled array is [odds] *)
Definition tile (odds : vec) (n : nat) : mat := map (fun o => repeat o n) odds.

Definition init_score (y : list Z) : option vec :=
  let (unique_values, unique_counts) := unique y in
  if negb (Nat.eqb (length unique_values) n_classes) then None
  else if negb (all_eq (sorted unique_values) unique_values) then None
  else
    let total := fold_right Nat.add O unique_counts in
    let odds := map (fun c => INR c / INR total) unique_counts in
    Some (map ln (flatten_F (tile odds (length y)))).

Definition _indices (y : list Z) : list Z * list Z :=
  (map Z.of_nat (seq 0 (length y)), y).

Definition loss (f : vec) (data : Dataset Z) : option vec :=
  let y := get_label data in
  match reshape_F n_classes f with
  | None => None
  | Some f =>
      let f := sub_col f (max_axis1 f) in
      let log_divisor := map ln (sum_axis1 (map (map exp) f)) in
      match take f (_indices y) with
      | None => None
      | Some fy => broadcast Rplus (vneg fy) log_divisor
      end
  end.

Definition predictions (f : vec) : option mat :=
  match reshape_F n_classes f with
  | None => None
  | Some f =>
      let f := sub_col f (max_axis1 f) in
      let predictions := map (map exp) f in
      Some (div_col predictions (sum_axis1 predictions))
  end.

Definition grad (f : vec) (data : Dataset Z) : option vec :=
  let y := get_label data in
  match predictions f with
  | None => None
  | Some predictions =>
      match sub1_at predictions (_indices y) with
      | None => None
      | Some predictions => Some (flatten_F predictions)
      end
  end.

(** [1 / self.factor] is a Python float division: it raises for factor 0 *)
Definition hess (f : vec) (data : Dataset Z) : option vec :=
  match predictions f with
  | None => None
  | Some predictions =>
      let predictions := flatten_F predictions in
      if Req_dec_T factor 0 then None
      else Some (vmul (vscale (1 / factor) predictions)
                      (map (fun p => 1 - p) predictions))
  end.

End WithClasses.
End MultiClassificationMixin.

(** ** RegressionMixin *)

Module RegressionMixin.

Section WithCoefficient.
(** [regression_mixins.py] is not part of the sources.  The spec gives the
    family as a per-example squared error "(y-f)^2-style" whose coefficient
    it leaves open; the coefficient is the parameter [coef]. *)
Variable coef : R.

(** Modelled from the spec: [RegressionMixin.loss], the squared error
    "(y-f)^2-style" with the coefficient left open. *)
Definition loss (f : vec) (data : Dataset R) : vec :=
  map2 (fun fi yi => coef * (yi - fi) ^ 2) f (get_label data).

(** Modelled from the spec: [RegressionMixin.grad], which the spec requires
    to be the derivative of the loss in the score. *)
Definition grad (f : vec) (data : Dataset R) : vec :=
  map2 (fun fi yi => 2 * coef * (fi - yi)) f (get_label data).

(** Modelled from the spec: [RegressionMixin.hess], which the spec requires
    to be the diagonal of the Hessian of the base loss. *)
Definition hess (f : vec) (data : Dataset R) : vec :=
  map (fun _ => 2 * coef) f.

End WithCoefficient.
End RegressionMixin.

(** ** lgbm_mixins.py: LGBMMixin *)

Module LGBMMixin.

Definition higher_is_better : bool := false.

(** [objective] pairs whatever [self.grad] and [self.hess] resolve to. *)
Definition objective {S D V : Type} (grad hess : S -> vec -> D -> V)
  (self : S) (f : vec) (data : D) : V * V :=
  (grad self f data, hess self f data).

End LGBMMixin.

(** ** anchor_objectives.py *)

Module AnchorKookClassificationObjective.

Record Self : Type := init { gamma : R; center_residuals : bool }.

Section WithProj.
Context {am : AnchorMixin}.

Definition predictions := ClassificationMixin.predictions.
Definition hess (self : Self) := ClassificationMixin.hess.

Definition residuals (self : Self) (f : vec) (data : Dataset R) : vec :=
  let residuals := vsub (predictions f) (get_label data) in
  if center_residuals self then map (fun x => x - vmean residuals) residuals
  else residuals.

Definition loss (self : Self) (f : vec) (data : Dataset R) : vec :=
  vadd (ClassificationMixin.loss f data)
       (vscale (gamma self - 1)
               (map (fun x => x ^ 2) (_proj (anchor data) (residuals self f data)))).

Definition grad (self : Self) (f : vec) (data : Dataset R) : vec :=
  let predictions := predictions f in
  let proj_residuals := _proj (anchor data) (residuals self f data) in
  let proj_residuals :=
    if center_residuals self
    then map (fun x => x - vmean proj_residuals) proj_residuals
    else proj_residuals in
  vadd (ClassificationMixin.grad f data)
       (vmul (vmul (vscale (2 * (gamma self - 1)) proj_residuals) predictions)
             (map (fun p => 1 - p) predictions)).

Definition objective := LGBMMixin.objective grad hess.

End WithProj.
End AnchorKookClassificationObjective.

Module AnchorKookMultiClassificationObjective.

Record Self : Type :=
  init { gamma : R; n_classes : nat; center_residuals : bool }.

Section WithProj.
Context {am : AnchorMixin}.

Definition factor (self : Self) := MultiClassificationMixin.factor (n_classes self).
Definition predictions (self : Self) :=
  MultiClassificationMixin.predictions (n_classes self).
Definition _indices := MultiClassificationMixin._indices.
Definition hess (self : Self) := MultiClassificationMixin.hess (n_classes self).

Definition residuals (self : Self) (f : vec) (data : Dataset Z) : option vec :=
  match predictions self f with
  | None => None
  | Some predictions =>
      match sub1_at predictions (_indices (get_label data)) with
      | None => None
      | Some predictions =>
          let predictions :=
            if center_residuals self then center_axis0 predictions
            else predictions in
          Some (flatten_F predictions)
      end
  end.

Definition loss (self : Self) (f : vec) (data : Dataset Z) : option vec :=
  match residuals self f data with
  | None => None
  | Some r =>
      match reshape_F (n_classes self) r with
      | None => None
      | Some residuals =>
          let proj_residuals := _proj2 (anchor data) residuals in
          match MultiClassificationMixin.loss (n_classes self) f data with
          | None => None
          | Some base =>
              Some (vadd base
                      (vscale (factor self * (gamma self - 1))
                         (sum_axis1 (map (map (fun x => x ^ 2)) proj_residuals))))
          end
      end
  end.

Definition grad (self : Self) (f : vec) (data : Dataset Z) : option vec :=
  match residuals self f data with
  | None => None
  | Some r =>
      match reshape_F (n_classes self) r with
      | None => None
      | Some residuals =>
          let proj_residuals := _proj2 (anchor data) residuals in
          let proj_residuals :=
            if center_residuals self then center_axis0 proj_residuals
            else proj_residuals in
          match predictions self f with
          | None => None
          | Some predictions =>
              let proj_residuals :=
                sub_col proj_residuals
                        (sum_axis1 (map2 vmul proj_residuals predictions)) in
              let anchor_grad :=
                map2 vmul
                  (map (vscale (2 * factor self * (gamma self - 1))) predictions)
                  proj_residuals in
              match MultiClassificationMixin.grad (n_classes self) f data with
              | None => None
              | Some base => Some (vadd base (flatten_F anchor_grad))
              end
          end
      end
  end.

Definition objective := LGBMMixin.objective grad hess.

End WithProj.
End AnchorKookMultiClassificationObjective.

Module AnchorLiuClassificationObjective.

Record Self : Type := init { gamma : R }.

Section WithProj.
Context {am : AnchorMixin}.

Definition hess (self : Self) := ClassificationMixin.hess.

Definition residuals (self : Self) (f : vec) (data : Dataset R) : vec :=
  let y := map (fun yi => 2 * yi - 1) (get_label data) in
  map2 (fun fi yi =>
          - fi + yi * (1 + exp (- yi * fi)) * ln (1 + exp (yi * fi))) f y.

Definition loss (self : Self) (f : vec) (data : Dataset R) : vec :=
  if Req_dec_T (gamma self) 1 then ClassificationMixin.loss f data
  else
    vadd (ClassificationMixin.loss f data)
         (vscale (gamma self - 1)
            (map (fun x => x ^ 2) (_proj (anchor data) (residuals self f data)))).

Definition grad (self : Self) (f : vec) (data : Dataset R) : vec :=
  if Req_dec_T (gamma self) 1 then ClassificationMixin.grad f data
  else
    let y := map (fun yi => 2 * yi - 1) (get_label data) in
    let residuals := residuals self f data in
    let proj_residuals := _proj (anchor data) residuals in
    vsub (ClassificationMixin.grad f data)
         (vmul (vmul (vscale (2 * (gamma self - 1)) proj_residuals)
                     (map2 (fun fi yi => exp (- yi * fi)) f y))
               (map2 (fun fi yi => ln (1 + exp (yi * fi))) f y)).

Definition objective := LGBMMixin.objective grad hess.

End WithProj.
End AnchorLiuClassificationObjective.

(** NumPy's [RandomState], an external generator: a seed gives a state, and
    each draw of [size] numbers returns them with the advanced state. *)
Class RandomState : Type := {
  rng : Type;
  seeded : Z -> rng;
  normal : rng -> nat -> vec * rng;
  uniform : rng -> nat -> vec * rng
}.

Module AnchorHSICRegressionObjective.

Record Self : Type := init {
  gamma : R;
  n_components : nat;
  random_fourier_features_seed : Z
}.

Section WithProj.
Context {am : AnchorMixin} {rs : RandomState}.
Variable coef : R.

Definition hess (self : Self) := RegressionMixin.hess coef.

Definition residuals (self : Self) (f : vec) (data : Dataset R) : vec :=
  vsub (get_label data) f.

(** The method reads [self] and assigns no attribute: it returns its result
    together with the unchanged object.  [2 / self.n_components] raises for
    no components. *)
Definition _fourier_residuals (self : Self) (f : vec) (data : Dataset R)
  : option (mat * mat) * Self :=
  let rng := seeded (random_fourier_features_seed self) in
  let residuals := residuals self f data in
  let (random_weights, rng) := normal rng (n_components self) in
  let (u, rng) := uniform rng (n_components self) in
  let offset := map (fun x => x * 2 * PI) u in
  let weight_matrix :=
    map2 (fun w o => map (fun r => r * w + o) residuals) random_weights offset in
  match n_components self with
  | O => (None, self)
  | S _ =>
      let scale := sqrt (2 / INR (n_components self)) in
      let fourier_residuals :=
        map (map (fun x => cos x * scale)) weight_matrix in
      let fourier_derivative :=
        map2 (fun col w => map (fun x => - sin x * w * scale) col)
             weight_matrix random_weights in
      (Some (fourier_residuals, fourier_derivative), self)
  end.

Definition loss (self : Self) (f : vec) (data : Dataset R) : option vec :=
  if Req_dec_T (gamma self) 1 then Some (RegressionMixin.loss coef f data)
  else
    match fst (_fourier_residuals self f data) with
    | None => None
    | Some (fourier_residuals, _) =>
        let proj_residuals := _proj2 (anchor data) fourier_residuals in
        Some (map (fun x => x / Rmax (gamma self) 1)
                (vadd (RegressionMixin.loss coef f data)
                   (vscale (gamma self - 1)
                      (sum_axis1 (map (map (fun x => x ^ 2)) proj_residuals)))))
    end.

Definition grad (self : Self) (f : vec) (data : Dataset R) : option vec :=
  if Req_dec_T (gamma self) 1 then Some (RegressionMixin.grad coef f data)
  else
    match fst (_fourier_residuals self f data) with
    | None => None
    | Some (fourier_residuals, fourier_derivative) =>
        let derivative :=
          map2 vmul (_proj2 (anchor data) fourier_residuals) fourier_derivative in
        Some (map (fun x => x / Rmax (gamma self) 1)
                (vsub (RegressionMixin.grad coef f data)
                   (vscale (2 * (gamma self - 1)) (sum_axis1 derivative))))
    end.

Definition objective (self : Self) (f : vec) (data : Dataset R) :=
  LGBMMixin.objective grad (fun s f d => Some (hess s f d)) self f data.

End WithProj.
End AnchorHSICRegressionObjective.

Module AnchorRegressionObjective.

Record Self : Type := init { gamma : R }.

Section WithProj.
Context {am : AnchorMixin}.
Variable coef : R.

Definition hess (self : Self) := RegressionMixin.hess coef.

Definition residuals (self : Self) (f : vec) (data : Dataset R) : vec :=
  vsub (get_label data) f.

Definition loss (self : Self) (f : vec) (data : Dataset R) : vec :=
  if Req_dec_T (gamma self) 1 then RegressionMixin.loss coef f data
  else
    map (fun x => x / Rmax (gamma self) 1)
        (vadd (RegressionMixin.loss coef f data)
           (vscale (gamma self - 1)
              (map (fun x => x ^ 2)
                   (_proj (anchor data) (residuals self f data))))).

Definition grad (self : Self) (f : vec) (data : Dataset R) : vec :=
  if Req_dec_T (gamma self) 1 then RegressionMixin.grad coef f data
  else
    let proj_residuals := _proj (anchor data) (residuals self f data) in
    map (fun x => x / Rmax (gamma self) 1)
        (vsub (RegressionMixin.grad coef f data)
              (vscale (2 * (gamma self - 1)) proj_residuals)).

Definition objective := LGBMMixin.objective grad hess.

End WithProj.
End AnchorRegressionObjective.

(** ** simulate.py *)

Module Simulate.

(** a NumPy comparison used as a number: 1 where it holds, 0 where not *)
Definition le_ind (x y : R) : R := if Rle_dec x y then 1 else 0.

(** [f2] on one pair of features; on arrays it acts elementwise *)
Definition f2_at (x2 x3 : R) : R :=
  x2 + x3 + le_ind x2 0 + le_ind x2 (- (5 / 10)) * le_ind x3 1.

Definition f2 (x2 x3 : vec) : vec := map2 f2_at x2 x3.

End Simulate.

(** ** Auxiliary notions for the statements *)

(** [sum_(i < n) g i] *)
Definition bigsum (n : nat) (g : nat -> R) : R := vsum (map g (seq 0 n)).

(** the [j]-th unit vector of length [n] *)
Definition basis (n j : nat) : vec := upd (repeat 0 n) j 1.

(** the total loss that the gradient differentiates *)
Definition total (l : option vec) : R :=
  match l with Some v => vsum v | None => 0 end.

(** coordinate [j] of a result, 0 where the call raised *)
Definition coordinate (l : option vec) (j : nat) : R :=
  match l with Some v => nth j v 0 | None => 0 end.

(** every label is 0 or 1 *)
Definition binary_labels (y : vec) : Prop :=
  forall v, In v y -> v = 0 \/ v = 1.

(** every label is one of the classes 0 .. k-1 *)
Definition class_labels (k : nat) (y : list Z) : Prop :=
  forall v, In v y -> (0 <= v < Z.of_nat k)%Z.

(** what NumPy documents of the generator: a draw of [size] numbers has
    that many entries, and uniform draws lie in [0, 1) *)
Definition numpy_rng (rs : RandomState) : Prop :=
  forall (g : rng) (k : nat),
    length (fst (normal g k)) = k /\
    length (fst (uniform g k)) = k /\
    (forall u, In u (fst (uniform g k)) -> 0 <= u < 1).

(** the weights and offsets that a seed and a number of components give *)
Definition draws {rs : RandomState} (seed : Z) (m : nat) : vec * vec :=
  let (w, g) := normal (seeded seed) m in
  let (u, _) := uniform g m in
  (w, map (fun x => x * 2 * PI) u).

(** entry in row [i], column [c] of a 2-d array *)
Definition entry (m : mat) (i c : nat) : R := nth i (nth c m []) 0.

(** [m] has [n] rows and [k] columns *)
Definition well_shaped (m : mat) (n k : nat) : Prop :=
  length m = k /\ forall c, (c < k)%nat -> length (nth c m []) = n.

(** the softmax of one row of scores *)
Definition softmax (k : nat) (z : nat -> R) (c : nat) : R :=
  exp (z c) / bigsum k (fun c' => exp (z c')).

(** the score of example [i] for class [c] in the flat score vector *)
Definition score_of (n : nat) (f : vec) (i c : nat) : R :=
  nth (c * n + i) f 0.

(** a row of scores with the score of class [c0] replaced by [t] *)
Definition with_score (z0 : nat -> R) (c0 : nat) (t : R) (c : nat) : R :=
  if Nat.eqb c c0 then t else z0 c.

(** 1 when example [i] carries label [c], else 0 *)
Definition onehot (y : list Z) (i c : nat) : R :=
  if Nat.eqb (Z.to_nat (nth i y 0%Z)) c then 1 else 0.

(** the predicted probability of class [c] for example [i] *)
Definition class_prob (n k : nat) (f : vec) (i c : nat) : R :=
  softmax k (score_of n f i) c.

(** column [c] of the multi-class residual before centring *)
Definition residual_col (n k : nat) (y : list Z) (f : vec) (c : nat) : vec :=
  map (fun i => class_prob n k f i c - onehot y i c) (seq 0 n).

(** mean-centring applied when the flag is set *)
Definition centered (flag : bool) (v : vec) : vec :=
  if flag then center v else v.

(** [_proj] returns an array of the shape of the residual it is given *)
Definition shape_preserving (am : AnchorMixin) (n : nat) (a : mat) : Prop :=
  forall r, length r = n -> length (_proj a r) = n.

(** ** Concrete collaborators on which the statements are exercised *)

(** the least-squares fit on an anchor with a single column *)
Definition proj_one_column : AnchorMixin :=
  {| _proj := fun a r =>
       match a with
       | [] => repeat 0 (length r)
       | col :: _ => vscale (dot col r / dot col col) col
       end |}.

(** a generator whose normal draws are all 1 and uniform draws all 1/2 *)
Definition constant_rng : RandomState :=
  {| rng := nat;
     seeded := fun _ => O;
     normal := fun g k => (repeat 1 k, S g);
     uniform := fun g k => (repeat (1 / 2) k, S g) |}.

(** two examples, anchored on the constant column *)
Definition ones2 : mat := [[1; 1]].

(** the count that [np.unique] recorded for [v], 0 when it has none *)
Fixpoint count_for (v : Z) (l : list (Z * nat)) : nat :=
  match l with
  | [] => O
  | (w, c) :: l' => if (w =? v)%Z then c else count_for v l'
  end.

(** how many labels equal class [c] *)
Definition class_count (y : list Z) (c : nat) : nat :=
  count_occ Z.eq_dec y (Z.of_nat c).

(** ** Lists and sums *)

Section ListFacts.

Lemma length_map2 {A B C : Type} (g : A -> B -> C) a b :
  length (map2 g a b) = Nat.min (length a) (length b).
Proof.
  revert b; induction a as [|x a IH]; intros [|y b]; simpl; auto.
Qed.

Lemma length_map2_same {A B C : Type} (g : A -> B -> C) a b n :
  length a = n -> length b = n -> length (map2 g a b) = n.
Proof. intros; rewrite length_map2; lia. Qed.

Lemma nth_map2 {A B C : Type} (g : A -> B -> C) a b i da db dc :
  (i < length a)%nat -> (i < length b)%nat ->
  nth i (map2 g a b) dc = g (nth i a da) (nth i b db).
Proof.
  revert b i; induction a as [|x a IH]; intros [|y b] [|i]; simpl;
    intros; try lia; auto.
  apply IH; lia.
Qed.

Lemma map2_map_l {A A' B C : Type} (g : A' -> B -> C) (h : A -> A') a b :
  map2 g (map h a) b = map2 (fun x y => g (h x) y) a b.
Proof.
  revert b; induction a as [|x a IH]; intros [|y b]; simpl; auto.
  now rewrite IH.
Qed.

Lemma map2_map_r {A B B' C : Type} (g : A -> B' -> C) (h : B -> B') a b :
  map2 g a (map h b) = map2 (fun x y => g x (h y)) a b.
Proof.
  revert b; induction a as [|x a IH]; intros [|y b]; simpl; auto.
  now rewrite IH.
Qed.

Lemma map2_swap {A B C : Type} (g : A -> B -> C) a b :
  map2 g a b = map2 (fun y x => g x y) b a.
Proof.
  revert b; induction a as [|x a IH]; intros [|y b]; simpl; auto.
  now rewrite IH.
Qed.

Lemma map_map2 {A B C E : Type} (h : C -> E) (g : A -> B -> C) a b :
  map h (map2 g a b) = map2 (fun x y => h (g x y)) a b.
Proof.
  revert b; induction a as [|x a IH]; intros [|y b]; simpl; auto.
  now rewrite IH.
Qed.

Lemma map2_ext_in {A B C : Type} (g h : A -> B -> C) a b :
  (forall x y, In x a -> In y b -> g x y = h x y) ->
  map2 g a b = map2 h a b.
Proof.
  revert b; induction a as [|x a IH]; intros [|y b] H; simpl; auto.
  rewrite H by (simpl; auto). f_equal. apply IH.
  intros; apply H; simpl; auto.
Qed.

Lemma length_upd a j t : length (upd a j t) = length a.
Proof.
  revert j; induction a as [|x a IH]; intros [|j]; simpl; auto.
Qed.

Lemma nth_upd a j t i d :
  (j < length a)%nat ->
  nth i (upd a j t) d = if Nat.eqb i j then t else nth i a d.
Proof.
  revert j i; induction a as [|x a IH]; intros [|j] [|i]; simpl;
    intros; try lia; auto.
  apply IH; lia.
Qed.

Lemma upd_out a j t : (length a <= j)%nat -> upd a j t = a.
Proof.
  revert j; induction a as [|x a IH]; intros [|j]; simpl; intros;
    try lia; auto.
  f_equal; apply IH; lia.
Qed.

Lemma length_basis n j : length (basis n j) = n.
Proof. unfold basis; now rewrite length_upd, repeat_length. Qed.

Lemma nth_basis n j i :
  (j < n)%nat -> nth i (basis n j) 0 = if Nat.eqb i j then 1 else 0.
Proof.
  intros Hj; unfold basis.
  rewrite nth_upd by (now rewrite repeat_length).
  destruct (Nat.eqb i j); auto. apply nth_repeat.
Qed.

Lemma vec_ext (a b : vec) n :
  length a = n -> length b = n ->
  (forall i, (i < n)%nat -> nth i a 0 = nth i b 0) -> a = b.
Proof.
  intros Ha Hb H. apply nth_ext with (d := 0) (d' := 0); [lia|].
  intros i Hi; apply H; lia.
Qed.

Lemma mat_ext (a b : mat) k :
  length a = k -> length b = k ->
  (forall c, (c < k)%nat -> nth c a [] = nth c b []) -> a = b.
Proof.
  intros Ha Hb H. apply nth_ext with (d := []) (d' := []); [lia|].
  intros i Hi; apply H; lia.
Qed.

Lemma bigsum_S n g : bigsum (S n) g = bigsum n g + g n.
Proof.
  unfold bigsum. rewrite seq_S, map_app. simpl.
  generalize (map g (seq 0 n)) as l.
  induction l as [|x l IH]; simpl; [lra|]. rewrite IH; lra.
Qed.

Lemma bigsum_0 g : bigsum 0 g = 0.
Proof. reflexivity. Qed.

Lemma bigsum_ext n g h :
  (forall i, (i < n)%nat -> g i = h i) -> bigsum n g = bigsum n h.
Proof.
  induction n as [|n IH]; intros H; [reflexivity|].
  rewrite !bigsum_S, IH, H; auto.
Qed.

Lemma bigsum_plus n g h :
  bigsum n (fun i => g i + h i) = bigsum n g + bigsum n h.
Proof.
  induction n as [|n IH]; [rewrite !bigsum_0; lra|].
  rewrite !bigsum_S, IH; lra.
Qed.

Lemma bigsum_scal n c g :
  bigsum n (fun i => c * g i) = c * bigsum n g.
Proof.
  induction n as [|n IH]; [rewrite !bigsum_0; lra|].
  rewrite !bigsum_S, IH; lra.
Qed.

Lemma bigsum_const0 n : bigsum n (fun _ => 0) = 0.
Proof.
  induction n as [|n IH]; [reflexivity|]. rewrite bigsum_S, IH; lra.
Qed.

Lemma bigsum_const n c : bigsum n (fun _ => c) = INR n * c.
Proof.
  induction n as [|n IH]; [rewrite bigsum_0; simpl; lra|].
  rewrite bigsum_S, IH, S_INR; lra.
Qed.

Lemma bigsum_delta n j g :
  (j < n)%nat ->
  bigsum n (fun i => if Nat.eqb i j then g i else 0) = g j.
Proof.
  induction n as [|n IH]; intros Hj; [lia|].
  rewrite bigsum_S. destruct (Nat.eq_dec j n) as [->|Hne].
  - rewrite Nat.eqb_refl.
    rewrite (bigsum_ext n _ (fun _ => 0)), bigsum_const0; [lra|].
    intros i Hi. destruct (Nat.eqb_spec i n); [lia|reflexivity].
  - rewrite IH by lia. destruct (Nat.eqb_spec n j); [lia|lra].
Qed.

Lemma vsum_bigsum (v : vec) :
  vsum v = bigsum (length v) (fun i => nth i v 0).
Proof.
  induction v as [|x v IH] using rev_ind; [reflexivity|].
  rewrite length_app; simpl. rewrite Nat.add_1_r, bigsum_S.
  rewrite nth_middle.
  rewrite (bigsum_ext _ _ (fun i => nth i v 0)).
  - rewrite <- IH. unfold vsum. rewrite fold_right_app. simpl.
    generalize v as l. induction l as [|z l IHl]; simpl; [lra|].
    unfold vsum in IHl. rewrite IHl; lra.
  - intros i Hi. now rewrite app_nth1.
Qed.

Lemma vsum_map2 (g : R -> R -> R) a b n :
  length a = n -> length b = n ->
  vsum (map2 g a b) = bigsum n (fun i => g (nth i a 0) (nth i b 0)).
Proof.
  intros Ha Hb. rewrite vsum_bigsum, (length_map2_same g a b n) by assumption.
  apply bigsum_ext; intros i Hi. apply nth_map2; lia.
Qed.

Lemma vsum_map (g : R -> R) a :
  vsum (map g a) = bigsum (length a) (fun i => g (nth i a 0)).
Proof.
  rewrite vsum_bigsum, length_map.
  apply bigsum_ext; intros i Hi.
  rewrite (nth_indep _ 0 (g 0)) by (now rewrite length_map).
  apply map_nth.
Qed.

Lemma nth_map0 (g : R -> R) a i :
  (i < length a)%nat -> nth i (map g a) 0 = g (nth i a 0).
Proof.
  intros Hi. rewrite (nth_indep _ 0 (g 0)) by (now rewrite length_map).
  apply map_nth.
Qed.

Lemma dot_bigsum a b n :
  length a = n -> length b = n ->
  dot a b = bigsum n (fun i => nth i a 0 * nth i b 0).
Proof. intros; unfold dot, vmul; now apply vsum_map2. Qed.

Lemma length_vadd a b n :
  length a = n -> length b = n -> length (vadd a b) = n.
Proof. apply length_map2_same. Qed.

Lemma length_vsub a b n :
  length a = n -> length b = n -> length (vsub a b) = n.
Proof. apply length_map2_same. Qed.

Lemma length_vmul a b n :
  length a = n -> length b = n -> length (vmul a b) = n.
Proof. apply length_map2_same. Qed.

Lemma length_vscale c a : length (vscale c a) = length a.
Proof. apply length_map. Qed.

Lemma nth_vadd a b i :
  (i < length a)%nat -> (i < length b)%nat ->
  nth i (vadd a b) 0 = nth i a 0 + nth i b 0.
Proof. apply nth_map2. Qed.

Lemma nth_vsub a b i :
  (i < length a)%nat -> (i < length b)%nat ->
  nth i (vsub a b) 0 = nth i a 0 - nth i b 0.
Proof. apply nth_map2. Qed.

Lemma nth_vmul a b i :
  (i < length a)%nat -> (i < length b)%nat ->
  nth i (vmul a b) 0 = nth i a 0 * nth i b 0.
Proof. apply nth_map2. Qed.

Lemma nth_vscale c a i :
  (i < length a)%nat -> nth i (vscale c a) 0 = c * nth i a 0.
Proof. apply nth_map0. Qed.

End ListFacts.

(** ** Derivatives of the scalar building blocks *)

Section Derivatives.

Local Abbreviation D := derivable_pt_lim.

Lemma D_ext (g h : R -> R) x l :
  (forall z, g z = h z) -> D g x l -> D h x l.
Proof. intros; eapply derivable_pt_lim_ext; eauto. Qed.

Lemma D_val (g : R -> R) x l l' : D g x l -> l = l' -> D g x l'.
Proof. intros H <-; exact H. Qed.

Lemma D_const c x : D (fun _ => c) x 0.
Proof. apply (derivable_pt_lim_const c x). Qed.

Lemma D_id x : D (fun t => t) x 1.
Proof. apply (derivable_pt_lim_id x). Qed.

Lemma D_plus g h x a b :
  D g x a -> D h x b -> D (fun t => g t + h t) x (a + b).
Proof. intros Hg Hh; apply (derivable_pt_lim_plus _ _ _ _ _ Hg Hh). Qed.

Lemma D_minus g h x a b :
  D g x a -> D h x b -> D (fun t => g t - h t) x (a - b).
Proof. intros Hg Hh; apply (derivable_pt_lim_minus _ _ _ _ _ Hg Hh). Qed.

Lemma D_opp g x a : D g x a -> D (fun t => - g t) x (- a).
Proof. intros Hg; apply (derivable_pt_lim_opp _ _ _ Hg). Qed.

Lemma D_mult g h x a b :
  D g x a -> D h x b -> D (fun t => g t * h t) x (a * h x + g x * b).
Proof. intros Hg Hh; apply (derivable_pt_lim_mult _ _ _ _ _ Hg Hh). Qed.

Lemma D_scal c g x a : D g x a -> D (fun t => c * g t) x (c * a).
Proof.
  intros Hg. eapply D_val.
  - apply (D_mult (fun _ => c) g x 0 a (D_const c x) Hg).
  - ring.
Qed.

Lemma D_div g h x a b :
  D g x a -> D h x b -> h x <> 0 ->
  D (fun t => g t / h t) x ((a * h x - b * g x) / (h x) ^ 2).
Proof.
  intros Hg Hh Hn. eapply D_val.
  - apply (derivable_pt_lim_div _ _ _ _ _ Hg Hh Hn).
  - unfold Rsqr. field. exact Hn.
Qed.

Lemma D_comp (phi g : R -> R) x a b :
  D g x a -> D phi (g x) b -> D (fun t => phi (g t)) x (b * a).
Proof. intros Hg Hp; apply (derivable_pt_lim_comp _ _ _ _ _ Hg Hp). Qed.

Lemma D_exp g x a : D g x a -> D (fun t => exp (g t)) x (exp (g x) * a).
Proof. intros Hg; apply (D_comp exp g x a _ Hg), derivable_pt_lim_exp. Qed.

Lemma D_ln g x a :
  D g x a -> 0 < g x -> D (fun t => ln (g t)) x (/ g x * a).
Proof.
  intros Hg Hp; apply (D_comp ln g x a _ Hg), derivable_pt_lim_ln, Hp.
Qed.

Lemma D_cos g x a : D g x a -> D (fun t => cos (g t)) x (- sin (g x) * a).
Proof. intros Hg; apply (D_comp cos g x a _ Hg), derivable_pt_lim_cos. Qed.

Lemma D_sq g x a : D g x a -> D (fun t => g t ^ 2) x (2 * g x * a).
Proof.
  intros Hg. eapply D_val.
  - eapply D_ext; [|apply (D_mult g g x a a Hg Hg)].
    intros z; simpl; ring.
  - ring.
Qed.

Lemma D_bigsum n (g : nat -> R -> R) (d : nat -> R) x :
  (forall i, (i < n)%nat -> D (g i) x (d i)) ->
  D (fun t => bigsum n (fun i => g i t)) x (bigsum n d).
Proof.
  induction n as [|n IH]; intros H.
  - apply (D_ext (fun _ => 0)); [|apply D_const]. intros z; reflexivity.
  - rewrite bigsum_S. eapply D_ext.
    + intros z. symmetry. apply bigsum_S.
    + apply D_plus; [apply IH; intros; apply H; lia | apply H; lia].
Qed.

(** the logistic function and its derivative *)
Lemma sigmoid_den_pos x : 0 < 1 + exp (- x).
Proof. pose proof (exp_pos (- x)); lra. Qed.

Lemma D_sigmoid x :
  D ClassificationMixin.sigmoid x
    (ClassificationMixin.sigmoid x * (1 - ClassificationMixin.sigmoid x)).
Proof.
  unfold ClassificationMixin.sigmoid.
  pose proof (sigmoid_den_pos x) as Hp.
  eapply D_val.
  - apply (D_div (fun _ => 1) (fun t => 1 + exp (- t)) x).
    + apply D_const.
    + apply D_plus; [apply D_const|]. apply D_exp, D_opp, D_id.
    + lra.
  - field. lra.
Qed.

End Derivatives.

(** ** What an OLS projection satisfies *)

Section VectorAlgebra.

Lemma dot_vadd_l x y w n :
  length x = n -> length y = n -> length w = n ->
  dot (vadd x y) w = dot x w + dot y w.
Proof.
  intros Hx Hy Hw.
  rewrite !(dot_bigsum _ _ n), <- bigsum_plus;
    try assumption; try (now apply length_map2_same).
  apply bigsum_ext; intros i Hi. unfold vadd.
  rewrite (nth_map2 _ _ _ _ 0 0) by lia. ring.
Qed.

Lemma dot_vsub_r w x y n :
  length x = n -> length y = n -> length w = n ->
  dot w (vsub x y) = dot w x - dot w y.
Proof.
  intros Hx Hy Hw.
  rewrite !(dot_bigsum _ _ n);
    try assumption; try (now apply length_map2_same).
  replace (bigsum n (fun i => nth i w 0 * nth i x 0) -
           bigsum n (fun i => nth i w 0 * nth i y 0))
    with (bigsum n (fun i => nth i w 0 * nth i x 0) +
          bigsum n (fun i => -1 * (nth i w 0 * nth i y 0)))
    by (rewrite bigsum_scal; ring).
  rewrite <- bigsum_plus.
  apply bigsum_ext; intros i Hi. unfold vsub.
  rewrite (nth_map2 _ _ _ _ 0 0) by lia. ring.
Qed.

Lemma dot_vscale_l c x w n :
  length x = n -> length w = n ->
  dot (vscale c x) w = c * dot x w.
Proof.
  intros Hx Hw.
  rewrite !(dot_bigsum _ _ n), <- bigsum_scal;
    try assumption; try (unfold vscale; now rewrite length_map).
  apply bigsum_ext; intros i Hi. unfold vscale.
  rewrite nth_map0 by lia. ring.
Qed.

Lemma dot_comm x y n :
  length x = n -> length y = n -> dot x y = dot y x.
Proof.
  intros Hx Hy. rewrite !(dot_bigsum _ _ n) by assumption.
  apply bigsum_ext; intros; ring.
Qed.

Lemma dot_repeat0_l n w : length w = n -> dot (repeat 0 n) w = 0.
Proof.
  intros Hw. rewrite (dot_bigsum _ _ n); auto using repeat_length.
  rewrite (bigsum_ext _ _ (fun _ => 0)), bigsum_const0; auto.
  intros i Hi. rewrite nth_repeat. ring.
Qed.

Lemma bigsum_sq_zero n g :
  bigsum n (fun i => g i * g i) = 0 ->
  forall i, (i < n)%nat -> g i = 0.
Proof.
  induction n as [|n IH]; intros H i Hi; [lia|].
  rewrite bigsum_S in H.
  assert (Hnn : 0 <= bigsum n (fun i => g i * g i)).
  { clear. induction n as [|n IHn]; [rewrite bigsum_0; lra|].
    rewrite bigsum_S. nra. }
  assert (Hg : g n * g n = 0) by nra.
  assert (Hs : bigsum n (fun i => g i * g i) = 0) by nra.
  destruct (Nat.eq_dec i n) as [->|Hne]; [nra|].
  apply IH; [exact Hs | lia].
Qed.

Lemma dot_self_zero v n :
  length v = n -> dot v v = 0 -> v = repeat 0 n.
Proof.
  intros Hv H. rewrite (dot_bigsum _ _ n) in H by assumption.
  apply (vec_ext _ _ n); auto using repeat_length.
  intros i Hi. rewrite nth_repeat.
  apply (bigsum_sq_zero n (fun i => nth i v 0) H i Hi).
Qed.

Lemma length_lincomb n b a :
  (forall col, In col a -> length col = n) -> length (lincomb n b a) = n.
Proof.
  revert a; induction b as [|bc b IH]; intros [|col a] H; simpl;
    auto using repeat_length.
  apply length_map2_same.
  - unfold vscale; rewrite length_map; apply H; simpl; auto.
  - apply IH; intros; apply H; simpl; auto.
Qed.

(** a vector orthogonal to every column is orthogonal to their span *)
Lemma dot_lincomb_orth n b a w :
  (forall col, In col a -> length col = n) -> length w = n ->
  (forall col, In col a -> dot col w = 0) ->
  dot (lincomb n b a) w = 0.
Proof.
  revert a; induction b as [|bc b IH]; intros [|col a] Hl Hw Ho; simpl;
    auto using dot_repeat0_l.
  rewrite (dot_vadd_l _ _ _ n); auto.
  - rewrite (dot_vscale_l _ _ _ n); auto; [|apply Hl; simpl; auto].
    rewrite Ho by (simpl; auto).
    rewrite IH; auto; [ring | |]; intros; [apply Hl|apply Ho]; simpl; auto.
  - unfold vscale; rewrite length_map; apply Hl; simpl; auto.
  - apply length_lincomb; intros; apply Hl; simpl; auto.
Qed.

End VectorAlgebra.

Section Projection.

Context {am : AnchorMixin}.
Variables (n : nat) (a : mat).
Hypothesis Hproj : ols_projection am n a.

Local Abbreviation P := (_proj a).
Local Abbreviation D := derivable_pt_lim.

Lemma proj_length r : length r = n -> length (P r) = n.
Proof.
  intros Hr. destruct Hproj as [_ H]. destruct (H r Hr) as [Hl _]. lia.
Qed.

Lemma proj_col_orth r col :
  length r = n -> In col a -> dot col (P r) = dot col r.
Proof.
  intros Hr Hc. destruct Hproj as [Hlen H].
  destruct (H r Hr) as (Hl & _ & Ho).
  specialize (Ho col Hc).
  rewrite (dot_vsub_r _ _ _ n) in Ho; auto; try lia. lra.
Qed.

Lemma proj_in_span r w :
  length r = n -> length w = n ->
  (forall col, In col a -> dot col w = 0) -> dot (P r) w = 0.
Proof.
  intros Hr Hw Ho. destruct Hproj as [Hlen H].
  destruct (H r Hr) as (Hl & [b Hb] & _).
  rewrite Hb, Hr. now apply dot_lincomb_orth.
Qed.

(** the part left over by the projection is orthogonal to every fit *)
Lemma proj_orth r s :
  length r = n -> length s = n -> dot (P r) (vsub s (P s)) = 0.
Proof.
  intros Hr Hs. apply proj_in_span; auto.
  - apply length_map2_same; auto using proj_length.
  - intros col Hc. destruct Hproj as [Hlen _].
    rewrite (dot_vsub_r _ _ _ n); auto using proj_length.
    rewrite proj_col_orth; auto. lra.
Qed.

Lemma proj_dot r s :
  length r = n -> length s = n -> dot (P r) (P s) = dot (P r) s.
Proof.
  intros Hr Hs. pose proof (proj_orth r s Hr Hs) as H.
  rewrite (dot_vsub_r _ _ _ n) in H; auto using proj_length. lra.
Qed.

Lemma proj_linear r d c :
  length r = n -> length d = n ->
  P (vadd r (vscale c d)) = vadd (P r) (vscale c (P d)).
Proof.
  intros Hr Hd.
  assert (Hsd : length (vscale c d) = n) by (unfold vscale; now rewrite length_map).
  assert (Hrd : length (vadd r (vscale c d)) = n) by now apply length_map2_same.
  assert (Hpd : length (vscale c (P d)) = n)
    by (unfold vscale; rewrite length_map; now apply proj_length).
  assert (Hq : length (vadd (P r) (vscale c (P d))) = n)
    by (apply length_map2_same; auto using proj_length).
  set (u := P (vadd r (vscale c d))).
  set (q := vadd (P r) (vscale c (P d))).
  assert (Hu : length u = n) by (apply proj_length; exact Hrd).
  assert (Hv : length (vsub u q) = n) by now apply length_map2_same.
  assert (Hcol : forall col, In col a -> dot col (vsub u q) = 0).
  { intros col Hc. destruct Hproj as [Hlen _].
    rewrite (dot_vsub_r _ _ _ n); auto.
    unfold u, q. rewrite proj_col_orth; auto.
    rewrite !(dot_comm col _ n); auto.
    rewrite !(dot_vadd_l _ _ _ n), !(dot_vscale_l _ _ _ n);
      auto using proj_length.
    rewrite !(dot_comm _ col n); auto using proj_length.
    rewrite !proj_col_orth; auto. ring. }
  assert (Hz : dot (vsub u q) (vsub u q) = 0).
  { rewrite (dot_vsub_r _ _ _ n); auto.
    rewrite (dot_comm (vsub u q) u n), (dot_comm (vsub u q) q n); auto.
    unfold u at 1. rewrite proj_in_span; auto.
    unfold q at 1.
    rewrite (dot_vadd_l _ _ _ n), (dot_vscale_l _ _ _ n);
      auto using proj_length.
    rewrite !proj_in_span; auto. ring. }
  apply dot_self_zero with (n := n) in Hz; auto.
  apply (vec_ext _ _ n); auto.
  intros i Hi.
  assert (Hi' : nth i (vsub u q) 0 = 0) by (rewrite Hz; apply nth_repeat).
  assert (Hq' : length q = n) by exact Hq.
  unfold vsub in Hi'. rewrite (nth_map2 _ _ _ _ 0 0) in Hi' by lia. lra.
Qed.

(** The squared norm of the projected residual along a line
    [r0 + delta(t) * d] through [r0]. *)
Lemma pen_line (r0 d : vec) (delta : R -> R) t0 delta' :
  length r0 = n -> length d = n ->
  delta t0 = 0 -> D delta t0 delta' ->
  D (fun t => vsum (map (fun x => x ^ 2)
                        (P (vadd r0 (vscale (delta t) d)))))
    t0 (2 * delta' * dot (P r0) d).
Proof.
  intros Hr Hd H0 HD.
  pose proof (proj_length r0 Hr) as Hpr.
  pose proof (proj_length d Hd) as Hpd.
  apply (D_ext (fun t => dot (P r0) (P r0)
                         + 2 * (delta t * dot (P r0) (P d))
                         + delta t ^ 2 * dot (P d) (P d))).
  - intros z. rewrite proj_linear by assumption.
    rewrite vsum_map.
    rewrite (length_vadd _ _ n);
      [| assumption | now rewrite length_vscale].
    rewrite !(dot_bigsum _ _ n) by assumption.
    rewrite <- !bigsum_scal, <- !bigsum_plus.
    apply bigsum_ext; intros i Hi.
    rewrite nth_vadd by (rewrite ?length_vscale; lia).
    rewrite nth_vscale by lia. ring.
  - eapply D_val.
    + apply D_plus; [apply D_plus; [apply D_const|]|].
      * apply D_scal.
        apply (D_mult delta (fun _ => dot (P r0) (P d)) t0 delta' 0 HD).
        apply D_const.
      * apply (D_mult (fun t => delta t ^ 2) (fun _ => dot (P d) (P d))).
        -- apply D_sq, HD.
        -- apply D_const.
    + rewrite H0, (proj_dot r0 d) by assumption. ring.
Qed.

End Projection.

Lemma ols_shape (am : AnchorMixin) n a :
  ols_projection am n a -> shape_preserving am n a.
Proof. intros H r Hr. now apply (proj_length n a H). Qed.

(** ** Moving one score: how vectors and sums change *)

Section OneCoordinate.

Local Abbreviation D := derivable_pt_lim.

Lemma vsum_vadd a b n :
  length a = n -> length b = n -> vsum (vadd a b) = vsum a + vsum b.
Proof.
  intros Ha Hb. unfold vadd. rewrite (vsum_map2 _ _ _ n) by assumption.
  rewrite bigsum_plus, !vsum_bigsum, Ha, Hb. reflexivity.
Qed.

Lemma vsum_vsub a b n :
  length a = n -> length b = n -> vsum (vsub a b) = vsum a - vsum b.
Proof.
  intros Ha Hb. unfold vsub. rewrite (vsum_map2 _ _ _ n) by assumption.
  rewrite !vsum_bigsum, Ha, Hb.
  replace (bigsum n (fun i => nth i a 0) - bigsum n (fun i => nth i b 0))
    with (bigsum n (fun i => nth i a 0)
          + bigsum n (fun i => -1 * nth i b 0))
    by (rewrite bigsum_scal; ring).
  rewrite <- bigsum_plus. apply bigsum_ext; intros; ring.
Qed.

Lemma vsum_vscale c a : vsum (vscale c a) = c * vsum a.
Proof.
  unfold vscale. rewrite vsum_map, vsum_bigsum. apply bigsum_scal.
Qed.

Lemma vsum_map_div a m : vsum (map (fun x => x / m) a) = vsum a / m.
Proof.
  rewrite vsum_map, vsum_bigsum. unfold Rdiv.
  rewrite (bigsum_ext _ _ (fun i => / m * nth i a 0)) by (intros; ring).
  rewrite bigsum_scal. ring.
Qed.

Lemma vsum_sq_dot a : vsum (map (fun x => x ^ 2) a) = dot a a.
Proof.
  rewrite vsum_map, (dot_bigsum _ _ (length a)) by reflexivity.
  apply bigsum_ext; intros; ring.
Qed.

Lemma bigsum_upd n j (g h : nat -> R) :
  (j < n)%nat -> (forall i, (i < n)%nat -> i <> j -> g i = h i) ->
  bigsum n g = bigsum n h - h j + g j.
Proof.
  intros Hj H.
  rewrite (bigsum_ext n g (fun i => h i + (if Nat.eqb i j then g i - h i else 0))).
  - rewrite bigsum_plus, (bigsum_delta n j (fun i => g i - h i)) by assumption.
    ring.
  - intros i Hi. destruct (Nat.eqb_spec i j) as [->|Hne]; [ring|].
    rewrite H by assumption. ring.
Qed.

Lemma vsum_map2_upd (g : R -> R -> R) f y n j t :
  length f = n -> length y = n -> (j < n)%nat ->
  vsum (map2 g (upd f j t) y)
  = vsum (map2 g f y) - g (nth j f 0) (nth j y 0) + g t (nth j y 0).
Proof.
  intros Hf Hy Hj.
  rewrite !(vsum_map2 _ _ _ n); auto; [|now rewrite length_upd].
  rewrite (bigsum_upd n j _ (fun i => g (nth i f 0) (nth i y 0))); auto.
  - rewrite nth_upd, Nat.eqb_refl by lia. reflexivity.
  - intros i Hi Hne. rewrite nth_upd by lia.
    destruct (Nat.eqb_spec i j); [contradiction|reflexivity].
Qed.

(** the residual vector moves along the [j]-th unit vector *)
Lemma map2_upd_line (rho : R -> R -> R) f y n j t :
  length f = n -> length y = n -> (j < n)%nat ->
  map2 rho (upd f j t) y
  = vadd (map2 rho f y)
         (vscale (rho t (nth j y 0) - rho (nth j f 0) (nth j y 0)) (basis n j)).
Proof.
  intros Hf Hy Hj.
  apply (vec_ext _ _ n).
  - apply length_map2_same; auto. now rewrite length_upd.
  - apply length_vadd; [now apply length_map2_same|].
    now rewrite length_vscale, length_basis.
  - intros i Hi.
    rewrite nth_vadd, nth_vscale, nth_basis;
      rewrite ?length_vscale, ?length_basis, ?(length_map2_same _ _ _ n);
      auto.
    rewrite !(nth_map2 _ _ _ _ 0 0) by (rewrite ?length_upd; lia).
    rewrite nth_upd by lia.
    destruct (Nat.eqb_spec i j) as [->|Hne]; ring.
Qed.

Lemma map_upd_line (g : R -> R) r n j x :
  length r = n -> (j < n)%nat ->
  map g (upd r j x)
  = vadd (map g r) (vscale (g x - g (nth j r 0)) (basis n j)).
Proof.
  intros Hr Hj.
  apply (vec_ext _ _ n).
  - now rewrite length_map, length_upd.
  - apply length_vadd; [now rewrite length_map|].
    now rewrite length_vscale, length_basis.
  - intros i Hi.
    rewrite nth_vadd, nth_vscale, nth_basis;
      rewrite ?length_vscale, ?length_basis, ?length_map; auto; try lia.
    rewrite !nth_map0 by (rewrite ?length_upd; lia).
    rewrite nth_upd by lia.
    destruct (Nat.eqb_spec i j) as [->|Hne]; ring.
Qed.

Lemma length_center v : length (center v) = length v.
Proof. apply length_map. Qed.

Lemma nth_center v i :
  (i < length v)%nat -> nth i (center v) 0 = nth i v 0 - vmean v.
Proof. intros; unfold center; now rewrite nth_map0. Qed.

Lemma center_line r d c n :
  length r = n -> length d = n ->
  center (vadd r (vscale c d)) = vadd (center r) (vscale c (center d)).
Proof.
  intros Hr Hd.
  assert (Hs : length (vscale c d) = n) by now rewrite length_vscale.
  assert (Hrd : length (vadd r (vscale c d)) = n) by now apply length_vadd.
  apply (vec_ext _ _ n).
  - now rewrite length_center.
  - apply length_vadd; [now rewrite length_center|].
    now rewrite length_vscale, length_center.
  - intros i Hi.
    rewrite nth_center, nth_vadd, nth_vadd, !nth_vscale, !nth_center;
      rewrite ?length_vscale, ?length_center; try lia.
    unfold vmean. rewrite Hrd, Hr, Hd.
    rewrite (vsum_vadd _ _ n), vsum_vscale by assumption.
    field. apply not_0_INR. lia.
Qed.

Lemma dot_basis u n j :
  length u = n -> (j < n)%nat -> dot u (basis n j) = nth j u 0.
Proof.
  intros Hu Hj. rewrite (dot_bigsum _ _ n); auto using length_basis.
  rewrite (bigsum_ext _ _ (fun i => if Nat.eqb i j then nth i u 0 else 0)).
  - now apply (bigsum_delta n j (fun i => nth i u 0)).
  - intros i Hi. rewrite nth_basis by assumption.
    destruct (Nat.eqb i j); ring.
Qed.

Lemma dot_center_basis u n j :
  length u = n -> (j < n)%nat ->
  dot u (center (basis n j)) = nth j u 0 - vmean u.
Proof.
  intros Hu Hj.
  assert (Hm : vmean (basis n j) = / INR n).
  { unfold vmean. rewrite length_basis, vsum_bigsum, length_basis.
    rewrite (bigsum_ext _ _ (fun i => if Nat.eqb i j then 1 else 0)).
    - rewrite (bigsum_delta n j (fun _ => 1)) by assumption.
      unfold Rdiv; ring.
    - intros i Hi. now apply nth_basis. }
  rewrite (dot_bigsum _ _ n); auto; [|now rewrite length_center, length_basis].
  rewrite (bigsum_ext _ _
             (fun i => (if Nat.eqb i j then nth i u 0 else 0)
                       + (- / INR n) * nth i u 0)).
  - rewrite bigsum_plus, bigsum_scal.
    rewrite (bigsum_delta n j (fun i => nth i u 0)) by assumption.
    unfold vmean. rewrite vsum_bigsum, Hu. unfold Rdiv. ring.
  - intros i Hi. rewrite nth_center by (rewrite length_basis; lia).
    rewrite Hm, nth_basis by assumption.
    destruct (Nat.eqb i j); ring.
Qed.

(** the per-example logistic loss and its derivative on a 0/1 label *)
Lemma D_logistic_loss y t :
  y = 0 \/ y = 1 ->
  D (fun t => ln (1 + exp ((-2 * y + 1) * t))) t
    (ClassificationMixin.sigmoid t - y).
Proof.
  intros Hy. unfold ClassificationMixin.sigmoid.
  pose proof (exp_pos t) as Hp. pose proof (exp_pos (- t)) as Hn.
  assert (He : exp (- t) = / exp t) by apply exp_Ropp.
  eapply D_val.
  - apply D_ln.
    + apply D_plus; [apply D_const|].
      apply D_exp. apply D_scal. apply D_id.
    + pose proof (exp_pos ((-2 * y + 1) * t)); lra.
  - destruct Hy as [-> | ->].
    + replace ((-2 * 0 + 1) * t) with t by ring.
      rewrite He. field. split; lra.
    + replace ((-2 * 1 + 1) * t) with (- t) by ring.
      field. lra.
Qed.

End OneCoordinate.

(** ** The binary and regression variants: gradient of the total loss *)

Section ScalarVariants.

Context {am : AnchorMixin}.
Local Abbreviation D := derivable_pt_lim.

Variables (n : nat) (data : Dataset R).
Hypothesis Hproj : ols_projection am n (anchor data).
Hypothesis Hy : length (get_label data) = n.

Lemma kook_grad_correct (self : AnchorKookClassificationObjective.Self) f j :
  binary_labels (get_label data) -> length f = n -> (j < n)%nat ->
  D (fun t => vsum (AnchorKookClassificationObjective.loss self (upd f j t) data))
    (nth j f 0)
    (nth j (AnchorKookClassificationObjective.grad self f data) 0).
Proof.
  intros Hb Hf Hj.
  set (y := get_label data) in *.
  set (g := AnchorKookClassificationObjective.gamma self).
  set (rho := fun fi yi : R => ClassificationMixin.sigmoid fi - yi).
  set (r0 := AnchorKookClassificationObjective.residuals self f data).
  set (d := if AnchorKookClassificationObjective.center_residuals self
            then center (basis n j) else basis n j).
  set (delta := fun t => ClassificationMixin.sigmoid t
                         - ClassificationMixin.sigmoid (nth j f 0)).
  assert (Hraw : forall h, length h = n ->
             length (vsub (ClassificationMixin.predictions h) y) = n).
  { intros h Hh. apply length_vsub; auto.
    unfold ClassificationMixin.predictions. now rewrite length_map. }
  assert (Hr0 : length r0 = n).
  { unfold r0, AnchorKookClassificationObjective.residuals,
      AnchorKookClassificationObjective.predictions.
    destruct (AnchorKookClassificationObjective.center_residuals self);
      [rewrite length_map|]; now apply Hraw. }
  assert (Hd : length d = n).
  { unfold d. destruct (AnchorKookClassificationObjective.center_residuals self);
      rewrite ?length_center; apply length_basis. }
  assert (Hres : forall t,
             AnchorKookClassificationObjective.residuals self (upd f j t) data
             = vadd r0 (vscale (delta t) d)).
  { intros t. unfold r0, d, AnchorKookClassificationObjective.residuals,
      AnchorKookClassificationObjective.predictions,
      ClassificationMixin.predictions, vsub.
    fold y. rewrite !map2_map_l.
    rewrite (map2_upd_line _ f y n j t) by assumption.
    replace (ClassificationMixin.sigmoid t - nth j y 0
             - (ClassificationMixin.sigmoid (nth j f 0) - nth j y 0))
      with (delta t) by (unfold delta; ring).
    destruct (AnchorKookClassificationObjective.center_residuals self).
    - apply (center_line _ _ _ n); [now apply length_map2_same|].
      apply length_basis.
    - reflexivity. }
  assert (Hbase : forall t,
             vsum (ClassificationMixin.loss (upd f j t) data)
             = vsum (ClassificationMixin.loss f data)
               - ln (1 + exp ((-2 * nth j y 0 + 1) * nth j f 0))
               + ln (1 + exp ((-2 * nth j y 0 + 1) * t))).
  { intros t. unfold ClassificationMixin.loss. fold y.
    now rewrite (vsum_map2_upd _ f y n j t). }
  apply (D_ext (fun t =>
           (vsum (ClassificationMixin.loss f data)
            - ln (1 + exp ((-2 * nth j y 0 + 1) * nth j f 0))
            + ln (1 + exp ((-2 * nth j y 0 + 1) * t)))
           + (g - 1) * vsum (map (fun x => x ^ 2)
                               (_proj (anchor data)
                                  (vadd r0 (vscale (delta t) d)))))).
  - intros t. unfold AnchorKookClassificationObjective.loss.
    rewrite (vsum_vadd _ _ n).
    + rewrite vsum_vscale, Hbase, Hres. reflexivity.
    + unfold ClassificationMixin.loss. apply length_map2_same; auto.
      now rewrite length_upd.
    + rewrite length_vscale, length_map, Hres.
      apply (proj_length n _ Hproj). apply length_vadd; auto.
      now rewrite length_vscale.
  - assert (Hyj : nth j y 0 = 0 \/ nth j y 0 = 1).
    { apply Hb. apply nth_In. unfold y in *. lia. }
    eapply D_val.
    + apply D_plus.
      * apply D_plus; [apply D_const|].
        apply (D_logistic_loss (nth j y 0) (nth j f 0) Hyj).
      * apply D_scal.
        apply (pen_line n (anchor data) Hproj r0 d delta (nth j f 0)
                 (ClassificationMixin.sigmoid (nth j f 0)
                  * (1 - ClassificationMixin.sigmoid (nth j f 0)))); auto.
        -- unfold delta; ring.
        -- unfold delta. eapply D_val.
           ++ apply D_minus; [apply D_sigmoid | apply D_const].
           ++ ring.
    + (* the value computed by [grad] *)
      unfold AnchorKookClassificationObjective.grad.
      fold r0.
      set (pr := _proj (anchor data) r0).
      assert (Hpr : length pr = n) by (apply (proj_length n _ Hproj); auto).
      set (p := AnchorKookClassificationObjective.predictions f).
      assert (Hp : length p = n).
      { unfold p, AnchorKookClassificationObjective.predictions,
          ClassificationMixin.predictions. now rewrite length_map. }
      assert (Hpj : nth j p 0 = ClassificationMixin.sigmoid (nth j f 0)).
      { unfold p, AnchorKookClassificationObjective.predictions,
          ClassificationMixin.predictions. apply nth_map0. lia. }
      set (prc := if AnchorKookClassificationObjective.center_residuals self
                  then map (fun x => x - vmean pr) pr else pr).
      assert (Hprc : length prc = n).
      { unfold prc.
        destruct (AnchorKookClassificationObjective.center_residuals self);
          rewrite ?length_map; auto. }
      assert (Hdot : dot pr d = nth j prc 0).
      { unfold d, prc.
        destruct (AnchorKookClassificationObjective.center_residuals self).
        - rewrite (dot_center_basis _ n) by assumption.
          rewrite nth_map0 by lia. reflexivity.
        - now apply dot_basis. }
      rewrite nth_vadd.
      * unfold ClassificationMixin.grad. fold y.
        rewrite nth_vsub, !nth_vmul, nth_vscale, nth_map0;
          rewrite ?(length_vmul _ _ n), ?length_vscale, ?length_map;
          unfold ClassificationMixin.predictions;
          rewrite ?length_map; try lia; auto;
          try (now rewrite length_vscale).
        fold (ClassificationMixin.predictions f).
        change (ClassificationMixin.predictions f) with p.
        rewrite Hpj, Hdot. fold g. ring.
      * unfold ClassificationMixin.grad. rewrite (length_vsub _ _ n); auto.
      * rewrite (length_vmul _ _ n); auto.
        -- apply length_vmul; auto. now rewrite length_vscale.
        -- now rewrite length_map.
Qed.

End ScalarVariants.

Section ScalarVariants2.

Context {am : AnchorMixin}.
Local Abbreviation D := derivable_pt_lim.

Variables (n : nat) (data : Dataset R).
Hypothesis Hproj : ols_projection am n (anchor data).
Hypothesis Hy : length (get_label data) = n.

Lemma D_divc g x a m : D g x a -> D (fun t => g t / m) x (a / m).
Proof.
  intros Hg. eapply D_val.
  - apply (D_ext (fun t => / m * g t)); [intros; unfold Rdiv; ring|].
    apply D_scal, Hg.
  - unfold Rdiv; ring.
Qed.

Lemma D_vsum_map2_upd (g : R -> R -> R) f y j l :
  length f = n -> length y = n -> (j < n)%nat ->
  D (fun t => g t (nth j y 0)) (nth j f 0) l ->
  D (fun t => vsum (map2 g (upd f j t) y)) (nth j f 0) l.
Proof.
  intros Hf Hly Hj Hg.
  apply (D_ext (fun t => vsum (map2 g f y) - g (nth j f 0) (nth j y 0)
                         + g t (nth j y 0))).
  - intros t. symmetry. now apply (vsum_map2_upd g f y n j t).
  - eapply D_val; [apply D_plus; [apply D_const | apply Hg] | ring].
Qed.

Lemma D_pen_map2 (rho : R -> R -> R) f y j l :
  length f = n -> length y = n -> (j < n)%nat ->
  D (fun t => rho t (nth j y 0)) (nth j f 0) l ->
  D (fun t => vsum (map (fun x => x ^ 2)
                        (_proj (anchor data) (map2 rho (upd f j t) y))))
    (nth j f 0)
    (2 * l * nth j (_proj (anchor data) (map2 rho f y)) 0).
Proof.
  intros Hf Hly Hj Hr.
  set (delta := fun t => rho t (nth j y 0) - rho (nth j f 0) (nth j y 0)).
  assert (Hr0 : length (map2 rho f y) = n) by now apply length_map2_same.
  apply (D_ext (fun t => vsum (map (fun x => x ^ 2)
                  (_proj (anchor data)
                         (vadd (map2 rho f y) (vscale (delta t) (basis n j))))))).
  - intros t. now rewrite (map2_upd_line rho f y n j t).
  - eapply D_val.
    + apply (pen_line n (anchor data) Hproj _ (basis n j) delta (nth j f 0) l);
        auto using length_basis.
      * unfold delta; ring.
      * unfold delta. eapply D_val;
          [apply D_minus; [apply Hr | apply D_const] | ring].
    + rewrite (dot_basis _ n); auto. apply (proj_length n _ Hproj), Hr0.
Qed.

(** Liu's smoothed residual, for the recoded label [s = 2 y - 1] *)
Lemma D_liu_residual s t :
  s = 1 \/ s = -1 ->
  D (fun t => - t + s * (1 + exp (- s * t)) * ln (1 + exp (s * t))) t
    (- (exp (- s * t) * ln (1 + exp (s * t)))).
Proof.
  intros Hs.
  pose proof (exp_pos t) as Hp. pose proof (exp_pos (- t)) as Hn.
  assert (He : exp (- t) = / exp t) by apply exp_Ropp.
  eapply D_val.
  - apply D_plus; [apply D_opp, D_id|].
    apply (D_mult (fun t => s * (1 + exp (- s * t)))
                  (fun t => ln (1 + exp (s * t)))).
    + apply D_scal. apply D_plus; [apply D_const|].
      apply D_exp. apply D_scal. apply D_id.
    + apply D_ln.
      * apply D_plus; [apply D_const|]. apply D_exp, D_scal, D_id.
      * pose proof (exp_pos (s * t)); lra.
  - destruct Hs as [-> | ->].
    + replace (- (1) * t) with (- t) by ring.
      replace (1 * t) with t by ring.
      rewrite He. field. split; lra.
    + replace (- -1 * t) with t by ring.
      replace (-1 * t) with (- t) by ring.
      rewrite He. field. split; lra.
Qed.

Lemma liu_grad_correct (self : AnchorLiuClassificationObjective.Self) f j :
  binary_labels (get_label data) -> length f = n -> (j < n)%nat ->
  D (fun t => vsum (AnchorLiuClassificationObjective.loss self (upd f j t) data))
    (nth j f 0)
    (nth j (AnchorLiuClassificationObjective.grad self f data) 0).
Proof.
  intros Hb Hf Hj.
  set (y := get_label data) in *.
  assert (Hyj : nth j y 0 = 0 \/ nth j y 0 = 1).
  { apply Hb. apply nth_In. lia. }
  assert (Hp : length (ClassificationMixin.predictions f) = n).
  { unfold ClassificationMixin.predictions. now rewrite length_map. }
  assert (Hbase : D (fun t => vsum (ClassificationMixin.loss (upd f j t) data))
                    (nth j f 0)
                    (nth j (ClassificationMixin.grad f data) 0)).
  { unfold ClassificationMixin.loss, ClassificationMixin.grad. fold y.
    apply D_vsum_map2_upd; auto.
    rewrite nth_vsub by lia.
    unfold ClassificationMixin.predictions. rewrite nth_map0 by lia.
    now apply D_logistic_loss. }
  unfold AnchorLiuClassificationObjective.loss,
    AnchorLiuClassificationObjective.grad.
  destruct (Req_dec_T (AnchorLiuClassificationObjective.gamma self) 1) as [Hg|Hg];
    [exact Hbase|].
  set (g := AnchorLiuClassificationObjective.gamma self).
  set (rho := fun fi yi : R =>
                - fi + (2 * yi - 1) * (1 + exp (- (2 * yi - 1) * fi))
                       * ln (1 + exp ((2 * yi - 1) * fi))).
  assert (Hres : forall h, AnchorLiuClassificationObjective.residuals self h data
                           = map2 rho h y).
  { intros h. unfold AnchorLiuClassificationObjective.residuals. fold y.
    now rewrite map2_map_r. }
  assert (Hs : 2 * nth j y 0 - 1 = 1 \/ 2 * nth j y 0 - 1 = -1)
    by (destruct Hyj as [-> | ->]; [right|left]; ring).
  apply (D_ext (fun t =>
           vsum (ClassificationMixin.loss (upd f j t) data)
           + (g - 1) * vsum (map (fun x => x ^ 2)
                               (_proj (anchor data) (map2 rho (upd f j t) y))))).
  - intros t. rewrite (vsum_vadd _ _ n).
    + now rewrite vsum_vscale, Hres.
    + unfold ClassificationMixin.loss. apply length_map2_same; auto.
      now rewrite length_upd.
    + rewrite length_vscale, length_map, Hres.
      apply (proj_length n _ Hproj). apply length_map2_same; auto.
      now rewrite length_upd.
  - eapply D_val.
    + apply D_plus; [exact Hbase|]. apply D_scal.
      eapply (D_pen_map2 rho f y j); auto.
      apply (D_liu_residual (2 * nth j y 0 - 1) (nth j f 0) Hs).
    + rewrite Hres.
      set (pr := _proj (anchor data) (map2 rho f y)).
      assert (Hpr : length pr = n).
      { apply (proj_length n _ Hproj). now apply length_map2_same. }
      rewrite !map2_map_r. fold y.
      set (e := map2 (fun fi yi => exp (- (2 * yi - 1) * fi)) f y).
      set (l := map2 (fun fi yi => ln (1 + exp ((2 * yi - 1) * fi))) f y).
      assert (Hle : length e = n) by now apply length_map2_same.
      assert (Hll : length l = n) by now apply length_map2_same.
      assert (Hbl : length (ClassificationMixin.grad f data) = n)
        by now apply length_vsub.
      assert (Hsp : length (vscale (2 * (g - 1)) pr) = n)
        by now rewrite length_vscale.
      assert (Hm1 : length (vmul (vscale (2 * (g - 1)) pr) e) = n)
        by now apply length_vmul.
      assert (Hm2 : length (vmul (vmul (vscale (2 * (g - 1)) pr) e) l) = n)
        by now apply length_vmul.
      fold g.
      rewrite nth_vsub, !nth_vmul, nth_vscale by lia.
      unfold e, l. rewrite !(nth_map2 _ f y j 0 0) by lia.
      ring.
Qed.

Variable coef : R.

Lemma D_sq_loss y t :
  D (fun t => coef * (y - t) ^ 2) t (2 * coef * (t - y)).
Proof.
  eapply D_val.
  - apply D_scal, D_sq. apply D_minus; [apply D_const | apply D_id].
  - ring.
Qed.

Lemma regression_base_correct f j :
  length f = n -> (j < n)%nat ->
  D (fun t => vsum (RegressionMixin.loss coef (upd f j t) data)) (nth j f 0)
    (nth j (RegressionMixin.grad coef f data) 0).
Proof.
  intros Hf Hj. unfold RegressionMixin.loss, RegressionMixin.grad.
  apply D_vsum_map2_upd; auto.
  rewrite (nth_map2 _ _ _ _ 0 0) by lia.
  apply D_sq_loss.
Qed.

Lemma regression_grad_correct (self : AnchorRegressionObjective.Self) f j :
  length f = n -> (j < n)%nat ->
  D (fun t => vsum (AnchorRegressionObjective.loss coef self (upd f j t) data))
    (nth j f 0)
    (nth j (AnchorRegressionObjective.grad coef self f data) 0).
Proof.
  intros Hf Hj.
  set (y := get_label data) in *.
  pose proof (regression_base_correct f j Hf Hj) as Hbase.
  unfold AnchorRegressionObjective.loss, AnchorRegressionObjective.grad.
  destruct (Req_dec_T (AnchorRegressionObjective.gamma self) 1) as [Hg|Hg];
    [exact Hbase|].
  set (g := AnchorRegressionObjective.gamma self).
  set (rho := fun fi yi : R => yi - fi).
  assert (Hres : forall h, AnchorRegressionObjective.residuals self h data
                           = map2 rho h y).
  { intros h. unfold AnchorRegressionObjective.residuals, vsub. fold y.
    now rewrite map2_swap. }
  assert (Hgl : length (RegressionMixin.grad coef f data) = n).
  { unfold RegressionMixin.grad. now apply length_map2_same. }
  apply (D_ext (fun t =>
           (vsum (RegressionMixin.loss coef (upd f j t) data)
            + (g - 1) * vsum (map (fun x => x ^ 2)
                                (_proj (anchor data) (map2 rho (upd f j t) y))))
           / Rmax g 1)).
  - intros t. rewrite vsum_map_div, (vsum_vadd _ _ n).
    + now rewrite vsum_vscale, Hres.
    + unfold RegressionMixin.loss. apply length_map2_same; auto.
      now rewrite length_upd.
    + rewrite length_vscale, length_map, Hres.
      apply (proj_length n _ Hproj). apply length_map2_same; auto.
      now rewrite length_upd.
  - eapply D_val.
    + apply D_divc. apply D_plus; [exact Hbase|]. apply D_scal.
      apply (D_pen_map2 rho f y j (-1) Hf Hy Hj).
      unfold rho. eapply D_val;
        [apply D_minus; [apply D_const | apply D_id] | ring].
    + rewrite Hres.
      set (pr := _proj (anchor data) (map2 rho f y)).
      assert (Hpr : length pr = n).
      { apply (proj_length n _ Hproj). now apply length_map2_same. }
      rewrite nth_map0 by (rewrite (length_vsub _ _ n); auto;
                           now rewrite length_vscale).
      rewrite nth_vsub, nth_vscale by (rewrite ?length_vscale; lia).
      fold g. unfold Rdiv. ring.
Qed.

End ScalarVariants2.

(** ** Two-dimensional arrays *)

Section Matrices.

Lemma nth_map_d {A B : Type} (F : A -> B) (l : list A) c d d' :
  (c < length l)%nat -> nth c (map F l) d' = F (nth c l d).
Proof.
  intros Hc. rewrite (nth_indep _ d' (F d)) by (now rewrite length_map).
  apply map_nth.
Qed.

Lemma bigsum_S_l n g : bigsum (S n) g = g O + bigsum n (fun i => g (S i)).
Proof.
  induction n as [|n IH].
  - rewrite bigsum_S, !bigsum_0. ring.
  - rewrite bigsum_S, IH, bigsum_S. ring.
Qed.

Lemma length_sum_axis1 (m : mat) n :
  m <> [] -> (forall c, In c m -> length c = n) -> length (sum_axis1 m) = n.
Proof.
  induction m as [|c cs IH]; intros Hne Hl; [contradiction|].
  simpl. destruct cs as [|c' cs'].
  - apply Hl; simpl; auto.
  - apply length_vadd; [apply Hl; simpl; auto|].
    apply IH; [discriminate|]. intros; apply Hl; simpl; auto.
Qed.

Lemma nth_sum_axis1 (m : mat) n j :
  (forall c, In c m -> length c = n) -> (j < n)%nat ->
  nth j (sum_axis1 m) 0 = bigsum (length m) (fun c => nth j (nth c m []) 0).
Proof.
  intros Hl Hj. induction m as [|c cs IH].
  - simpl. rewrite bigsum_0. now destruct j.
  - cbn [length]. rewrite bigsum_S_l. cbn [nth].
    rewrite <- IH by (intros; apply Hl; simpl; auto).
    simpl. destruct cs as [|c' cs'].
    + simpl. destruct j; ring.
    + rewrite nth_vadd; [reflexivity | rewrite (Hl c); simpl; auto |].
      rewrite (length_sum_axis1 _ n); [assumption | discriminate |].
      intros; apply Hl; simpl; auto.
Qed.

Lemma vsum_sum_axis1 (m : mat) n :
  (forall c, In c m -> length c = n) ->
  vsum (sum_axis1 m) = bigsum (length m) (fun c => vsum (nth c m [])).
Proof.
  intros Hl. induction m as [|c cs IH].
  - reflexivity.
  - cbn [length]. rewrite bigsum_S_l. cbn [nth].
    rewrite <- IH by (intros; apply Hl; simpl; auto).
    simpl. destruct cs as [|c' cs'].
    + simpl. ring.
    + rewrite (vsum_vadd _ _ n); [reflexivity | apply Hl; simpl; auto |].
      apply length_sum_axis1; [discriminate|].
      intros; apply Hl; simpl; auto.
Qed.

Lemma Forall_nth_len (m : mat) n :
  (forall c, (c < length m)%nat -> length (nth c m []) = n) ->
  forall col, In col m -> length col = n.
Proof.
  intros H col Hin. destruct (In_nth _ _ [] Hin) as (c & Hc & <-).
  now apply H.
Qed.

End Matrices.

(** ** The HSIC variant: gradient of the total loss *)

Section HSICVariant.

Context {am : AnchorMixin} {rs : RandomState}.
Local Abbreviation D := derivable_pt_lim.

Variables (n : nat) (data : Dataset R) (coef : R).
Hypothesis Hproj : ols_projection am n (anchor data).
Hypothesis Hy : length (get_label data) = n.
Hypothesis Hrng : numpy_rng rs.

Import AnchorHSICRegressionObjective.

Lemma draws_length seed m :
  length (fst (draws seed m)) = m /\ length (snd (draws seed m)) = m.
Proof.
  unfold draws.
  pose proof (Hrng (seeded seed) m) as (Hn & _ & _).
  destruct (normal (seeded seed) m) as [w g] eqn:E. simpl in Hn.
  pose proof (Hrng g m) as (_ & Hu & _).
  destruct (uniform g m) as [u g'] eqn:E'. simpl in *.
  now rewrite length_map.
Qed.

(** the feature and derivative columns written out from the draws *)
Lemma fourier_residuals_draws self f :
  (0 < n_components self)%nat ->
  fst (_fourier_residuals self f data)
  = let w := fst (draws (random_fourier_features_seed self) (n_components self)) in
    let o := snd (draws (random_fourier_features_seed self) (n_components self)) in
    let s := sqrt (2 / INR (n_components self)) in
    Some (map2 (fun wc oc =>
                  map2 (fun fi yi => cos ((yi - fi) * wc + oc) * s)
                       f (get_label data)) w o,
          map2 (fun wc oc =>
                  map2 (fun fi yi => - sin ((yi - fi) * wc + oc) * wc * s)
                       f (get_label data)) w o).
Proof.
  intros Hm. unfold _fourier_residuals, draws, residuals.
  destruct (normal _ _) as [w g].
  destruct (uniform g _) as [u g'].
  destruct (n_components self) as [|m'] eqn:Em; [lia|].
  cbn [fst snd]. f_equal. f_equal.
  - rewrite map_map2. apply map2_ext_in; intros wc oc _ _.
    unfold vsub. rewrite map_map, map_map2, map2_swap. reflexivity.
  - generalize (map (fun x => x * 2 * PI) u) as o.
    induction w as [|wc w IH]; intros [|oc o]; simpl; auto.
    f_equal; [|apply IH].
    unfold vsub. rewrite map_map, map_map2, map2_swap. reflexivity.
Qed.

Lemma hsic_grad_correct self f j :
  (gamma self <> 1 -> (0 < n_components self)%nat) ->
  length f = n -> (j < n)%nat ->
  exists g,
    grad coef self f data = Some g /\ length g = n /\
    D (fun t => total (loss coef self (upd f j t) data)) (nth j f 0) (nth j g 0).
Proof.
  intros Hm Hf Hj.
  set (y := get_label data) in *.
  pose proof (regression_base_correct n data Hy coef f j Hf Hj) as Hbase.
  assert (Hgl : length (RegressionMixin.grad coef f data) = n).
  { unfold RegressionMixin.grad. now apply length_map2_same. }
  unfold grad, loss.
  destruct (Req_dec_T (gamma self) 1) as [Hg|Hg].
  { eexists; split; [reflexivity|]. split; [assumption|exact Hbase]. }
  specialize (Hm Hg).
  set (m := n_components self) in *.
  set (w := fst (draws (random_fourier_features_seed self) m)).
  set (o := snd (draws (random_fourier_features_seed self) m)).
  set (s := sqrt (2 / INR m)).
  destruct (draws_length (random_fourier_features_seed self) m) as [Hw Ho].
  fold w in Hw. fold o in Ho.
  set (rho := fun c (fi yi : R) => cos ((yi - fi) * nth c w 0 + nth c o 0) * s).
  set (rho' := fun c (fi yi : R) =>
                 - sin ((yi - fi) * nth c w 0 + nth c o 0) * nth c w 0 * s).
  set (FR := fun h => map2 (fun wc oc =>
                  map2 (fun fi yi => cos ((yi - fi) * wc + oc) * s) h y) w o).
  set (FD := fun h => map2 (fun wc oc =>
                  map2 (fun fi yi => - sin ((yi - fi) * wc + oc) * wc * s) h y)
                  w o).
  assert (HFRl : forall h, length (FR h) = m).
  { intros h. unfold FR; cbv beta. now apply length_map2_same. }
  assert (HFRc : forall h c, (c < m)%nat -> nth c (FR h) [] = map2 (rho c) h y).
  { intros h c Hc. unfold FR; cbv beta. now rewrite (nth_map2 _ _ _ _ 0 0) by lia. }
  assert (HFDl : length (FD f) = m) by (unfold FD; cbv beta; now apply length_map2_same).
  assert (HFDc : forall c, (c < m)%nat -> nth c (FD f) [] = map2 (rho' c) f y).
  { intros c Hc. unfold FD; cbv beta. now rewrite (nth_map2 _ _ _ _ 0 0) by lia. }
  assert (Hfour : forall h,
             fst (_fourier_residuals self h data) = Some (FR h, FD h)).
  { intros h. rewrite fourier_residuals_draws by assumption. reflexivity. }
  (* the projected feature columns *)
  set (PR := fun h => _proj2 (anchor data) (FR h)).
  assert (HPRl : forall h, length (PR h) = m).
  { intros h. unfold PR; cbv beta; unfold _proj2. now rewrite length_map. }
  assert (HPRc : forall h c, (c < m)%nat ->
             nth c (PR h) [] = _proj (anchor data) (map2 (rho c) h y)).
  { intros h c Hc. unfold PR; cbv beta; unfold _proj2.
    rewrite (nth_map_d (_proj (anchor data)) (FR h) c [] [])
      by (now rewrite HFRl).
    now rewrite HFRc. }
  assert (HPRn : forall h c, length h = n -> (c < m)%nat ->
             length (nth c (PR h) []) = n).
  { intros h c Hh Hc. rewrite HPRc by assumption.
    apply (proj_length n _ Hproj). now apply length_map2_same. }
  set (SQ := fun h => map (map (fun x => x ^ 2)) (PR h)).
  assert (HSQl : forall h, length (SQ h) = m).
  { intros h. unfold SQ; cbv beta. now rewrite length_map. }
  assert (HSQn : forall h, length h = n ->
             forall c, In c (SQ h) -> length c = n).
  { intros h Hh. apply Forall_nth_len. intros c Hc. rewrite HSQl in Hc.
    unfold SQ; cbv beta. rewrite (nth_map_d _ _ _ []) by (now rewrite HPRl).
    rewrite length_map. now apply HPRn. }
  assert (Hne : forall (M : mat), length M = m -> M <> []).
  { intros M HM E. rewrite E in HM. simpl in HM. lia. }
  set (DV := map2 vmul (PR f) (FD f)).
  assert (HDVl : length DV = m) by (unfold DV; apply length_map2_same; auto).
  assert (HDVc : forall c, (c < m)%nat ->
             nth c DV [] = vmul (nth c (PR f) []) (nth c (FD f) [])).
  { intros c Hc. unfold DV. apply (nth_map2 _ _ _ _ [] []); rewrite ?HPRl, ?HFDl; lia. }
  assert (HDVn : forall c, In c DV -> length c = n).
  { apply Forall_nth_len. intros c Hc. rewrite HDVl in Hc.
    rewrite HDVc by assumption. apply length_vmul; [now apply HPRn|].
    rewrite HFDc by assumption. now apply length_map2_same. }
  rewrite Hfour. fold (PR f). fold DV.
  assert (Hsl : length (sum_axis1 DV) = n)
    by (apply length_sum_axis1; auto).
  eexists; split; [reflexivity|]. split.
  { rewrite length_map. apply length_vsub; auto. now rewrite length_vscale. }
  apply (D_ext (fun t =>
           (vsum (RegressionMixin.loss coef (upd f j t) data)
            + (gamma self - 1)
              * bigsum m (fun c => vsum (map (fun x => x ^ 2)
                   (_proj (anchor data) (map2 (rho c) (upd f j t) y)))))
           / Rmax (gamma self) 1)).
  - intros t. rewrite Hfour. fold (PR (upd f j t)). fold (SQ (upd f j t)).
    assert (Hu : length (upd f j t) = n) by now rewrite length_upd.
    cbn [total]. rewrite vsum_map_div, (vsum_vadd _ _ n).
    + rewrite vsum_vscale.
      rewrite (vsum_sum_axis1 _ n) by (apply HSQn; exact Hu).
      rewrite HSQl.
      do 3 f_equal. apply bigsum_ext; intros c Hc. unfold SQ; cbv beta.
      rewrite (nth_map_d _ _ _ []) by (now rewrite HPRl).
      now rewrite HPRc.
    + unfold RegressionMixin.loss. now apply length_map2_same.
    + rewrite length_vscale. apply length_sum_axis1; auto.
      apply HSQn; exact Hu.
  - eapply D_val.
    + apply D_divc. apply D_plus; [exact Hbase|]. apply D_scal.
      apply (D_bigsum m _
               (fun c => 2 * (- nth j (nth c (FD f) []) 0)
                         * nth j (nth c (PR f) []) 0)).
      intros c Hc. rewrite HPRc, HFDc by assumption.
      eapply D_val.
      * eapply (D_pen_map2 n data Hproj (rho c) f y j); auto.
        unfold rho.
        apply (D_mult (fun t => cos ((nth j y 0 - t) * nth c w 0 + nth c o 0))
                      (fun _ => s)); [|apply D_const].
        apply D_cos. apply D_plus; [|apply D_const].
        apply (D_mult (fun t => nth j y 0 - t) (fun _ => nth c w 0));
          [|apply D_const].
        apply D_minus; [apply D_const | apply D_id].
      * rewrite (nth_map2 _ _ _ _ 0 0) by lia. unfold rho'. ring.
    + rewrite nth_map0
        by (rewrite (length_vsub _ _ n); auto; now rewrite length_vscale).
      rewrite nth_vsub, nth_vscale by (rewrite ?length_vscale; lia).
      rewrite (nth_sum_axis1 _ n), HDVl by auto.
      rewrite (bigsum_ext m (fun c => nth j (nth c DV []) 0)
                 (fun c => nth j (nth c (PR f) []) 0
                           * nth j (nth c (FD f) []) 0)).
      * rewrite (bigsum_ext m _
                   (fun c => -2 * (nth j (nth c (PR f) []) 0
                                   * nth j (nth c (FD f) []) 0)))
          by (intros; ring).
        rewrite bigsum_scal. unfold Rdiv. ring.
      * intros c Hc. rewrite HDVc by assumption.
        apply nth_vmul; [rewrite HPRn; auto|].
        rewrite HFDc by assumption.
        rewrite (length_map2_same _ _ _ n); auto.
Qed.

End HSICVariant.

(** ** Column-major reshaping *)

Section Reshape.

Lemma length_chunks n k a : length (chunks n k a) = k.
Proof. revert a; induction k as [|k IH]; intros a; simpl; auto. Qed.

Lemma nth_chunks n k a c :
  (c < k)%nat -> nth c (chunks n k a) [] = firstn n (skipn (c * n) a).
Proof.
  revert a c; induction k as [|k IH]; intros a [|c] Hc; simpl; try lia; auto.
  rewrite IH by lia. now rewrite skipn_skipn, Nat.add_comm.
Qed.

Lemma chunks_shaped n k a :
  length a = (n * k)%nat -> well_shaped (chunks n k a) n k.
Proof.
  intros Ha. split; [apply length_chunks|].
  intros c Hc. rewrite nth_chunks by assumption.
  rewrite length_firstn, length_skipn, Ha. nia.
Qed.

Lemma entry_chunks n k a i c :
  (i < n)%nat -> (c < k)%nat -> entry (chunks n k a) i c = score_of n a i c.
Proof.
  intros Hi Hc. unfold entry, score_of. rewrite nth_chunks by assumption.
  rewrite nth_firstn. destruct (Nat.ltb_spec i n); [|lia].
  now rewrite nth_skipn.
Qed.

Lemma reshape_F_ok n k a :
  (0 < k)%nat -> length a = (n * k)%nat ->
  reshape_F k a = Some (chunks n k a).
Proof.
  intros Hk Ha. unfold reshape_F. destruct k as [|k']; [lia|].
  rewrite Ha, Nat.Div0.mod_mul, Nat.div_mul by lia. reflexivity.
Qed.

Lemma mat_ext2 (a b : mat) n k :
  well_shaped a n k -> well_shaped b n k ->
  (forall i c, (i < n)%nat -> (c < k)%nat -> entry a i c = entry b i c) ->
  a = b.
Proof.
  intros [Ha Hac] [Hb Hbc] H. apply (mat_ext _ _ k); auto.
  intros c Hc. apply (vec_ext _ _ n); auto.
  intros i Hi. now apply H.
Qed.

Lemma length_concat_shaped (m : mat) n k :
  well_shaped m n k -> length (concat m) = (n * k)%nat.
Proof.
  revert k; induction m as [|col m IH]; intros k [Hl Hc]; simpl in *.
  - subst k. lia.
  - destruct k as [|k]; [discriminate|].
    rewrite length_app, (IH k).
    + specialize (Hc O ltac:(lia)). simpl in Hc. lia.
    + split; [lia|]. intros c Hlt. apply (Hc (S c)). lia.
Qed.

Lemma nth_concat_shaped (m : mat) n k i c :
  well_shaped m n k -> (i < n)%nat -> (c < k)%nat ->
  nth (c * n + i) (concat m) 0 = entry m i c.
Proof.
  revert k c; induction m as [|col m IH]; intros k c [Hl Hc] Hi Hlt;
    simpl in *; [lia|].
  destruct k as [|k]; [discriminate|].
  pose proof (Hc O ltac:(lia)) as H0. simpl in H0.
  destruct c as [|c].
  - simpl. rewrite app_nth1 by lia. reflexivity.
  - rewrite app_nth2 by nia.
    replace (S c * n + i - length col)%nat with (c * n + i)%nat by nia.
    rewrite (IH k); [reflexivity | | assumption | lia].
    split; [lia|]. intros c' Hc'. apply (Hc (S c')). lia.
Qed.

Lemma chunks_concat (m : mat) n k :
  well_shaped m n k -> chunks n k (concat m) = m.
Proof.
  intros Hm. apply (mat_ext2 _ _ n k); auto.
  - apply chunks_shaped. now apply length_concat_shaped.
  - intros i c Hi Hc. rewrite entry_chunks by assumption.
    unfold score_of. now apply (nth_concat_shaped m n k).
Qed.

Lemma reshape_flatten (m : mat) n k :
  (0 < k)%nat -> well_shaped m n k -> reshape_F k (flatten_F m) = Some m.
Proof.
  intros Hk Hm. unfold flatten_F.
  rewrite (reshape_F_ok n) by (auto using length_concat_shaped).
  now rewrite chunks_concat.
Qed.

Lemma score_of_upd n k f j c i c' t :
  length f = (n * k)%nat -> (j < n)%nat -> (c < k)%nat ->
  (i < n)%nat -> (c' < k)%nat ->
  score_of n (upd f (c * n + j) t) i c'
  = if (Nat.eqb i j && Nat.eqb c' c)%bool then t else score_of n f i c'.
Proof.
  intros Hf Hj Hc Hi Hc'. unfold score_of.
  rewrite nth_upd by nia.
  destruct (Nat.eqb_spec i j) as [->|Hne]; destruct (Nat.eqb_spec c' c) as [->|Hnc];
    simpl.
  - now rewrite Nat.eqb_refl.
  - destruct (Nat.eqb_spec (c' * n + j) (c * n + j)); [nia|reflexivity].
  - destruct (Nat.eqb_spec (c * n + i) (c * n + j)); [nia|reflexivity].
  - destruct (Nat.eqb_spec (c' * n + i) (c * n + j)) as [E|]; [|reflexivity].
    exfalso. assert (c' = c); [|contradiction].
    destruct (Nat.lt_trichotomy c' c) as [?|[?|?]]; [nia | assumption | nia].
Qed.

End Reshape.

(** ** The softmax predictions, entry by entry *)

Section Softmax.

Lemma length_max_axis1 (m : mat) n :
  m <> [] -> (forall c, In c m -> length c = n) -> length (max_axis1 m) = n.
Proof.
  induction m as [|c cs IH]; intros Hne Hl; [contradiction|].
  simpl. destruct cs as [|c' cs'].
  - apply Hl; simpl; auto.
  - apply length_map2_same; [apply Hl; simpl; auto|].
    apply IH; [discriminate|]. intros; apply Hl; simpl; auto.
Qed.

Lemma shaped_In (m : mat) n k :
  well_shaped m n k -> forall col, In col m -> length col = n.
Proof.
  intros [Hl Hc]. apply Forall_nth_len. intros c Hlt. apply Hc. lia.
Qed.

Lemma shaped_ne (m : mat) n k : (0 < k)%nat -> well_shaped m n k -> m <> [].
Proof. intros Hk [Hl _] E. subst m. simpl in Hl. lia. Qed.

Lemma shaped_map (G : vec -> vec) (m : mat) n k :
  well_shaped m n k -> (forall v, length v = n -> length (G v) = n) ->
  well_shaped (map G m) n k.
Proof.
  intros [Hl Hc] HG. split; [now rewrite length_map|].
  intros c Hlt. rewrite (nth_map_d G m c [] []) by lia. apply HG, Hc, Hlt.
Qed.

Lemma entry_map (G : vec -> vec) (m : mat) i c :
  (c < length m)%nat -> entry (map G m) i c = nth i (G (nth c m [])) 0.
Proof. intros Hc. unfold entry. now rewrite (nth_map_d G m c [] []). Qed.

Lemma shaped_map2 (G : vec -> vec -> vec) (a b : mat) n k :
  well_shaped a n k -> well_shaped b n k ->
  (forall u v, length u = n -> length v = n -> length (G u v) = n) ->
  well_shaped (map2 G a b) n k.
Proof.
  intros [Hla Hca] [Hlb Hcb] HG. split; [now apply length_map2_same|].
  intros c Hlt. rewrite (nth_map2 G a b c [] [] []) by lia.
  apply HG; auto.
Qed.

Lemma entry_map2 (G : vec -> vec -> vec) (a b : mat) i c :
  (c < length a)%nat -> (c < length b)%nat ->
  entry (map2 G a b) i c = nth i (G (nth c a []) (nth c b [])) 0.
Proof.
  intros Ha Hb. unfold entry. now rewrite (nth_map2 G a b c [] [] []).
Qed.

Lemma entry_sum_axis1 (m : mat) n k i :
  well_shaped m n k -> (i < n)%nat ->
  nth i (sum_axis1 m) 0 = bigsum k (entry m i).
Proof.
  intros Hm Hi. rewrite (nth_sum_axis1 m n) by (eauto using shaped_In).
  destruct Hm as [-> _]. reflexivity.
Qed.

Lemma bigsum_exp_pos k z : (0 < k)%nat -> 0 < bigsum k (fun c => exp (z c)).
Proof.
  intros Hk. destruct k as [|k]; [lia|]. clear Hk.
  induction k as [|k IH].
  - rewrite bigsum_S, bigsum_0. pose proof (exp_pos (z O)). lra.
  - rewrite bigsum_S. pose proof (exp_pos (z (S k))). lra.
Qed.

Lemma softmax_shift k z m c :
  (0 < k)%nat ->
  exp (z c - m) / bigsum k (fun c' => exp (z c' - m)) = softmax k z c.
Proof.
  intros Hk. unfold softmax.
  pose proof (bigsum_exp_pos k z Hk) as Hp.
  pose proof (exp_pos (- m)) as Hm.
  rewrite (bigsum_ext k (fun c' => exp (z c' - m))
             (fun c' => exp (- m) * exp (z c'))).
  - rewrite bigsum_scal.
    replace (z c - m) with (- m + z c) by ring. rewrite exp_plus.
    field. split; lra.
  - intros c' _. replace (z c' - m) with (- m + z c') by ring.
    apply exp_plus.
Qed.

Lemma predictions_spec n k f :
  (0 < k)%nat -> length f = (n * k)%nat ->
  exists pm,
    MultiClassificationMixin.predictions k f = Some pm /\
    well_shaped pm n k /\
    forall i c, (i < n)%nat -> (c < k)%nat ->
      entry pm i c = softmax k (score_of n f i) c.
Proof.
  intros Hk Hf. unfold MultiClassificationMixin.predictions.
  rewrite (reshape_F_ok n) by assumption.
  set (F := chunks n k f).
  pose proof (chunks_shaped n k f Hf) as HF. fold F in HF.
  set (mx := max_axis1 F).
  assert (Hmx : length mx = n).
  { apply length_max_axis1; eauto using shaped_ne, shaped_In. }
  set (Fs := sub_col F mx).
  assert (HFs : well_shaped Fs n k).
  { apply shaped_map; auto. intros v Hv. now apply length_vsub. }
  set (E := map (map exp) Fs).
  assert (HE : well_shaped E n k).
  { apply shaped_map; auto. intros v Hv. now rewrite length_map. }
  assert (HEe : forall i c, (i < n)%nat -> (c < k)%nat ->
             entry E i c = exp (score_of n f i c - nth i mx 0)).
  { intros i c Hi Hc. destruct HF as [HFl HFc]. destruct HFs as [HFsl HFsc].
    unfold E. rewrite entry_map by lia.
    rewrite nth_map0 by (rewrite HFsc; auto). f_equal.
    change (nth i (nth c Fs []) 0) with (entry Fs i c).
    unfold Fs, sub_col. rewrite entry_map by lia.
    rewrite nth_vsub by (rewrite ?HFc; auto; lia).
    change (nth i (nth c F []) 0) with (entry F i c).
    unfold F. now rewrite entry_chunks. }
  set (S := sum_axis1 E).
  assert (HS : length S = n).
  { apply length_sum_axis1; eauto using shaped_ne, shaped_In. }
  eexists; split; [reflexivity|]. split.
  - apply shaped_map; auto. intros v Hv. now apply length_map2_same.
  - intros i c Hi Hc. destruct HE as [HEl HEc].
    unfold div_col. rewrite entry_map by lia.
    unfold vdiv. rewrite (nth_map2 _ _ _ _ 0 0) by (rewrite ?HEc; auto; lia).
    change (nth i (nth c E []) 0) with (entry E i c).
    unfold S. rewrite (entry_sum_axis1 E n k) by (auto; split; auto).
    rewrite HEe by assumption.
    rewrite (bigsum_ext k (entry E i)
               (fun c' => exp (score_of n f i c' - nth i mx 0)))
      by (intros; now apply HEe).
    now apply softmax_shift.
Qed.

End Softmax.

(** ** Integer-array indexing with the labels *)

Section Indexing.

Lemma index_in_range len i :
  (0 <= i < Z.of_nat len)%Z -> index len i = Some (Z.to_nat i).
Proof.
  intros H. unfold index.
  destruct (Z.leb_spec 0 i); [|lia]. destruct (Z.ltb_spec i (Z.of_nat len)); [|lia].
  reflexivity.
Qed.

Lemma resolve_seq nr nc s (y : list Z) :
  (s + length y <= nr)%nat -> class_labels nc y ->
  resolve nr nc (map Z.of_nat (seq s (length y))) y
  = Some (combine (seq s (length y)) (map Z.to_nat y)).
Proof.
  revert s; induction y as [|v y IH]; intros s Hs Hc; simpl; [reflexivity|].
  simpl in Hs.
  rewrite index_in_range by lia.
  rewrite index_in_range by (apply Hc; simpl; auto).
  rewrite IH; [| lia | intros w Hw; apply Hc; simpl; auto].
  now rewrite Nat2Z.id.
Qed.

Lemma nrows_shaped (m : mat) n k :
  (0 < k)%nat -> well_shaped m n k -> nrows m = n.
Proof.
  intros Hk [Hl Hc]. specialize (Hc O Hk).
  destruct m as [|col m]; [simpl in Hl; lia|]. exact Hc.
Qed.

Lemma shaped_upd_col (m : mat) n k c r t :
  well_shaped m n k -> well_shaped (upd_col m c r t) n k.
Proof.
  revert k c; induction m as [|col m IH]; intros k c [Hl Hc]; simpl.
  - destruct c; split; auto.
  - destruct k as [|k]; [discriminate|]. simpl in Hl.
    assert (Hm : well_shaped m n k).
    { split; [lia|]. intros c' Hc'. apply (Hc (S c')). lia. }
    destruct c as [|c].
    + split; [simpl; lia|]. intros [|c'] Hc'; simpl.
      * rewrite length_upd. apply (Hc O). lia.
      * apply (Hc (S c')). lia.
    + destruct (IH k c Hm) as [Hl' Hc'].
      split; [simpl; lia|]. intros [|c''] Hlt; simpl.
      * apply (Hc O). lia.
      * apply Hc'. lia.
Qed.

Lemma entry_upd_col (m : mat) n k c r t i c' :
  well_shaped m n k -> (r < n)%nat -> (c < k)%nat ->
  entry (upd_col m c r t) i c'
  = if (Nat.eqb i r && Nat.eqb c' c)%bool then t else entry m i c'.
Proof.
  revert k c c'; induction m as [|col m IH]; intros k c c' [Hl Hc] Hr Hlt.
  - simpl in Hl. lia.
  - destruct k as [|k]; [discriminate|]. simpl in Hl.
    assert (Hm : well_shaped m n k).
    { split; [lia|]. intros c0 Hc0. apply (Hc (S c0)). lia. }
    assert (Hcol : length col = n) by (apply (Hc O); lia).
    destruct c as [|c]; destruct c' as [|c']; unfold entry; simpl.
    + rewrite nth_upd by lia.
      destruct (Nat.eqb i r); reflexivity.
    + rewrite andb_false_r. reflexivity.
    + rewrite andb_false_r. reflexivity.
    + apply (IH k c c' Hm Hr). lia.
Qed.

(** writing one value per row, rows [s .. s+l-1] *)
Lemma fold_mset_entries l : forall s (cols : list nat) (vals : vec) (m : mat) n k,
  well_shaped m n k -> (s + l <= n)%nat ->
  length cols = l -> length vals = l ->
  (forall c, In c cols -> (c < k)%nat) ->
  let m' := fold_left (fun acc p => mset acc (fst p) (snd p))
                      (combine (combine (seq s l) cols) vals) m in
  well_shaped m' n k /\
  forall i c, (i < n)%nat -> (c < k)%nat ->
    entry m' i c
    = if ((s <=? i)%nat && (i <? s + l)%nat
          && Nat.eqb (nth (i - s) cols O) c)%bool
      then nth (i - s) vals 0 else entry m i c.
Proof.
  induction l as [|l IH]; intros s cols vals m n k Hm Hs Hcl Hvl Hck.
  - simpl. split; [assumption|]. intros i c Hi Hc.
    destruct (Nat.leb_spec s i); destruct (Nat.ltb_spec i (s + 0)); simpl;
      try reflexivity; lia.
  - destruct cols as [|c0 cols]; [discriminate|].
    destruct vals as [|v0 vals]; [discriminate|].
    simpl in Hcl, Hvl. cbn [seq combine fold_left fst snd].
    assert (Hc0 : (c0 < k)%nat) by (apply Hck; simpl; auto).
    set (m1 := mset m (s, c0) v0).
    assert (Hm1 : well_shaped m1 n k) by (apply shaped_upd_col; assumption).
    destruct (IH (S s) cols vals m1 n k Hm1) as [Hsh He];
      try lia; [intros; apply Hck; simpl; auto|].
    split; [exact Hsh|].
    intros i c Hi Hc. rewrite He by assumption.
    unfold m1, mset. cbn [fst snd].
    rewrite (entry_upd_col m n k) by (auto; lia).
    destruct (Nat.eq_dec i s) as [->|Hne].
    + rewrite Nat.eqb_refl, Nat.sub_diag. cbn [nth].
      destruct (Nat.leb_spec (S s) s); [lia|].
      destruct (Nat.leb_spec s s); [|lia].
      destruct (Nat.ltb_spec s (s + S l)); [|lia]. cbn [andb].
      rewrite (Nat.eqb_sym c c0). reflexivity.
    + destruct (Nat.eqb_spec i s); [contradiction|]. cbn [andb].
      destruct (Nat.leb_spec (S s) i); destruct (Nat.leb_spec s i);
        destruct (Nat.ltb_spec i (S s + l));
        destruct (Nat.ltb_spec i (s + S l)); cbn [andb];
        try lia; try reflexivity.
      replace (i - s)%nat with (S (i - S s)) by lia. reflexivity.
Qed.

Lemma nth_label_class k (y : list Z) i :
  class_labels k y -> (i < length y)%nat ->
  (Z.to_nat (nth i y 0%Z) < k)%nat.
Proof.
  intros Hc Hi. specialize (Hc (nth i y 0%Z) (nth_In _ _ Hi)). lia.
Qed.

Lemma take_spec (m : mat) n k (y : list Z) :
  (0 < k)%nat -> well_shaped m n k -> length y = n -> class_labels k y ->
  exists v,
    take m (MultiClassificationMixin._indices y) = Some v /\
    length v = n /\
    forall i, (i < n)%nat -> nth i v 0 = entry m i (Z.to_nat (nth i y 0%Z)).
Proof.
  intros Hk Hm Hy Hc. unfold take, MultiClassificationMixin._indices.
  cbn [fst snd]. rewrite (nrows_shaped m n k) by assumption.
  destruct Hm as [Hl Hcol]. rewrite Hl.
  rewrite resolve_seq by (auto; lia).
  eexists; split; [reflexivity|]. split.
  - rewrite length_map, length_combine, length_seq, length_map. lia.
  - intros i Hi.
    rewrite (nth_map_d _ _ _ (O, O))
      by (rewrite length_combine, length_seq, length_map; lia).
    rewrite combine_nth by (now rewrite length_seq, length_map).
    rewrite seq_nth by lia.
    rewrite (nth_map_d _ _ _ 0%Z) by lia. reflexivity.
Qed.

Lemma sub1_at_spec (m : mat) n k (y : list Z) :
  (0 < k)%nat -> well_shaped m n k -> length y = n -> class_labels k y ->
  exists m',
    sub1_at m (MultiClassificationMixin._indices y) = Some m' /\
    well_shaped m' n k /\
    forall i c, (i < n)%nat -> (c < k)%nat ->
      entry m' i c = entry m i c - onehot y i c.
Proof.
  intros Hk Hm Hy Hc. unfold sub1_at, MultiClassificationMixin._indices.
  cbn [fst snd]. rewrite (nrows_shaped m n k) by assumption.
  pose proof Hm as [Hl Hcol]. rewrite Hl.
  rewrite resolve_seq by (auto; lia). rewrite Hy.
  set (yn := map Z.to_nat y).
  set (vals := map (fun v => v - 1) (map (mget m) (combine (seq 0 n) yn))).
  assert (Hyn : length yn = n) by (unfold yn; now rewrite length_map).
  assert (Hvl : length vals = n).
  { unfold vals. rewrite !length_map, length_combine, length_seq. lia. }
  assert (Hynk : forall c, In c yn -> (c < k)%nat).
  { intros c Hin. unfold yn in Hin. apply in_map_iff in Hin.
    destruct Hin as (v & <- & Hv). specialize (Hc v Hv). lia. }
  destruct (fold_mset_entries n O yn vals m n k Hm) as [Hsh He];
    auto; try lia.
  eexists; split; [reflexivity|]. split; [exact Hsh|].
  intros i c Hi Hlt. rewrite He by assumption.
  destruct (Nat.leb_spec 0 i); [|lia].
  destruct (Nat.ltb_spec i (0 + n)); [|lia]. simpl.
  rewrite Nat.sub_0_r. unfold onehot.
  assert (Hni : nth i yn O = Z.to_nat (nth i y 0%Z)).
  { unfold yn. apply (nth_map_d _ _ _ 0%Z). lia. }
  rewrite Hni.
  destruct (Nat.eqb_spec (Z.to_nat (nth i y 0%Z)) c) as [E|E]; [|ring].
  unfold vals. rewrite map_map.
  rewrite (nth_map_d _ _ _ (O, O))
    by (rewrite length_combine, length_seq; lia).
  rewrite combine_nth by (now rewrite length_seq).
  rewrite seq_nth by lia. unfold mget. cbn [fst snd].
  rewrite Hni, E. unfold entry. simpl. ring.
Qed.

Lemma broadcast_same op a b n :
  length a = n -> length b = n -> broadcast op a b = Some (map2 op a b).
Proof.
  intros Ha Hb. unfold broadcast. rewrite Ha, Hb, Nat.eqb_refl. reflexivity.
Qed.

End Indexing.

(** ** The multi-class family, entry by entry *)

Section MultiFamily.

Variables (n k : nat) (data : Dataset Z).
Hypothesis Hk : (0 < k)%nat.
Hypothesis Hy : length (get_label data) = n.
Hypothesis Hlab : class_labels k (get_label data).

Local Abbreviation y := (get_label data).

Lemma multi_loss_spec f :
  length f = (n * k)%nat ->
  exists l,
    MultiClassificationMixin.loss k f data = Some l /\
    length l = n /\
    forall i, (i < n)%nat ->
      nth i l 0 = - score_of n f i (Z.to_nat (nth i y 0%Z))
                  + ln (bigsum k (fun c => exp (score_of n f i c))).
Proof.
  intros Hf. unfold MultiClassificationMixin.loss.
  rewrite (reshape_F_ok n) by assumption.
  set (F := chunks n k f).
  pose proof (chunks_shaped n k f Hf) as HF. fold F in HF.
  set (mx := max_axis1 F).
  assert (Hmx : length mx = n).
  { apply length_max_axis1; eauto using shaped_ne, shaped_In. }
  set (Fs := sub_col F mx).
  assert (HFs : well_shaped Fs n k).
  { apply shaped_map; auto. intros v Hv. now apply length_vsub. }
  assert (HFse : forall i c, (i < n)%nat -> (c < k)%nat ->
             entry Fs i c = score_of n f i c - nth i mx 0).
  { intros i c Hi Hc. destruct HF as [HFl HFc].
    unfold Fs, sub_col. rewrite entry_map by lia.
    rewrite nth_vsub by (rewrite ?HFc; auto; lia).
    change (nth i (nth c F []) 0) with (entry F i c).
    unfold F. now rewrite entry_chunks. }
  set (E := map (map exp) Fs).
  assert (HE : well_shaped E n k).
  { apply shaped_map; auto. intros v Hv. now rewrite length_map. }
  assert (HEe : forall i c, (i < n)%nat -> (c < k)%nat ->
             entry E i c = exp (score_of n f i c - nth i mx 0)).
  { intros i c Hi Hc. destruct HFs as [HFsl HFsc].
    unfold E. rewrite entry_map by lia.
    rewrite nth_map0 by (rewrite HFsc; auto). f_equal.
    now apply HFse. }
  destruct (take_spec Fs n k y Hk HFs Hy Hlab) as (v & -> & Hvl & Hv).
  assert (HS : length (sum_axis1 E) = n).
  { apply length_sum_axis1; eauto using shaped_ne, shaped_In. }
  rewrite (broadcast_same _ _ _ n);
    [| unfold vneg; now rewrite length_map | now rewrite length_map].
  eexists; split; [reflexivity|]. split.
  - apply length_map2_same; [unfold vneg|]; now rewrite length_map.
  - intros i Hi.
    rewrite (nth_map2 _ _ _ _ 0 0)
      by (unfold vneg; rewrite length_map; lia).
    unfold vneg. rewrite !nth_map0 by lia.
    rewrite Hv by assumption.
    rewrite HFse by (auto; now apply nth_label_class; rewrite ?Hy).
    rewrite (entry_sum_axis1 E n k) by assumption.
    rewrite (bigsum_ext k (entry E i)
               (fun c => exp (- nth i mx 0) * exp (score_of n f i c))).
    + rewrite bigsum_scal, ln_mult, ln_exp;
        [ring | apply exp_pos | now apply bigsum_exp_pos].
    + intros c Hc. rewrite HEe by assumption.
      replace (score_of n f i c - nth i mx 0)
        with (- nth i mx 0 + score_of n f i c) by ring.
      apply exp_plus.
Qed.

Lemma multi_grad_spec f :
  length f = (n * k)%nat ->
  exists g,
    MultiClassificationMixin.grad k f data = Some g /\
    length g = (n * k)%nat /\
    forall i c, (i < n)%nat -> (c < k)%nat ->
      nth (c * n + i) g 0 = softmax k (score_of n f i) c - onehot y i c.
Proof.
  intros Hf. unfold MultiClassificationMixin.grad.
  destruct (predictions_spec n k f Hk Hf) as (pm & -> & Hpm & Hpe).
  destruct (sub1_at_spec pm n k y Hk Hpm Hy Hlab) as (m' & -> & Hm' & He).
  eexists; split; [reflexivity|]. split.
  - now apply length_concat_shaped.
  - intros i c Hi Hc. unfold flatten_F.
    rewrite (nth_concat_shaped m' n k) by assumption.
    rewrite He, Hpe by assumption. reflexivity.
Qed.

End MultiFamily.

(** ** One row of scores: log-sum-exp and softmax along one class *)

Section RowDerivatives.

Local Abbreviation D := derivable_pt_lim.

Variables (k c0 : nat) (z0 : nat -> R).
Hypothesis Hc0 : (c0 < k)%nat.

Local Abbreviation zt := (with_score z0 c0).

Lemma softmax_ext z z' c :
  (forall c', (c' < k)%nat -> z c' = z' c') -> (c < k)%nat ->
  softmax k z c = softmax k z' c.
Proof.
  intros H Hc. unfold softmax. rewrite (H c Hc). f_equal.
  apply bigsum_ext. intros c' Hc'. now rewrite H.
Qed.

Lemma D_sumexp t0 :
  D (fun t => bigsum k (fun c => exp (zt t c))) t0 (exp t0).
Proof.
  eapply D_val.
  - apply (D_bigsum k (fun c t => exp (zt t c))
             (fun c => if Nat.eqb c c0 then exp t0 else 0)).
    intros c Hc. unfold with_score. destruct (Nat.eqb c c0).
    + apply (D_val _ _ _ _ (D_exp (fun t => t) t0 1 (D_id t0))). ring.
    + apply D_const.
  - now rewrite (bigsum_delta k c0 (fun _ => exp t0)).
Qed.

Lemma exp_zt_c0 t : exp (zt t c0) = exp t.
Proof. unfold with_score. now rewrite Nat.eqb_refl. Qed.

Lemma D_lse t0 :
  D (fun t => ln (bigsum k (fun c => exp (zt t c)))) t0 (softmax k (zt t0) c0).
Proof.
  assert (Hk : (0 < k)%nat) by lia.
  pose proof (bigsum_exp_pos k (zt t0) Hk) as Hp.
  eapply D_val.
  - apply (D_ln (fun t => bigsum k (fun c => exp (zt t c)))).
    + apply D_sumexp.
    + exact Hp.
  - unfold softmax. rewrite exp_zt_c0. field. lra.
Qed.

Lemma D_softmax c t0 :
  D (fun t => softmax k (zt t) c) t0
    (softmax k (zt t0) c
     * ((if Nat.eqb c c0 then 1 else 0) - softmax k (zt t0) c0)).
Proof.
  assert (Hk : (0 < k)%nat) by lia.
  pose proof (bigsum_exp_pos k (zt t0) Hk) as Hp.
  unfold softmax.
  eapply D_val.
  - apply (D_div (fun t => exp (zt t c))
                 (fun t => bigsum k (fun c' => exp (zt t c')))
                 t0 (if Nat.eqb c c0 then exp t0 else 0) (exp t0)).
    + unfold with_score. destruct (Nat.eqb c c0).
      * apply (D_val _ _ _ _ (D_exp (fun t => t) t0 1 (D_id t0))). ring.
      * apply D_const.
    + apply D_sumexp.
    + lra.
  - rewrite exp_zt_c0.
    destruct (Nat.eqb_spec c c0) as [->|Hne]; cbv iota;
      rewrite ?exp_zt_c0; field; lra.
Qed.

End RowDerivatives.

(** ** The multi-class Kook variant: gradient of the total loss *)

Section KookMulti.

Context {am : AnchorMixin}.
Local Abbreviation D := derivable_pt_lim.

Import AnchorKookMultiClassificationObjective.

Variables (n : nat) (data : Dataset Z) (self : Self).
Hypothesis Hk : (0 < n_classes self)%nat.
Hypothesis Hy : length (get_label data) = n.
Hypothesis Hlab : class_labels (n_classes self) (get_label data).
Hypothesis Hshape : shape_preserving am n (anchor data).

Local Abbreviation k := (n_classes self).
Local Abbreviation y := (get_label data).
Local Abbreviation cen := (centered (center_residuals self)).

Lemma length_cen v : length (cen v) = length v.
Proof.
  unfold centered. destruct (center_residuals self); auto using length_center.
Qed.

Lemma length_residual_col f c : length (residual_col n k y f c) = n.
Proof. unfold residual_col. now rewrite length_map, length_seq. Qed.

Lemma nth_residual_col f c i :
  (i < n)%nat ->
  nth i (residual_col n k y f c) 0 = class_prob n k f i c - onehot y i c.
Proof.
  intros Hi. unfold residual_col.
  rewrite (nth_map_d _ _ _ O) by (now rewrite length_seq).
  now rewrite seq_nth.
Qed.

Lemma kook_multi_residuals_spec f :
  length f = (n * k)%nat ->
  exists rm,
    residuals self f data = Some (flatten_F rm) /\
    well_shaped rm n k /\
    forall c, (c < k)%nat -> nth c rm [] = cen (residual_col n k y f c).
Proof.
  intros Hf. unfold residuals, predictions, _indices.
  destruct (predictions_spec n k f Hk Hf) as (pm & -> & Hpm & Hpe).
  destruct (sub1_at_spec pm n k y Hk Hpm Hy Hlab) as (m' & -> & Hm' & He).
  assert (Hcol : forall c, (c < k)%nat -> nth c m' [] = residual_col n k y f c).
  { intros c Hc. destruct Hm' as [Hl Hc'].
    apply (vec_ext _ _ n); auto using length_residual_col.
    intros i Hi. rewrite nth_residual_col by assumption.
    change (nth i (nth c m' []) 0) with (entry m' i c).
    rewrite He, Hpe by assumption. reflexivity. }
  unfold centered.
  destruct (center_residuals self).
  - exists (center_axis0 m'). split; [reflexivity|]. split.
    + apply shaped_map; auto. intros v Hv. now rewrite length_center.
    + intros c Hc. unfold center_axis0. destruct Hm' as [Hl _].
      rewrite (nth_map_d center m' c [] []) by lia. now rewrite Hcol.
  - exists m'. split; [reflexivity|]. split; auto.
Qed.

Local Abbreviation P := (_proj (anchor data)).

(** entry of the projected, re-centred residual that the gradient uses *)
Local Abbreviation Qe :=
  (fun f i c => nth i (cen (P (cen (residual_col n k y f c)))) 0).

Lemma length_cen_col f c : length (cen (residual_col n k y f c)) = n.
Proof. now rewrite length_cen, length_residual_col. Qed.

Lemma length_proj_col f c : length (P (cen (residual_col n k y f c))) = n.
Proof. apply Hshape, length_cen_col. Qed.

Lemma kook_multi_loss_shape f :
  length f = (n * k)%nat ->
  exists lb pen,
    MultiClassificationMixin.loss k f data = Some lb /\
    length lb = n /\ length pen = n /\
    loss self f data
    = Some (vadd lb (vscale (factor self * (gamma self - 1)) pen)) /\
    vsum pen
    = bigsum k (fun c => vsum (map (fun x => x ^ 2)
                                 (P (cen (residual_col n k y f c))))).
Proof.
  intros Hf. unfold loss.
  destruct (kook_multi_residuals_spec f Hf) as (rm & -> & Hrm & Hcol).
  rewrite (reshape_flatten rm n k) by assumption.
  destruct (multi_loss_spec n k data Hk Hy Hlab f Hf) as (l & El & Hl & Hle).
  rewrite El.
  set (sq := map (map (fun x => x ^ 2)) (_proj2 (anchor data) rm)).
  assert (Hsq : well_shaped sq n k).
  { unfold sq, _proj2. apply shaped_map.
    - apply shaped_map; [exact Hrm|]. intros v Hv. now apply Hshape.
    - intros v Hv. now rewrite length_map. }
  assert (Hsl : length (sum_axis1 sq) = n).
  { apply length_sum_axis1; eauto using shaped_ne, shaped_In. }
  exists l, (sum_axis1 sq). repeat split; auto.
  rewrite (vsum_sum_axis1 sq n) by (eauto using shaped_In).
  destruct Hsq as [Hsql _]. rewrite Hsql.
  apply bigsum_ext; intros c Hc. destruct Hrm as [Hrl _].
  unfold sq, _proj2.
  rewrite (nth_map_d (map (fun x => x ^ 2)) (map P rm) c [] [])
    by (rewrite length_map; lia).
  rewrite (nth_map_d P rm c [] []) by lia.
  now rewrite Hcol.
Qed.

Lemma kook_multi_loss_total f :
  length f = (n * k)%nat ->
  exists l,
    loss self f data = Some l /\ length l = n /\
    vsum l
    = bigsum n (fun i => - score_of n f i (Z.to_nat (nth i y 0%Z))
                         + ln (bigsum k (fun c => exp (score_of n f i c))))
      + factor self * (gamma self - 1)
        * bigsum k (fun c => vsum (map (fun x => x ^ 2)
                                     (P (cen (residual_col n k y f c))))).
Proof.
  intros Hf.
  destruct (kook_multi_loss_shape f Hf) as (lb & pen & Hb & Hlb & Hpl & -> & Hp).
  destruct (multi_loss_spec n k data Hk Hy Hlab f Hf) as (l & El & Hl & Hle).
  assert (l = lb) by congruence. subst l.
  eexists; split; [reflexivity|]. split.
  - apply length_vadd; auto. now rewrite length_vscale.
  - rewrite (vsum_vadd _ _ n) by (auto; now rewrite length_vscale).
    rewrite vsum_vscale, Hp. f_equal.
    rewrite vsum_bigsum, Hlb. now apply bigsum_ext.
Qed.

Lemma kook_multi_grad_spec f :
  length f = (n * k)%nat ->
  exists g gb,
    grad self f data = Some g /\ length g = (n * k)%nat /\
    MultiClassificationMixin.grad k f data = Some gb /\
    length gb = (n * k)%nat /\
    forall i c, (i < n)%nat -> (c < k)%nat ->
      nth (c * n + i) gb 0 = class_prob n k f i c - onehot y i c /\
      nth (c * n + i) g 0
      = nth (c * n + i) gb 0
        + 2 * factor self * (gamma self - 1) * class_prob n k f i c
          * (Qe f i c - bigsum k (fun c' => Qe f i c' * class_prob n k f i c')).
Proof.
  intros Hf. unfold grad.
  destruct (kook_multi_residuals_spec f Hf) as (rm & -> & Hrm & Hcol).
  rewrite (reshape_flatten rm n k) by assumption.
  unfold predictions.
  destruct (predictions_spec n k f Hk Hf) as (pm & -> & Hpm & Hpe).
  destruct (multi_grad_spec n k data Hk Hy Hlab f Hf) as (g & Eg & Hg & Hge).
  rewrite Eg.
  set (PR := _proj2 (anchor data) rm).
  assert (HPR : well_shaped PR n k).
  { unfold PR, _proj2. apply shaped_map; [exact Hrm|].
    intros v Hv. now apply Hshape. }
  set (Q := if center_residuals self then center_axis0 PR else PR).
  assert (HQ : well_shaped Q n k).
  { unfold Q. destruct (center_residuals self); auto.
    apply shaped_map; auto. intros v Hv. now rewrite length_center. }
  assert (HQe : forall i c, (i < n)%nat -> (c < k)%nat ->
             entry Q i c = Qe f i c).
  { intros i c Hi Hc. cbv beta. unfold Q, entry, centered.
    destruct Hrm as [Hrl _]. destruct HPR as [HPl _].
    destruct (center_residuals self).
    - unfold center_axis0.
      rewrite (nth_map_d center PR c [] []) by lia.
      unfold PR, _proj2. rewrite (nth_map_d P rm c [] []) by lia.
      rewrite Hcol by assumption. unfold centered. reflexivity.
    - unfold PR, _proj2. rewrite (nth_map_d P rm c [] []) by lia.
      rewrite Hcol by assumption. unfold centered. reflexivity. }
  set (QP := map2 vmul Q pm).
  assert (HQP : well_shaped QP n k).
  { apply shaped_map2; auto. intros u v Hu Hv. now apply length_vmul. }
  set (S := sum_axis1 QP).
  assert (HS : length S = n).
  { apply length_sum_axis1; eauto using shaped_ne, shaped_In. }
  set (Q' := sub_col Q S).
  assert (HQ' : well_shaped Q' n k).
  { apply shaped_map; auto. intros v Hv. now apply length_vsub. }
  set (AG := map2 vmul
               (map (vscale (2 * factor self * (gamma self - 1))) pm) Q').
  assert (HAG : well_shaped AG n k).
  { apply shaped_map2; auto.
    - apply shaped_map; auto. intros v Hv. now rewrite length_vscale.
    - intros u v Hu Hv. now apply length_vmul. }
  eexists; exists g; split; [reflexivity|]. split; [|split; [reflexivity|split]];
    auto.
  - apply length_vadd; auto. unfold flatten_F. now apply length_concat_shaped.
  - intros i c Hi Hc. split; [now apply Hge|].
    assert (Hq : (c * n + i < n * k)%nat) by nia.
    unfold flatten_F.
    rewrite nth_vadd
      by (rewrite ?(length_concat_shaped AG n k); auto; lia).
    rewrite (nth_concat_shaped AG n k) by assumption.
    f_equal.
    destruct Hpm as [Hpl Hpc]. destruct HQ as [HQl HQc].
    destruct HQ' as [HQ'l HQ'c]. destruct HQP as [HQPl HQPc].
    unfold AG. rewrite entry_map2 by (rewrite ?length_map; lia).
    rewrite (nth_map_d (vscale (2 * factor self * (gamma self - 1))) pm c [] []) by lia.
    rewrite nth_vmul by (rewrite ?length_vscale, ?Hpc, ?HQ'c; auto).
    rewrite nth_vscale by (rewrite Hpc; auto).
    change (nth i (nth c pm []) 0) with (entry pm i c).
    change (nth i (nth c Q' []) 0) with (entry Q' i c).
    rewrite Hpe by assumption.
    unfold Q', sub_col. rewrite entry_map by lia.
    rewrite nth_vsub by (rewrite ?HQc; auto; lia).
    change (nth i (nth c Q []) 0) with (entry Q i c).
    rewrite HQe by assumption.
    unfold S. rewrite (entry_sum_axis1 QP n k) by (auto; split; auto).
    rewrite (bigsum_ext k (entry QP i)
               (fun c' => Qe f i c' * class_prob n k f i c')).
    + unfold class_prob. ring.
    + intros c' Hc'. unfold QP. rewrite entry_map2 by lia.
      rewrite nth_vmul by (rewrite ?HQc, ?Hpc; auto).
      change (nth i (nth c' pm []) 0) with (entry pm i c').
      change (nth i (nth c' Q []) 0) with (entry Q i c').
      rewrite HQe, Hpe by assumption. reflexivity.
Qed.

(** moving the score of example [j], class [c0] *)
Section Moving.

Variables (f : vec) (j c0 : nat).
Hypothesis Hf : length f = (n * k)%nat.
Hypothesis Hj : (j < n)%nat.
Hypothesis Hc0 : (c0 < k)%nat.
Hypothesis Hproj : ols_projection am n (anchor data).

Local Abbreviation q := (c0 * n + j)%nat.
Local Abbreviation z0 := (score_of n f j).

Lemma length_ft t : length (upd f q t) = (n * k)%nat.
Proof. now rewrite length_upd. Qed.

Lemma class_prob_moved t i c :
  (i < n)%nat -> (c < k)%nat ->
  class_prob n k (upd f q t) i c
  = if Nat.eqb i j then softmax k (with_score z0 c0 t) c
    else class_prob n k f i c.
Proof.
  intros Hi Hc. unfold class_prob.
  destruct (Nat.eqb_spec i j) as [->|Hne].
  - apply softmax_ext; auto. intros c' Hc'.
    rewrite (score_of_upd n k) by assumption.
    rewrite Nat.eqb_refl. unfold with_score. reflexivity.
  - apply softmax_ext; auto. intros c' Hc'.
    rewrite (score_of_upd n k) by assumption.
    destruct (Nat.eqb_spec i j); [contradiction|]. reflexivity.
Qed.

Lemma with_score_same c :
  (c < k)%nat -> with_score z0 c0 (nth q f 0) c = z0 c.
Proof.
  intros Hc. unfold with_score.
  destruct (Nat.eqb_spec c c0) as [->|]; reflexivity.
Qed.

Lemma softmax_same c :
  (c < k)%nat ->
  softmax k (with_score z0 c0 (nth q f 0)) c = class_prob n k f j c.
Proof.
  intros Hc. unfold class_prob. apply softmax_ext; auto.
  intros c' Hc'. now apply with_score_same.
Qed.

Lemma residual_col_moved t c :
  (c < k)%nat ->
  cen (residual_col n k y (upd f q t) c)
  = vadd (cen (residual_col n k y f c))
         (vscale (softmax k (with_score z0 c0 t) c - class_prob n k f j c)
                 (cen (basis n j))).
Proof.
  intros Hc.
  assert (E : residual_col n k y (upd f q t) c
              = vadd (residual_col n k y f c)
                  (vscale (softmax k (with_score z0 c0 t) c
                           - class_prob n k f j c) (basis n j))).
  { apply (vec_ext _ _ n).
    - apply length_residual_col.
    - apply length_vadd; [apply length_residual_col|].
      now rewrite length_vscale, length_basis.
    - intros i Hi.
      rewrite nth_vadd, nth_vscale, !nth_residual_col, nth_basis;
        rewrite ?length_vscale, ?length_basis, ?length_residual_col;
        auto.
      rewrite class_prob_moved by assumption.
      destruct (Nat.eqb_spec i j) as [->|]; ring. }
  rewrite E. unfold centered. destruct (center_residuals self); [|reflexivity].
  apply (center_line _ _ _ n); auto using length_residual_col, length_basis.
Qed.

Lemma dot_cen_basis u :
  length u = n -> dot u (cen (basis n j)) = nth j (cen u) 0.
Proof.
  intros Hu. unfold centered. destruct (center_residuals self).
  - rewrite (dot_center_basis _ n) by assumption.
    now rewrite nth_center by lia.
  - now apply dot_basis.
Qed.


Lemma kook_multi_grad_at :
  exists g,
    grad self f data = Some g /\ length g = (n * k)%nat /\
    D (fun t => total (loss self (upd f q t) data)) (nth q f 0) (nth q g 0).
Proof.
  destruct (kook_multi_grad_spec f Hf) as (g & gb & Hg & Hgl & _ & _ & Hge).
  exists g. split; [exact Hg|]. split; [exact Hgl|].
  destruct (Hge j c0 Hj Hc0) as [Eb ->]. rewrite Eb.
  set (t0 := nth q f 0).
  set (yj := Z.to_nat (nth j y 0%Z)).
  set (B := fun h i => - score_of n h i (Z.to_nat (nth i y 0%Z))
                       + ln (bigsum k (fun c => exp (score_of n h i c)))).
  set (Bj := fun t => - with_score z0 c0 t yj
                      + ln (bigsum k (fun c => exp (with_score z0 c0 t c)))).
  set (delta := fun c t => softmax k (with_score z0 c0 t) c
                           - class_prob n k f j c).
  set (r0 := fun c => cen (residual_col n k y f c)).
  set (d := cen (basis n j)).
  assert (Hyj : (yj < k)%nat).
  { unfold yj. apply nth_label_class; auto. lia. }
  assert (Hd : length d = n) by (unfold d; now rewrite length_cen, length_basis).
  apply (D_ext (fun t =>
           (bigsum n (B f) - B f j + Bj t)
           + factor self * (gamma self - 1)
             * bigsum k (fun c => vsum (map (fun x => x ^ 2)
                                  (P (vadd (r0 c) (vscale (delta c t) d))))))).
  - intros t.
    destruct (kook_multi_loss_total (upd f q t) (length_ft t))
      as (l & El & _ & Ev).
    rewrite El. cbn [total]. rewrite Ev. symmetry. f_equal.
    + change (bigsum n (B (upd f q t)) = bigsum n (B f) - B f j + Bj t).
      rewrite (bigsum_upd n j (B (upd f q t)) (B f)); auto.
      * f_equal. unfold B, Bj. f_equal.
        -- f_equal. rewrite (score_of_upd n k) by (auto; lia).
           rewrite Nat.eqb_refl. unfold with_score, yj. reflexivity.
        -- f_equal. apply bigsum_ext; intros c Hc.
           rewrite (score_of_upd n k) by (auto; lia).
           rewrite Nat.eqb_refl. unfold with_score. reflexivity.
      * intros i Hi Hne. unfold B. f_equal.
        -- f_equal. rewrite (score_of_upd n k); auto.
           ++ destruct (Nat.eqb_spec i j); [contradiction|]. reflexivity.
           ++ apply nth_label_class; auto. lia.
        -- f_equal. apply bigsum_ext; intros c Hc.
           rewrite (score_of_upd n k) by (auto; lia).
           destruct (Nat.eqb_spec i j); [contradiction|]. reflexivity.
    + f_equal. apply bigsum_ext; intros c Hc.
      now rewrite residual_col_moved.
  - eapply D_val.
    + apply D_plus.
      * apply D_plus; [apply D_const|].
        unfold Bj. apply D_plus.
        -- apply D_opp.
           apply (D_val _ _ (if Nat.eqb yj c0 then 1 else 0)).
           ++ unfold with_score. destruct (Nat.eqb yj c0);
                [apply D_id | apply D_const].
           ++ reflexivity.
        -- apply (D_lse k c0 z0 Hc0 t0).
      * apply D_scal.
        apply (D_bigsum k _
                 (fun c => 2 * (class_prob n k f j c
                                * ((if Nat.eqb c c0 then 1 else 0)
                                   - class_prob n k f j c0))
                           * Qe f j c)).
        intros c Hc.
        eapply D_val.
        -- apply (pen_line n (anchor data) Hproj (r0 c) d (delta c) t0).
           ++ unfold r0. apply length_cen_col.
           ++ exact Hd.
           ++ unfold delta, t0. rewrite softmax_same by assumption. ring.
           ++ unfold delta. eapply D_val.
              ** apply D_minus; [apply (D_softmax k c0 z0 Hc0 c t0)
                                | apply D_const].
              ** reflexivity.
        -- unfold t0. rewrite !softmax_same by assumption.
           unfold d. rewrite dot_cen_basis by (apply length_proj_col).
           unfold r0. ring.
    + unfold t0. rewrite softmax_same by assumption.
      unfold onehot. fold yj.
      rewrite (bigsum_ext k _
                 (fun c => (if Nat.eqb c c0
                            then 2 * class_prob n k f j c * Qe f j c else 0)
                           + (-2 * class_prob n k f j c0)
                             * (Qe f j c * class_prob n k f j c))).
      * rewrite bigsum_plus, bigsum_scal.
        rewrite (bigsum_delta k c0
                   (fun c => 2 * class_prob n k f j c * Qe f j c))
          by assumption.
        ring.
      * intros c Hc. destruct (Nat.eqb c c0); ring.
Qed.

End Moving.

(** every coordinate of the flat score vector *)
Lemma kook_multi_grad_correct f :
  ols_projection am n (anchor data) ->
  length f = (n * k)%nat ->
  exists g,
    grad self f data = Some g /\ length g = (n * k)%nat /\
    forall q, (q < n * k)%nat ->
      D (fun t => total (loss self (upd f q t) data)) (nth q f 0) (nth q g 0).
Proof.
  intros Hproj Hf.
  destruct (kook_multi_grad_spec f Hf) as (g & gb & Hg & Hgl & _).
  exists g. split; [exact Hg|]. split; [exact Hgl|].
  intros q Hq.
  assert (Hn : (0 < n)%nat) by nia.
  assert (Hj : (q mod n < n)%nat) by (apply Nat.mod_upper_bound; lia).
  assert (Hc : (q / n < k)%nat) by (apply Nat.Div0.div_lt_upper_bound; nia).
  destruct (kook_multi_grad_at f (q mod n) (q / n) Hf Hj Hc Hproj)
    as (g' & Hg' & _ & HD).
  assert (Eq : (q / n * n + q mod n = q)%nat).
  { rewrite (Nat.div_mod_eq q n) at 3. lia. }
  assert (Eg : g' = g) by congruence. subst g'.
  rewrite Eq in HD. exact HD.
Qed.

End KookMulti.

(** ** The collaborators used in the examples meet their contracts *)

Lemma proj_one_column_ols : ols_projection proj_one_column 2 ones2.
Proof.
  split.
  - intros col [<-|[]]. reflexivity.
  - intros r Hr. destruct r as [|r0 [|r1 [|r2 r]]]; try discriminate.
    unfold ols_fit, ones2. cbn [_proj proj_one_column].
    split; [reflexivity|]. split.
    + exists [dot [1; 1] [r0; r1] / dot [1; 1] [1; 1]].
      cbn [lincomb length repeat].
      unfold dot, vmul, vscale, vadd, vsum. simpl.
      f_equal; [field | f_equal; field].
    + intros col [<-|[]].
      unfold dot, vmul, vscale, vsub, vsum. simpl. field.
Qed.

Lemma constant_rng_ok : numpy_rng constant_rng.
Proof.
  intros g k. cbn [normal uniform constant_rng fst].
  rewrite !repeat_length. repeat split.
  - apply repeat_spec in H. lra.
  - apply repeat_spec in H. lra.
Qed.

(** ** C1: the gradient of every variant *)

Section GradientTheorem.

Local Abbreviation D := derivable_pt_lim.

(** C1. For each of the five anchor objectives, every component of
    [grad(f, data)] is the partial derivative of [loss(f, data).sum()] in
    the corresponding score, for every gamma and, on the classification
    variants, with and without [center_residuals]; the multi-class scores
    are indexed column-major.  [_proj] is the ordinary-least-squares
    projection on the columns of the anchor; scores, labels and anchor have
    matching shapes, binary labels are 0 or 1, multi-class labels are class
    indices, and the HSIC variant has at least one component whenever it
    uses them. *)
Theorem anchor_grad_is_gradient_of_total_loss :
  forall (am : AnchorMixin) (rs : RandomState) (n : nat) (a : mat),
    ols_projection am n a -> numpy_rng rs ->
    (forall self f y j,
        binary_labels y -> length y = n -> length f = n -> (j < n)%nat ->
        D (fun t => vsum (AnchorKookClassificationObjective.loss
                            self (upd f j t) (mkDataset y a)))
          (nth j f 0)
          (nth j (AnchorKookClassificationObjective.grad
                    self f (mkDataset y a)) 0)) /\
    (forall self f y,
        let k := AnchorKookMultiClassificationObjective.n_classes self in
        (0 < k)%nat -> class_labels k y -> length y = n ->
        length f = (n * k)%nat ->
        exists g,
          AnchorKookMultiClassificationObjective.grad self f (mkDataset y a)
          = Some g /\
          length g = (n * k)%nat /\
          forall q, (q < n * k)%nat ->
            D (fun t => total (AnchorKookMultiClassificationObjective.loss
                                 self (upd f q t) (mkDataset y a)))
              (nth q f 0) (nth q g 0)) /\
    (forall self f y j,
        binary_labels y -> length y = n -> length f = n -> (j < n)%nat ->
        D (fun t => vsum (AnchorLiuClassificationObjective.loss
                            self (upd f j t) (mkDataset y a)))
          (nth j f 0)
          (nth j (AnchorLiuClassificationObjective.grad
                    self f (mkDataset y a)) 0)) /\
    (forall coef self f y j,
        length y = n -> length f = n -> (j < n)%nat ->
        D (fun t => vsum (AnchorRegressionObjective.loss
                            coef self (upd f j t) (mkDataset y a)))
          (nth j f 0)
          (nth j (AnchorRegressionObjective.grad
                    coef self f (mkDataset y a)) 0)) /\
    (forall coef self f y j,
        (AnchorHSICRegressionObjective.gamma self <> 1 ->
         (0 < AnchorHSICRegressionObjective.n_components self)%nat) ->
        length y = n -> length f = n -> (j < n)%nat ->
        exists g,
          AnchorHSICRegressionObjective.grad coef self f (mkDataset y a)
          = Some g /\
          length g = n /\
          D (fun t => total (AnchorHSICRegressionObjective.loss
                               coef self (upd f j t) (mkDataset y a)))
            (nth j f 0) (nth j g 0)).
Proof.
  intros am rs n a Hproj Hrng. repeat split.
  - intros self f y j Hb Hy Hf Hj.
    now apply (kook_grad_correct n (mkDataset y a)).
  - intros self f y k Hk Hlab Hy Hf.
    apply (kook_multi_grad_correct n (mkDataset y a) self); auto.
    now apply ols_shape.
  - intros self f y j Hb Hy Hf Hj.
    now apply (liu_grad_correct n (mkDataset y a)).
  - intros coef self f y j Hy Hf Hj.
    now apply (regression_grad_correct n (mkDataset y a)).
  - intros coef self f y j Hm Hy Hf Hj.
    now apply (hsic_grad_correct n (mkDataset y a)).
Qed.

Lemma anchor_grad_is_gradient_of_total_loss_witness :
  ols_projection proj_one_column 2 ones2 /\
  numpy_rng constant_rng /\
  D (fun t => vsum (AnchorKookClassificationObjective.loss
                      (am := proj_one_column)
                      (AnchorKookClassificationObjective.init 2 true)
                      (upd [0; 0] 1 t) (mkDataset [0; 1] ones2)))
    0
    (nth 1 (AnchorKookClassificationObjective.grad
              (am := proj_one_column)
              (AnchorKookClassificationObjective.init 2 true)
              [0; 0] (mkDataset [0; 1] ones2)) 0).
Proof.
  split; [exact proj_one_column_ols|]. split; [exact constant_rng_ok|].
  destruct (anchor_grad_is_gradient_of_total_loss
              proj_one_column constant_rng 2 ones2
              proj_one_column_ols constant_rng_ok) as [HK _].
  apply (HK (AnchorKookClassificationObjective.init 2 true)
            [0; 0] [0; 1] 1%nat).
  - intros v [<-|[<-|[]]]; [left|right]; reflexivity.
  - reflexivity.
  - reflexivity.
  - lia.
Defined.

End GradientTheorem.

(** ** C2: gamma = 1 gives back the base family *)

Section GammaOne.

Lemma vadd_zero_r (a b : vec) :
  length b = length a ->
  (forall i, (i < length a)%nat -> nth i b 0 = 0) -> vadd a b = a.
Proof.
  intros Hl Hz. apply (vec_ext _ _ (length a)); auto.
  - now apply length_vadd.
  - intros i Hi. rewrite nth_vadd by lia. rewrite Hz by assumption. ring.
Qed.

Lemma kook_gamma_one {am : AnchorMixin} n (data : Dataset R)
      (self : AnchorKookClassificationObjective.Self) f :
  shape_preserving am n (anchor data) ->
  AnchorKookClassificationObjective.gamma self = 1 ->
  length (get_label data) = n -> length f = n ->
  AnchorKookClassificationObjective.loss self f data
  = ClassificationMixin.loss f data /\
  AnchorKookClassificationObjective.grad self f data
  = ClassificationMixin.grad f data.
Proof.
  intros Hs Hg Hy Hf.
  assert (Hp : length (ClassificationMixin.predictions f) = n).
  { unfold ClassificationMixin.predictions. now rewrite length_map. }
  assert (Hr : length (AnchorKookClassificationObjective.residuals self f data) = n).
  { unfold AnchorKookClassificationObjective.residuals,
      AnchorKookClassificationObjective.predictions.
    destruct (AnchorKookClassificationObjective.center_residuals self);
      rewrite ?length_map; now apply length_vsub. }
  split.
  - unfold AnchorKookClassificationObjective.loss. rewrite Hg.
    assert (Hb : length (ClassificationMixin.loss f data) = n).
    { unfold ClassificationMixin.loss. now apply length_map2_same. }
    apply vadd_zero_r.
    + rewrite length_vscale, length_map, Hb. now apply Hs.
    + intros i Hi. rewrite nth_vscale; [ring|].
      rewrite length_map, Hs; auto. lia.
  - unfold AnchorKookClassificationObjective.grad. rewrite Hg.
    assert (Hb : length (ClassificationMixin.grad f data) = n).
    { unfold ClassificationMixin.grad. now apply length_vsub. }
    set (pr := _proj (anchor data)
                 (AnchorKookClassificationObjective.residuals self f data)).
    assert (Hpr : length pr = n) by now apply Hs.
    set (prc := if AnchorKookClassificationObjective.center_residuals self
                then map (fun x => x - vmean pr) pr else pr).
    assert (Hprc : length prc = n).
    { unfold prc.
      destruct (AnchorKookClassificationObjective.center_residuals self);
        rewrite ?length_map; auto. }
    unfold AnchorKookClassificationObjective.predictions.
    assert (H1 : length (vscale (2 * (1 - 1)) prc) = n)
      by now rewrite length_vscale.
    assert (H2 : length (vmul (vscale (2 * (1 - 1)) prc)
                           (ClassificationMixin.predictions f)) = n)
      by now apply length_vmul.
    assert (H3 : length (map (fun p => 1 - p)
                           (ClassificationMixin.predictions f)) = n)
      by now rewrite length_map.
    apply vadd_zero_r.
    + rewrite Hb. now apply length_vmul.
    + intros i Hi. rewrite !nth_vmul, nth_vscale by lia. ring.
Qed.

Lemma kook_multi_gamma_one {am : AnchorMixin} n (data : Dataset Z)
      (self : AnchorKookMultiClassificationObjective.Self) f :
  let k := AnchorKookMultiClassificationObjective.n_classes self in
  shape_preserving am n (anchor data) ->
  AnchorKookMultiClassificationObjective.gamma self = 1 ->
  (0 < k)%nat -> class_labels k (get_label data) ->
  length (get_label data) = n -> length f = (n * k)%nat ->
  AnchorKookMultiClassificationObjective.loss self f data
  = MultiClassificationMixin.loss k f data /\
  AnchorKookMultiClassificationObjective.grad self f data
  = MultiClassificationMixin.grad k f data.
Proof.
  intros k Hs Hg Hk Hlab Hy Hf. unfold k in *. clear k.
  set (k := AnchorKookMultiClassificationObjective.n_classes self) in *.
  split.
  - destruct (kook_multi_loss_shape n data self Hk Hy Hlab Hs f Hf)
      as (lb & pen & Hb & Hlb & Hpl & -> & _).
    fold k in Hb. rewrite Hb. f_equal. rewrite Hg.
    apply vadd_zero_r.
    + rewrite length_vscale. lia.
    + intros i Hi. rewrite nth_vscale by lia. ring.
  - destruct (kook_multi_grad_spec n data self Hk Hy Hlab Hs f Hf)
      as (g & gb & -> & Hgl & Hb & Hbl & He).
    fold k in Hb, Hgl, Hbl, He. rewrite Hb. f_equal.
    apply (vec_ext _ _ (n * k)); auto.
    intros q Hq.
    assert (Hn : (0 < n)%nat) by nia.
    assert (Hj : (q mod n < n)%nat) by (apply Nat.mod_upper_bound; lia).
    assert (Hc : (q / n < k)%nat) by (apply Nat.Div0.div_lt_upper_bound; nia).
    assert (Eq : (q / n * n + q mod n = q)%nat).
    { rewrite (Nat.div_mod_eq q n) at 3. lia. }
    destruct (He (q mod n)%nat (q / n)%nat Hj Hc) as [_ E].
    rewrite Eq in E. rewrite E, Hg. ring.
Qed.

(** C2. At gamma = 1 each of the five variants returns exactly the loss and
    the gradient of its base family: the two Kook variants because the
    penalty is multiplied by gamma - 1 = 0 (on arrays of matching shapes,
    [_proj] keeping the shape of the residual), the Liu and the two
    regression variants because they return the base value at once. *)
Theorem gamma_one_is_base_family :
  forall (am : AnchorMixin) (rs : RandomState) (n : nat) (a : mat),
    shape_preserving am n a ->
    (forall self f y,
        AnchorKookClassificationObjective.gamma self = 1 ->
        length y = n -> length f = n ->
        AnchorKookClassificationObjective.loss self f (mkDataset y a)
        = ClassificationMixin.loss f (mkDataset y a) /\
        AnchorKookClassificationObjective.grad self f (mkDataset y a)
        = ClassificationMixin.grad f (mkDataset y a)) /\
    (forall self f y,
        let k := AnchorKookMultiClassificationObjective.n_classes self in
        AnchorKookMultiClassificationObjective.gamma self = 1 ->
        (0 < k)%nat -> class_labels k y ->
        length y = n -> length f = (n * k)%nat ->
        AnchorKookMultiClassificationObjective.loss self f (mkDataset y a)
        = MultiClassificationMixin.loss k f (mkDataset y a) /\
        AnchorKookMultiClassificationObjective.grad self f (mkDataset y a)
        = MultiClassificationMixin.grad k f (mkDataset y a)) /\
    (forall self f data,
        AnchorLiuClassificationObjective.gamma self = 1 ->
        AnchorLiuClassificationObjective.loss self f data
        = ClassificationMixin.loss f data /\
        AnchorLiuClassificationObjective.grad self f data
        = ClassificationMixin.grad f data) /\
    (forall coef self f data,
        AnchorRegressionObjective.gamma self = 1 ->
        AnchorRegressionObjective.loss coef self f data
        = RegressionMixin.loss coef f data /\
        AnchorRegressionObjective.grad coef self f data
        = RegressionMixin.grad coef f data) /\
    (forall coef self f data,
        AnchorHSICRegressionObjective.gamma self = 1 ->
        AnchorHSICRegressionObjective.loss coef self f data
        = Some (RegressionMixin.loss coef f data) /\
        AnchorHSICRegressionObjective.grad coef self f data
        = Some (RegressionMixin.grad coef f data)).
Proof.
  intros am rs n a Hs. repeat apply conj.
  - intros self f y Hg Hy Hf.
    now apply (kook_gamma_one n (mkDataset y a)).
  - intros self f y k Hg Hk Hlab Hy Hf.
    now apply (kook_multi_gamma_one n (mkDataset y a)).
  - intros self f data Hg.
    unfold AnchorLiuClassificationObjective.loss,
      AnchorLiuClassificationObjective.grad.
    destruct (Req_dec_T _ 1); [split; reflexivity | contradiction].
  - intros coef self f data Hg.
    unfold AnchorRegressionObjective.loss, AnchorRegressionObjective.grad.
    destruct (Req_dec_T _ 1); [split; reflexivity | contradiction].
  - intros coef self f data Hg.
    unfold AnchorHSICRegressionObjective.loss,
      AnchorHSICRegressionObjective.grad.
    destruct (Req_dec_T _ 1); [split; reflexivity | contradiction].
Qed.

Lemma gamma_one_is_base_family_witness :
  shape_preserving proj_one_column 2 ones2 /\
  AnchorKookClassificationObjective.loss
    (am := proj_one_column)
    (AnchorKookClassificationObjective.init 1 false)
    [0; 0] (mkDataset [0; 1] ones2)
  = ClassificationMixin.loss [0; 0] (mkDataset [0; 1] ones2).
Proof.
  split; [exact (ols_shape _ _ _ proj_one_column_ols)|].
  destruct (gamma_one_is_base_family
              proj_one_column constant_rng 2 ones2
              (ols_shape _ _ _ proj_one_column_ols)) as [HK _].
  apply (HK (AnchorKookClassificationObjective.init 1 false) [0; 0] [0; 1]);
    reflexivity.
Defined.

End GammaOne.

(** ** C3: the Hessian handed to the engine *)

Section HessianTheorem.

Lemma vmul_map_map (g h : R -> R) (l : vec) :
  vmul (map g l) (map h l) = map (fun x => g x * h x) l.
Proof. induction l as [|x l IH]; simpl; [reflexivity|]. now rewrite <- IH. Qed.

Lemma binary_hess_formula f data :
  ClassificationMixin.hess f data
  = map (fun x => ClassificationMixin.sigmoid x
                  * (1 - ClassificationMixin.sigmoid x)) f.
Proof.
  unfold ClassificationMixin.hess, ClassificationMixin.predictions.
  rewrite map_map.
  rewrite <- (vmul_map_map ClassificationMixin.sigmoid
                (fun x => 1 - ClassificationMixin.sigmoid x)).
  reflexivity.
Qed.

Lemma multi_hess_formula k f data :
  k <> 1%nat ->
  MultiClassificationMixin.hess k f data
  = option_map
      (fun pm => map (fun p => p * (1 - p) * INR k / (INR k - 1)) (flatten_F pm))
      (MultiClassificationMixin.predictions k f).
Proof.
  intros Hk. unfold MultiClassificationMixin.hess.
  destruct (MultiClassificationMixin.predictions k f) as [pm|] eqn:E;
    [|reflexivity].
  assert (Hk0 : k <> O).
  { intros ->. unfold MultiClassificationMixin.predictions in E.
    simpl in E. discriminate. }
  assert (H1 : 1 < INR k).
  { replace 1 with (INR 1) by reflexivity. apply lt_INR. lia. }
  unfold MultiClassificationMixin.factor.
  destruct (Req_dec_T ((INR k - 1) / INR k) 0) as [E0|E0].
  - exfalso. apply (Rmult_eq_compat_r (INR k)) in E0.
    unfold Rdiv in E0. rewrite Rmult_assoc, Rinv_l, Rmult_0_l in E0 by lra.
    lra.
  - cbn [option_map]. f_equal. unfold vscale.
    rewrite <- (map_id (flatten_F pm)) at 1.
    rewrite map_map.
    rewrite (vmul_map_map (fun x => 1 / ((INR k - 1) / INR k) * x)
               (fun p => 1 - p)).
    apply map_ext. intros p. field. split; lra.
Qed.

(** C3. For every variant, every gamma, anchor and [center_residuals], the
    second component of [objective(f, data)] is the Hessian of the base
    family and nothing else: sigmoid(f)(1 - sigmoid(f)) for the binary
    family, the column-major flattened softmax predictions p(1 - p)k/(k - 1)
    for the k-class family (k other than 1, for which the factor is 0), and
    the base Hessian for the regression family. *)
Theorem objective_hess_is_base_hessian :
  forall (am : AnchorMixin) (rs : RandomState),
    (forall self f data,
        snd (AnchorKookClassificationObjective.objective self f data)
        = ClassificationMixin.hess f data /\
        ClassificationMixin.hess f data
        = map (fun x => ClassificationMixin.sigmoid x
                        * (1 - ClassificationMixin.sigmoid x)) f) /\
    (forall self f data,
        snd (AnchorLiuClassificationObjective.objective self f data)
        = ClassificationMixin.hess f data) /\
    (forall self f data,
        let k := AnchorKookMultiClassificationObjective.n_classes self in
        k <> 1%nat ->
        snd (AnchorKookMultiClassificationObjective.objective self f data)
        = MultiClassificationMixin.hess k f data /\
        MultiClassificationMixin.hess k f data
        = option_map
            (fun pm => map (fun p => p * (1 - p) * INR k / (INR k - 1))
                           (flatten_F pm))
            (MultiClassificationMixin.predictions k f)) /\
    (forall coef self f data,
        snd (AnchorRegressionObjective.objective coef self f data)
        = RegressionMixin.hess coef f data) /\
    (forall coef self f data,
        snd (AnchorHSICRegressionObjective.objective coef self f data)
        = Some (RegressionMixin.hess coef f data)).
Proof.
  intros am rs. repeat apply conj.
  - intros self f data. split; [reflexivity | apply binary_hess_formula].
  - reflexivity.
  - intros self f data k Hk. split; [reflexivity|].
    now apply multi_hess_formula.
  - reflexivity.
  - reflexivity.
Qed.

Lemma objective_hess_is_base_hessian_witness :
  2%nat <> 1%nat /\
  snd (AnchorKookMultiClassificationObjective.objective
         (am := proj_one_column)
         (AnchorKookMultiClassificationObjective.init 3 2 true)
         [0; 0] (mkDataset [0%Z] [[1]]))
  = MultiClassificationMixin.hess 2 [0; 0] (mkDataset [0%Z] [[1]]).
Proof.
  split; [lia|].
  destruct (objective_hess_is_base_hessian proj_one_column constant_rng)
    as (_ & _ & HM & _).
  apply (HM (AnchorKookMultiClassificationObjective.init 3 2 true)
            [0; 0] (mkDataset [0%Z] [[1]])).
  simpl. lia.
Defined.

End HessianTheorem.

(** ** C5, C6: the random Fourier features *)

Section FourierTheorems.

Local Abbreviation D := derivable_pt_lim.
Import AnchorHSICRegressionObjective.

(** the result of [_fourier_residuals] in terms of the draws, with or
    without components *)
Lemma fourier_residuals_unfold {rs : RandomState} self f data :
  fst (_fourier_residuals self f data)
  = let w := fst (draws (random_fourier_features_seed self) (n_components self)) in
    let o := snd (draws (random_fourier_features_seed self) (n_components self)) in
    let s := sqrt (2 / INR (n_components self)) in
    let wm := map2 (fun wc oc => map (fun r => r * wc + oc)
                                     (residuals self f data)) w o in
    match n_components self with
    | O => None
    | S _ => Some (map (map (fun x => cos x * s)) wm,
                   map2 (fun col wc => map (fun x => - sin x * wc * s) col) wm w)
    end.
Proof.
  unfold _fourier_residuals, draws.
  destruct (normal _ _) as [w g]. destruct (uniform g _) as [u g'].
  cbn [fst snd]. destruct (n_components self); reflexivity.
Qed.

Lemma fourier_residuals_some {rs : RandomState} self f data :
  (0 < n_components self)%nat ->
  fst (_fourier_residuals self f data)
  = let w := fst (draws (random_fourier_features_seed self) (n_components self)) in
    let o := snd (draws (random_fourier_features_seed self) (n_components self)) in
    let s := sqrt (2 / INR (n_components self)) in
    let wm := map2 (fun wc oc => map (fun r => r * wc + oc)
                                     (residuals self f data)) w o in
    Some (map (map (fun x => cos x * s)) wm,
          map2 (fun col wc => map (fun x => - sin x * wc * s) col) wm w).
Proof.
  intros Hm. rewrite fourier_residuals_unfold.
  destruct (n_components self); [lia | reflexivity].
Qed.

(** C5. A call of [_fourier_residuals] leaves the objective as it found it
    and draws from a generator seeded anew with
    [random_fourier_features_seed]: a second call on the same scores and
    labels returns the same features and derivatives, two objectives with
    the same seed and number of components return the same, and the weights
    and offsets behind every call, hence behind [loss] and [grad] of one
    round, are the one pair [draws seed n_components]. *)
Theorem fourier_residuals_reseeded :
  forall (rs : RandomState) (self : Self) (f : vec) (data : Dataset R),
    (let (r1, self1) := _fourier_residuals self f data in
     let (r2, self2) := _fourier_residuals self1 f data in
     r1 = r2 /\ self1 = self /\ self2 = self) /\
    (forall self', random_fourier_features_seed self'
                   = random_fourier_features_seed self ->
                   n_components self' = n_components self ->
                   fst (_fourier_residuals self' f data)
                   = fst (_fourier_residuals self f data)) /\
    (forall f' data',
        let w := fst (draws (random_fourier_features_seed self)
                            (n_components self)) in
        let o := snd (draws (random_fourier_features_seed self)
                            (n_components self)) in
        let s := sqrt (2 / INR (n_components self)) in
        let wm := map2 (fun wc oc => map (fun r => r * wc + oc)
                                         (residuals self f' data')) w o in
        fst (_fourier_residuals self f' data')
        = match n_components self with
          | O => None
          | S _ => Some (map (map (fun x => cos x * s)) wm,
                         map2 (fun col wc =>
                                 map (fun x => - sin x * wc * s) col) wm w)
          end).
Proof.
  intros rs self f data. repeat apply conj.
  - assert (Hs : snd (_fourier_residuals self f data) = self).
    { unfold _fourier_residuals.
      destruct (normal _ _) as [w g]. destruct (uniform g _) as [u g'].
      destruct (n_components self); reflexivity. }
    destruct (_fourier_residuals self f data) as [r1 self1] eqn:E1.
    simpl in Hs. subst self1. rewrite E1. auto.
  - intros self' Hseed Hm. rewrite !fourier_residuals_unfold.
    unfold residuals. rewrite Hseed, Hm. reflexivity.
  - intros f' data'. apply fourier_residuals_unfold.
Qed.

Lemma fourier_residuals_reseeded_witness :
  fst (_fourier_residuals (rs := constant_rng) (init 3 2 7%Z) [0; 0]
                          (mkDataset [1; 2] ones2))
  = fst (_fourier_residuals (rs := constant_rng) (init 2 2 7%Z) [0; 0]
                            (mkDataset [1; 2] ones2)).
Proof.
  destruct (fourier_residuals_reseeded constant_rng (init 2 2 7%Z) [0; 0]
              (mkDataset [1; 2] ones2)) as (_ & H & _).
  apply (H (init 3 2 7%Z)); reflexivity.
Defined.

(** C6. With [n_components] = m > 0 and a generator that returns m numbers
    per draw, uniform ones in [0, 1): the weights are the generator's normal
    draw, the offsets its uniform draw scaled into [0, 2 pi), and features
    and derivative are n x m arrays with entries
    cos(r w + o) sqrt(2/m) and -sin(r w + o) w sqrt(2/m) at the residual
    r = y - f of the example, the latter being the derivative of the former
    in r. *)
Theorem fourier_features_formula :
  forall (rs : RandomState) (self : Self) (f : vec) (data : Dataset R) (n : nat),
    numpy_rng rs -> (0 < n_components self)%nat ->
    length (get_label data) = n -> length f = n ->
    let m := n_components self in
    let w := fst (normal (seeded (random_fourier_features_seed self)) m) in
    let o := snd (draws (random_fourier_features_seed self) m) in
    let s := sqrt (2 / INR m) in
    exists features derivative,
      fst (_fourier_residuals self f data) = Some (features, derivative) /\
      fst (draws (random_fourier_features_seed self) m) = w /\
      length w = m /\ length o = m /\
      (forall c, (c < m)%nat -> 0 <= nth c o 0 < 2 * PI) /\
      well_shaped features n m /\ well_shaped derivative n m /\
      forall i c, (i < n)%nat -> (c < m)%nat ->
        let r := nth i (residuals self f data) 0 in
        r = nth i (get_label data) 0 - nth i f 0 /\
        entry features i c = cos (r * nth c w 0 + nth c o 0) * s /\
        entry derivative i c
        = - sin (r * nth c w 0 + nth c o 0) * nth c w 0 * s /\
        D (fun x => cos (x * nth c w 0 + nth c o 0) * s) r
          (entry derivative i c).
Proof.
  intros rs self f data n Hrng Hm Hy Hf m w o s.
  pose proof (draws_length Hrng (random_fourier_features_seed self) m)
    as [Hwl Hol].
  assert (Hw : fst (draws (random_fourier_features_seed self) m) = w).
  { unfold draws, w. destruct (normal _ _) as [w' g].
    destruct (uniform g _); reflexivity. }
  rewrite Hw in Hwl. fold o in Hol.
  assert (Ho : forall c, (c < m)%nat -> 0 <= nth c o 0 < 2 * PI).
  { intros c Hc. unfold o, draws.
    destruct (normal _ _) as [w' g].
    pose proof (Hrng g m) as (_ & Hul & Hu).
    destruct (uniform g m) as [u g']. cbn [fst snd] in *.
    assert (Hcu : (c < length u)%nat) by (rewrite Hul; exact Hc).
    rewrite nth_map0 by exact Hcu.
    specialize (Hu (nth c u 0) (nth_In _ _ Hcu)).
    pose proof PI_RGT_0. nra. }
  assert (Hres : length (residuals self f data) = n).
  { unfold residuals. now apply length_vsub. }
  rewrite fourier_residuals_some by assumption. cbv zeta.
  fold m. rewrite Hw. fold o s.
  set (G := fun wc oc : R => map (fun r => r * wc + oc) (residuals self f data)).
  set (wm := map2 G w o).
  assert (Hwmc : forall c, (c < m)%nat ->
             nth c wm [] = G (nth c w 0) (nth c o 0)).
  { intros c Hc. apply nth_map2; lia. }
  assert (Hwm : well_shaped wm n m).
  { split; [now apply length_map2_same|]. intros c Hc.
    rewrite Hwmc by assumption. unfold G. now rewrite length_map. }
  assert (Hwme : forall i c, (i < n)%nat -> (c < m)%nat ->
             entry wm i c
             = nth i (residuals self f data) 0 * nth c w 0 + nth c o 0).
  { intros i c Hi Hc. unfold entry. rewrite Hwmc by assumption.
    unfold G. now rewrite nth_map0 by lia. }
  set (G' := fun (col : vec) (wc : R) => map (fun x => - sin x * wc * s) col).
  assert (Hfdc : forall c, (c < m)%nat ->
             nth c (map2 G' wm w) [] = G' (nth c wm []) (nth c w 0)).
  { intros c Hc. destruct Hwm as [Hl _]. apply nth_map2; lia. }
  eexists; eexists. split; [reflexivity|]. split; [reflexivity|].
  split; [exact Hwl|]. split; [exact Hol|]. split; [exact Ho|].
  assert (HFR : well_shaped (map (map (fun x => cos x * s)) wm) n m).
  { apply shaped_map; auto. intros v Hv. now rewrite length_map. }
  assert (HFD : well_shaped
                  (map2 (fun col wc => map (fun x => - sin x * wc * s) col)
                        wm w) n m).
  { split; [destruct Hwm; now apply length_map2_same|].
    intros c Hlt. fold G'. rewrite Hfdc by assumption. unfold G'.
    rewrite length_map. now apply Hwm. }
  split; [exact HFR|]. split; [exact HFD|].
  intros i c Hi Hc.
  set (r := nth i (residuals self f data) 0).
  assert (Er : r = nth i (get_label data) 0 - nth i f 0).
  { unfold r, residuals. apply nth_vsub; lia. }
  destruct Hwm as [Hl Hcl].
  assert (E1 : entry (map (map (fun x => cos x * s)) wm) i c
               = cos (r * nth c w 0 + nth c o 0) * s).
  { rewrite entry_map by lia. rewrite nth_map0 by (rewrite Hcl; auto).
    change (nth i (nth c wm []) 0) with (entry wm i c).
    now rewrite Hwme. }
  assert (E2 : entry (map2 (fun col wc => map (fun x => - sin x * wc * s) col)
                           wm w) i c
               = - sin (r * nth c w 0 + nth c o 0) * nth c w 0 * s).
  { unfold entry. fold G'. rewrite Hfdc by assumption. unfold G'.
    rewrite nth_map0 by (rewrite Hcl; auto).
    change (nth i (nth c wm []) 0) with (entry wm i c).
    now rewrite Hwme. }
  split; [exact Er|]. split; [exact E1|]. split; [exact E2|].
  rewrite E2. eapply D_val.
  - apply (D_mult (fun x => cos (x * nth c w 0 + nth c o 0)) (fun _ => s));
      [|apply D_const].
    apply D_cos. apply D_plus; [|apply D_const].
    apply (D_mult (fun x => x) (fun _ => nth c w 0));
      [apply D_id | apply D_const].
  - cbv beta. ring.
Qed.

Lemma fourier_features_formula_witness :
  numpy_rng constant_rng /\
  exists features derivative,
    fst (_fourier_residuals (rs := constant_rng) (init 2 1 0%Z) [0; 0]
                            (mkDataset [1; 2] ones2))
    = Some (features, derivative) /\
    well_shaped features 2 1.
Proof.
  split; [exact constant_rng_ok|].
  destruct (fourier_features_formula constant_rng (init 2 1 0%Z) [0; 0]
              (mkDataset [1; 2] ones2) 2 constant_rng_ok)
    as (fr & fd & E & _ & _ & _ & _ & Hs & _);
    [simpl; lia | reflexivity | reflexivity |].
  exists fr, fd. split; [exact E | exact Hs].
Defined.

End FourierTheorems.

(** ** C7: predictions are probabilities *)

Section Probabilities.

Lemma sigmoid_range x :
  0 < ClassificationMixin.sigmoid x < 1.
Proof.
  unfold ClassificationMixin.sigmoid.
  pose proof (exp_pos (- x)) as Hp.
  split.
  - apply Rdiv_lt_0_compat; lra.
  - apply (Rmult_lt_reg_r (1 + exp (- x))); [lra|].
    unfold Rdiv. rewrite Rmult_assoc, Rinv_l by lra. lra.
Qed.

Lemma bigsum_nonneg k g :
  (forall c, (c < k)%nat -> 0 <= g c) -> 0 <= bigsum k g.
Proof.
  induction k as [|k IH]; intros H; [rewrite bigsum_0; lra|].
  rewrite bigsum_S. pose proof (H k ltac:(lia)).
  assert (0 <= bigsum k g) by (apply IH; intros; apply H; lia). lra.
Qed.

Lemma bigsum_split k c g :
  (c < k)%nat ->
  bigsum k g = bigsum k (fun i => if Nat.eqb i c then 0 else g i) + g c.
Proof.
  intros Hc.
  rewrite (bigsum_upd k c g (fun i => if Nat.eqb i c then 0 else g i));
    auto.
  - rewrite Nat.eqb_refl. ring.
  - intros i Hi Hne. destruct (Nat.eqb_spec i c); [contradiction|reflexivity].
Qed.

Lemma bigsum_pos_one k c g :
  (c < k)%nat -> (forall i, (i < k)%nat -> 0 <= g i) -> 0 < g c ->
  0 < bigsum k g.
Proof.
  intros Hc Hn Hp. rewrite (bigsum_split k c g Hc).
  assert (0 <= bigsum k (fun i => if Nat.eqb i c then 0 else g i)).
  { apply bigsum_nonneg. intros i Hi.
    destruct (Nat.eqb i c); [lra | now apply Hn]. }
  lra.
Qed.

Lemma softmax_pos k z c : (0 < k)%nat -> 0 < softmax k z c.
Proof.
  intros Hk. unfold softmax. apply Rdiv_lt_0_compat.
  - apply exp_pos.
  - now apply bigsum_exp_pos.
Qed.

Lemma softmax_sum k z : (0 < k)%nat -> bigsum k (softmax k z) = 1.
Proof.
  intros Hk. unfold softmax.
  pose proof (bigsum_exp_pos k z Hk) as Hp.
  rewrite (bigsum_ext k _
             (fun c => / bigsum k (fun c' => exp (z c')) * exp (z c)))
    by (intros; unfold Rdiv; ring).
  rewrite bigsum_scal. field. lra.
Qed.

Lemma softmax_le_one k z c : (c < k)%nat -> softmax k z c <= 1.
Proof.
  intros Hc. assert (Hk : (0 < k)%nat) by lia.
  rewrite <- (softmax_sum k z Hk).
  rewrite (bigsum_split k c (softmax k z) Hc).
  assert (0 <= bigsum k (fun i => if Nat.eqb i c then 0 else softmax k z i)).
  { apply bigsum_nonneg. intros i Hi.
    destruct (Nat.eqb i c); [lra|]. left. now apply softmax_pos. }
  lra.
Qed.

Lemma softmax_lt_one k z c : (1 < k)%nat -> (c < k)%nat -> softmax k z c < 1.
Proof.
  intros Hk Hc. assert (Hk0 : (0 < k)%nat) by lia.
  rewrite <- (softmax_sum k z Hk0).
  rewrite (bigsum_split k c (softmax k z) Hc).
  set (c' := if Nat.eqb c 0 then 1%nat else 0%nat).
  assert (Hc' : (c' < k)%nat /\ c' <> c).
  { unfold c'. destruct (Nat.eqb_spec c 0); split; lia. }
  destruct Hc' as [Hc'k Hne].
  assert (0 < bigsum k (fun i => if Nat.eqb i c then 0 else softmax k z i)).
  { apply (bigsum_pos_one k c').
    - exact Hc'k.
    - intros i Hi. destruct (Nat.eqb i c); [lra|]. left. now apply softmax_pos.
    - destruct (Nat.eqb_spec c' c); [contradiction|]. now apply softmax_pos. }
  lra.
Qed.

(** The claim of C7 fails for the one-class family: the single prediction
    of an example is exactly 1, not below it. *)
Lemma one_class_prediction_is_one :
  ~ (forall pm, MultiClassificationMixin.predictions 1 [0] = Some pm ->
                0 < entry pm 0 0 < 1).
Proof.
  intros H.
  specialize (H [[exp (0 - 0) / exp (0 - 0)]] eq_refl).
  unfold entry in H. cbn [nth] in H.
  pose proof (exp_pos (0 - 0)) as Hp.
  assert (E : exp (0 - 0) / exp (0 - 0) = 1) by (field; lra).
  rewrite E in H. lra.
Qed.

(** C7, amended. Binary predictions lie in the closed interval from 0 to 1
    (so p + (1 - p) = 1).  Multi-class predictions of n * k scores, k >= 1,
    are an n x k array whose rows sum to 1 and whose entries lie in the
    closed interval from 0 to 1.  The bounds are not strict: the one-class
    family predicts exactly 1, and in double precision [1 / (1 + exp(-f))]
    and the softmax reach 1.0 and 0.0 at finite scores. *)
Theorem predictions_are_probabilities :
  (forall f, Forall (fun p => 0 <= p <= 1 /\ p + (1 - p) = 1)
                    (ClassificationMixin.predictions f)) /\
  (forall n k f,
      (0 < k)%nat -> length f = (n * k)%nat ->
      exists pm,
        MultiClassificationMixin.predictions k f = Some pm /\
        well_shaped pm n k /\
        forall i, (i < n)%nat ->
          bigsum k (entry pm i) = 1 /\
          forall c, (c < k)%nat -> 0 <= entry pm i c <= 1).
Proof.
  split.
  - intros f. unfold ClassificationMixin.predictions.
    apply Forall_forall. intros p Hp. apply in_map_iff in Hp.
    destruct Hp as (x & <- & _).
    pose proof (sigmoid_range x) as [H0 H1].
    split; [lra | ring].
  - intros n k f Hk Hf.
    destruct (predictions_spec n k f Hk Hf) as (pm & E & Hs & He).
    exists pm. split; [exact E|]. split; [exact Hs|].
    intros i Hi. split.
    + rewrite (bigsum_ext k (entry pm i) (softmax k (score_of n f i)))
        by (intros; now apply He).
      now apply softmax_sum.
    + intros c Hc. rewrite He by assumption. split.
      * left. now apply softmax_pos.
      * now apply softmax_le_one.
Qed.

Lemma predictions_are_probabilities_witness :
  (0 < 2)%nat /\ length [0; 1] = (1 * 2)%nat /\
  exists pm, MultiClassificationMixin.predictions 2 [0; 1] = Some pm /\
             well_shaped pm 1 2.
Proof.
  split; [lia|]. split; [reflexivity|].
  destruct predictions_are_probabilities as [_ HM].
  destruct (HM 1%nat 2%nat [0; 1]) as (pm & E & Hs & _);
    [lia | reflexivity |].
  exists pm. split; [exact E | exact Hs].
Defined.

End Probabilities.

(** ** C9: the binary baseline score on labels of one class *)

Section BinaryBaseline.

Lemma binary_vsum_bounds (y : vec) :
  binary_labels y ->
  0 <= vsum y <= INR (length y) /\
  (vsum y = 0 <-> ~ In 1 y) /\
  (vsum y = INR (length y) <-> ~ In 0 y).
Proof.
  induction y as [|v y IH]; intros Hb.
  - simpl. split; [lra|]. split; split; auto; intros _ [].
  - assert (Hb' : binary_labels y) by (intros w Hw; apply Hb; simpl; auto).
    destruct (IH Hb') as (Hr & H0 & H1).
    assert (Hv : v = 0 \/ v = 1) by (apply Hb; simpl; auto).
    change (vsum (v :: y)) with (v + vsum y).
    change (length (v :: y)) with (S (length y)). rewrite S_INR.
    assert (Hl : 0 <= INR (length y)) by apply pos_INR.
    destruct Hv as [-> | ->].
    + split; [lra|]. split; split.
      * intros E [Hin|Hin]; [lra|]. apply H0; [lra | exact Hin].
      * intros Hn. rewrite Rplus_0_l. apply H0. intros Hin. apply Hn.
        simpl; auto.
      * intros E. lra.
      * intros Hn. exfalso. apply Hn. simpl; auto.
    + split; [lra|]. split; split.
      * intros E. lra.
      * intros Hn. exfalso. apply Hn. simpl; auto.
      * intros E [Hin|Hin]; [lra|]. apply H1; [lra | exact Hin].
      * intros Hn. assert (vsum y = INR (length y)); [|lra].
        apply H1. intros Hin. apply Hn. simpl; auto.
Qed.

Lemma init_score_value_cases (y : vec) :
  binary_labels y ->
  (y = [] /\ ClassificationMixin.init_score_value y = NaN) \/
  (y <> [] /\ ~ In 0 y /\ ClassificationMixin.init_score_value y = PInf) \/
  (y <> [] /\ ~ In 1 y /\ ClassificationMixin.init_score_value y = NInf) \/
  (In 0 y /\ In 1 y /\
   exists s, ClassificationMixin.init_score_value y = Fin s /\
             exp s = vmean y / (1 - vmean y) /\ 0 < vmean y < 1).
Proof.
  intros Hb. destruct (binary_vsum_bounds y Hb) as (Hr & H0 & H1).
  unfold ClassificationMixin.init_score_value, xdiv.
  destruct y as [|v y'] eqn:Ey.
  { left. split; [reflexivity|]. simpl.
    destruct (Req_dec_T 0 0); [|lra].
    destruct (Req_dec_T 0 0); [reflexivity|lra]. }
  rewrite <- Ey in *.
  assert (Hne : y <> []) by (rewrite Ey; discriminate).
  assert (Hn : 0 < INR (length y)).
  { apply lt_0_INR. rewrite Ey. simpl. lia. }
  right.
  destruct (Req_dec_T (INR (length y)) 0) as [E|_]; [lra|].
  set (p := vsum y / INR (length y)).
  assert (Hp : 0 <= p <= 1).
  { unfold p. split.
    - apply Rmult_le_pos; [lra|]. left. now apply Rinv_0_lt_compat.
    - apply (Rmult_le_reg_r (INR (length y))); [lra|].
      unfold Rdiv. rewrite Rmult_assoc, Rinv_l by lra. lra. }
  assert (Hp0 : p = 0 <-> vsum y = 0).
  { unfold p. split; intros E.
    - apply (Rmult_eq_compat_r (INR (length y))) in E.
      unfold Rdiv in E. rewrite Rmult_assoc, Rinv_l in E by lra. lra.
    - rewrite E. unfold Rdiv. ring. }
  assert (Hp1 : p = 1 <-> vsum y = INR (length y)).
  { unfold p. split; intros E.
    - apply (Rmult_eq_compat_r (INR (length y))) in E.
      unfold Rdiv in E. rewrite Rmult_assoc, Rinv_l in E by lra. lra.
    - rewrite E. field. lra. }
  destruct (Req_dec_T (1 - p) 0) as [E1|E1].
  - (* every label is 1 *)
    left. split; [exact Hne|]. split; [apply H1, Hp1; lra|].
    destruct (Req_dec_T p 0); [lra|].
    destruct (Rlt_dec 0 p); [reflexivity|lra].
  - right. destruct (Req_dec_T p 0) as [E0|E0].
    + (* every label is 0 *)
      left. split; [exact Hne|]. split; [apply H0, Hp0, E0|].
      unfold xlog. rewrite E0.
      replace (0 / (1 - 0)) with 0 by (field; lra).
      destruct (Rlt_dec 0 0); [lra|].
      destruct (Req_dec_T 0 0); [reflexivity|lra].
    + right.
      assert (Hq : 0 < p / (1 - p)).
      { apply Rdiv_lt_0_compat; lra. }
      assert (Hin0 : In 0 y).
      { destruct (in_dec Req_dec_T 0 y) as [Hi|Hi]; [exact Hi|].
        exfalso. apply E1. apply H1 in Hi. apply Hp1 in Hi. lra. }
      assert (Hin1 : In 1 y).
      { destruct (in_dec Req_dec_T 1 y) as [Hi|Hi]; [exact Hi|].
        exfalso. apply E0. apply H0 in Hi. now apply Hp0. }
      split; [exact Hin0|]. split; [exact Hin1|].
      exists (ln (p / (1 - p))). unfold xlog.
      destruct (Rlt_dec 0 (p / (1 - p))); [|lra].
      split; [reflexivity|]. split; [now apply exp_ln|].
      unfold vmean. fold p. lra.
Qed.

(** C9. On 0/1 labels the baseline score [log(p / (1 - p))] of the binary
    family is a finite number exactly when a 0 and a 1 both occur: when all
    labels are 1 the quotient divides by zero and the score is +inf, when
    all are 0 it is the logarithm of 0 and the score is -inf; [init_score]
    repeats this number once per example. *)
Theorem binary_init_score_finite_iff_both_classes :
  forall y : vec,
    binary_labels y ->
    (is_finite (ClassificationMixin.init_score_value y)
     <-> In 0 y /\ In 1 y) /\
    (y <> [] -> (forall v, In v y -> v = 1) ->
     ClassificationMixin.init_score_value y = PInf) /\
    (y <> [] -> (forall v, In v y -> v = 0) ->
     ClassificationMixin.init_score_value y = NInf) /\
    ClassificationMixin.init_score y
    = repeat (ClassificationMixin.init_score_value y) (length y).
Proof.
  intros y Hb.
  pose proof (init_score_value_cases y Hb) as Hc.
  split; [|split; [|split; [|reflexivity]]].
  - destruct Hc
      as [(Ey & E) | [(Hne & H0 & E) | [(Hne & H1 & E) | (H0 & H1 & s & E & _)]]];
      rewrite E; simpl; split; try tauto.
    intros [Hin _]. subst y. destruct Hin.
  - intros Hne Hall.
    destruct Hc
      as [(Ey & E) | [(_ & H0 & E) | [(_ & H1 & E) | (H0 & H1 & s & E & _)]]].
    + contradiction.
    + exact E.
    + exfalso. destruct y as [|v y']; [contradiction|].
      assert (v = 1) by (apply Hall; simpl; auto). subst v.
      apply H1. simpl; auto.
    + specialize (Hall 0 H0). lra.
  - intros Hne Hall.
    destruct Hc
      as [(Ey & E) | [(_ & H0 & E) | [(_ & H1 & E) | (H0 & H1 & s & E & _)]]].
    + contradiction.
    + exfalso. destruct y as [|v y']; [contradiction|].
      assert (v = 0) by (apply Hall; simpl; auto). subst v.
      apply H0. simpl; auto.
    + exact E.
    + specialize (Hall 1 H1). lra.
Qed.

Lemma binary_init_score_finite_iff_both_classes_witness :
  binary_labels [1; 1] /\
  ClassificationMixin.init_score_value [1; 1] = PInf.
Proof.
  assert (Hb : binary_labels [1; 1]).
  { intros v [<-|[<-|[]]]; right; reflexivity. }
  split; [exact Hb|].
  destruct (binary_init_score_finite_iff_both_classes [1; 1] Hb)
    as (_ & H1 & _).
  apply H1; [discriminate|].
  intros v [<-|[<-|[]]]; reflexivity.
Defined.

End BinaryBaseline.

(** ** C4: the assertions of the multi-class [init_score] *)

Section UniqueLabels.

Local Abbreviation keys := (map (@fst Z nat)).

Lemma insert_count_keys v l w :
  In w (keys (insert_count v l)) <-> w = v \/ In w (keys l).
Proof.
  induction l as [|[u c] l IH]; simpl.
  - intuition.
  - destruct (Z.ltb_spec v u); simpl; [intuition|].
    destruct (Z.eqb_spec v u); simpl.
    + subst. intuition.
    + rewrite IH. intuition.
Qed.

Lemma insert_count_sorted v l :
  StronglySorted Z.lt (keys l) -> StronglySorted Z.lt (keys (insert_count v l)).
Proof.
  induction l as [|[u c] l IH]; simpl; intros Hs.
  - repeat constructor.
  - inversion Hs as [|? ? Hs' Hall]; subst.
    destruct (Z.ltb_spec v u); simpl.
    + constructor; [exact Hs|]. constructor; [assumption|].
      rewrite Forall_forall in *. intros x Hx. specialize (Hall x Hx). lia.
    + destruct (Z.eqb_spec v u); simpl.
      * subst. constructor; assumption.
      * constructor; [now apply IH|].
        rewrite Forall_forall in *. intros x Hx.
        apply insert_count_keys in Hx. destruct Hx as [->|Hx];
          [lia | now apply Hall].
Qed.

Lemma count_for_absent v l : ~ In v (keys l) -> count_for v l = O.
Proof.
  induction l as [|[u c] l IH]; simpl; intros Hn; [reflexivity|].
  destruct (Z.eqb_spec u v); [exfalso; apply Hn; auto|].
  apply IH. intros Hin. apply Hn. auto.
Qed.

Lemma count_for_insert v l w :
  StronglySorted Z.lt (keys l) ->
  count_for w (insert_count v l)
  = if (w =? v)%Z then S (count_for w l) else count_for w l.
Proof.
  induction l as [|[u c] l IH]; cbn [insert_count count_for map fst]; intros Hs.
  - rewrite (Z.eqb_sym v w). destruct (Z.eqb_spec w v); reflexivity.
  - inversion Hs as [|? ? Hs' Hall]; subst.
    destruct (Z.ltb_spec v u); cbn [count_for].
    + rewrite (Z.eqb_sym v w). destruct (Z.eqb_spec w v) as [E|Hne].
      * subst w. destruct (Z.eqb_spec u v); [lia|].
        rewrite count_for_absent; [reflexivity|].
        intros Hin. rewrite Forall_forall in Hall. specialize (Hall v Hin). lia.
      * reflexivity.
    + destruct (Z.eqb_spec v u) as [E|Hne]; cbn [count_for].
      * subst u. rewrite (Z.eqb_sym v w).
        destruct (Z.eqb_spec w v); reflexivity.
      * destruct (Z.eqb_spec u w) as [E'|Hne'].
        -- subst w. destruct (Z.eqb_spec u v); [congruence|reflexivity].
        -- now apply IH.
Qed.

Lemma fst_split {A B : Type} (l : list (A * B)) : fst (split l) = map fst l.
Proof.
  induction l as [|[a b] l IH]; simpl; [reflexivity|].
  destruct (split l). simpl in *. now rewrite IH.
Qed.

Lemma snd_split {A B : Type} (l : list (A * B)) : snd (split l) = map snd l.
Proof.
  induction l as [|[a b] l IH]; simpl; [reflexivity|].
  destruct (split l). simpl in *. now rewrite IH.
Qed.

(** what [np.unique] returns *)
Lemma unique_spec (y : list Z) :
  let l := fold_right insert_count [] y in
  fst (unique y) = keys l /\ snd (unique y) = map snd l /\
  StronglySorted Z.lt (keys l) /\
  (forall v, In v (keys l) <-> In v y) /\
  (forall v, count_for v l = count_occ Z.eq_dec y v).
Proof.
  intros l. unfold unique. fold l. rewrite fst_split, snd_split.
  split; [reflexivity|]. split; [reflexivity|]. subst l.
  induction y as [|u y IH]; simpl.
  - split; [constructor|]. split; [tauto|reflexivity].
  - destruct IH as (Hs & Hin & Hc). split; [now apply insert_count_sorted|].
    split.
    + intros v. rewrite insert_count_keys, Hin. intuition.
    + intros v. rewrite count_for_insert by assumption. rewrite Hc.
      destruct (Z.eq_dec u v) as [->|Hne].
      * now rewrite Z.eqb_refl.
      * destruct (Z.eqb_spec v u); [congruence|reflexivity].
Qed.

Lemma count_for_In l v c :
  StronglySorted Z.lt (keys l) -> In (v, c) l -> count_for v l = c.
Proof.
  induction l as [|[u d] l IH]; simpl; intros Hs Hin; [contradiction|].
  inversion Hs as [|? ? Hs' Hall]; subst.
  destruct Hin as [E|Hin].
  - inversion E; subst. now rewrite Z.eqb_refl.
  - destruct (Z.eqb_spec u v) as [->|Hne]; [|now apply IH].
    exfalso. rewrite Forall_forall in Hall.
    specialize (Hall v (in_map fst _ _ Hin)). simpl in Hall. lia.
Qed.

Lemma counts_are_count_for l :
  StronglySorted Z.lt (keys l) ->
  map snd l = map (fun v => count_for v l) (keys l).
Proof.
  intros Hs. rewrite map_map. apply map_ext_in. intros [v c] Hin.
  simpl. symmetry. now apply count_for_In.
Qed.

Lemma insert_sorted_head v l :
  Forall (Z.lt v) l -> insert_sorted v l = v :: l.
Proof.
  destruct l as [|w l]; simpl; intros H; [reflexivity|].
  inversion H; subst. destruct (Z.leb_spec v w); [reflexivity|lia].
Qed.

Lemma sorted_of_sorted l : StronglySorted Z.lt l -> sorted l = l.
Proof.
  unfold sorted. induction l as [|v l IH]; simpl; intros Hs; [reflexivity|].
  inversion Hs; subst. rewrite IH by assumption.
  now apply insert_sorted_head.
Qed.

Lemma all_eq_refl l : all_eq l l = true.
Proof.
  unfold all_eq. induction l as [|v l IH]; simpl; [reflexivity|].
  now rewrite Z.eqb_refl.
Qed.

(** [init_score] fails exactly when the first assertion does *)
Lemma init_score_fails_iff k y :
  MultiClassificationMixin.init_score k y = None
  <-> length (fst (unique y)) <> k.
Proof.
  destruct (unique_spec y) as (Hk & _ & Hs & _).
  unfold MultiClassificationMixin.init_score.
  destruct (unique y) as [uv uc] eqn:E. cbn [fst] in *.
  rewrite Hk in *. clear Hk.
  rewrite sorted_of_sorted, all_eq_refl by assumption. cbn [negb].
  destruct (Nat.eqb_spec (length (keys (fold_right insert_count [] y))) k);
    cbn [negb]; split; intros H; try congruence; try discriminate.
Qed.

(** increasing integers in a window of [m] values *)
Lemma sorted_window l : forall (a : Z) (m : nat),
  StronglySorted Z.lt l ->
  (forall v, In v l -> (a <= v < a + Z.of_nat m)%Z) ->
  (length l <= m)%nat /\
  (length l = m -> l = map (fun i => (a + Z.of_nat i)%Z) (seq 0 m)).
Proof.
  induction l as [|x l IH]; intros a m Hs Hr.
  - simpl. split; [lia|]. intros <-. reflexivity.
  - inversion Hs as [|? ? Hs' Hall]; subst.
    assert (Hx : (a <= x < a + Z.of_nat m)%Z) by (apply Hr; simpl; auto).
    destruct m as [|m]; [lia|].
    destruct (IH (x + 1)%Z (Z.to_nat (a + Z.of_nat (S m) - (x + 1))) Hs')
      as [Hle Heq].
    { intros v Hv. rewrite Forall_forall in Hall. specialize (Hall v Hv).
      specialize (Hr v (or_intror Hv)). lia. }
    split; [simpl; lia|].
    intros Hlen. simpl in Hlen.
    assert (x = a) by lia. subst x.
    assert (Em : Z.to_nat (a + Z.of_nat (S m) - (a + 1)) = m) by lia.
    rewrite Em in Heq. rewrite (Heq ltac:(lia)).
    cbn [seq map]. f_equal; [f_equal; lia|].
    rewrite <- seq_shift, map_map. apply map_ext. intros i. lia.
Qed.

Lemma covers_iff_count k (y : list Z) :
  class_labels k y ->
  (length (fst (unique y)) = k
   <-> forall c, (0 <= c < Z.of_nat k)%Z -> In c y).
Proof.
  intros Hlab.
  destruct (unique_spec y) as (Hk & _ & Hs & Hin & _).
  rewrite Hk. set (uv := keys (fold_right insert_count [] y)) in *.
  assert (Hr : forall v, In v uv -> (0 <= v < 0 + Z.of_nat k)%Z).
  { intros v Hv. apply Hin in Hv. specialize (Hlab v Hv). lia. }
  destruct (sorted_window uv 0%Z k Hs Hr) as [Hle Heq].
  split.
  - intros Hlen c Hc. apply Hin. rewrite (Heq Hlen).
    apply in_map_iff. exists (Z.to_nat c). split; [lia|].
    apply in_seq. lia.
  - intros Hall.
    assert (Hge : (length (map Z.of_nat (seq 0 k)) <= length uv)%nat).
    { apply NoDup_incl_length.
      - apply Finite.Injective_map_NoDup; [|apply seq_NoDup].
        intros i j E. lia.
      - intros c Hc. apply in_map_iff in Hc. destruct Hc as (i & <- & Hi).
        apply in_seq in Hi. apply Hin, Hall. lia. }
    rewrite length_map, length_seq in Hge. lia.
Qed.

(** The claim of C4 fails on labels outside the classes: labels 1 and 2
    with two classes pass both assertions, although 0 never occurs. *)
Lemma init_score_accepts_shifted_labels :
  ~ (MultiClassificationMixin.init_score 2 [1; 2]%Z = None
     <-> ~ (forall v, In v [1; 2]%Z <-> (0 <= v < 2)%Z)).
Proof.
  intros [_ H].
  assert (Hn : MultiClassificationMixin.init_score 2 [1; 2]%Z = None).
  { apply H. intros Hall. specialize (Hall 2%Z).
    destruct Hall as [Hall _]. specialize (Hall ltac:(simpl; auto)). lia. }
  apply init_score_fails_iff in Hn. apply Hn. reflexivity.
Qed.

(** C4, amended. [init_score] fails exactly when the number of distinct
    label values differs from [n_classes] (its second assertion never
    fails); hence, on labels taken from {0, ..., n_classes - 1} as its
    docstring requires, it fails exactly when some class of this range does
    not occur. *)
Theorem multi_init_score_fails_iff_class_missing :
  forall (k : nat) (y : list Z),
    (MultiClassificationMixin.init_score k y = None
     <-> length (fst (unique y)) <> k) /\
    (class_labels k y ->
     (MultiClassificationMixin.init_score k y = None
      <-> ~ (forall c, (0 <= c < Z.of_nat k)%Z -> In c y))).
Proof.
  intros k y. split; [apply init_score_fails_iff|].
  intros Hlab. rewrite init_score_fails_iff.
  pose proof (covers_iff_count k y Hlab) as H. tauto.
Qed.

Lemma multi_init_score_fails_iff_class_missing_witness :
  class_labels 2 [0; 0]%Z /\
  MultiClassificationMixin.init_score 2 [0; 0]%Z = None.
Proof.
  assert (Hl : class_labels 2 [0; 0]%Z).
  { intros v [<-|[<-|[]]]; simpl; lia. }
  split; [exact Hl|].
  destruct (multi_init_score_fails_iff_class_missing 2 [0; 0]%Z) as [_ H].
  apply (H Hl). intros Hall.
  destruct (Hall 1%Z ltac:(simpl; lia)) as [E|[E|[]]]; discriminate.
Defined.

End UniqueLabels.

(** ** C10: the indices built from the labels *)

Section LabelIndices.

Lemma index_out_of_range len v :
  (Z.of_nat len <= v \/ v < - Z.of_nat len)%Z -> index len v = None.
Proof.
  intros H. unfold index.
  destruct (Z.leb_spec 0 v); destruct (Z.ltb_spec v (Z.of_nat len));
    destruct (Z.leb_spec (- Z.of_nat len) v); destruct (Z.ltb_spec v 0);
    simpl; try reflexivity; lia.
Qed.

Lemma index_wraps len v :
  (- Z.of_nat len <= v < 0)%Z ->
  index len v = Some (Z.to_nat (Z.of_nat len + v)).
Proof.
  intros H. unfold index.
  destruct (Z.leb_spec 0 v); [lia|].
  destruct (Z.leb_spec (- Z.of_nat len) v); [|lia].
  destruct (Z.ltb_spec v 0); [|lia]. reflexivity.
Qed.

Lemma resolve_bad_column nr nc rows cols v :
  In v cols -> index nc v = None -> resolve nr nc rows cols = None.
Proof.
  revert rows; induction cols as [|c cols IH]; intros rows Hin Hv;
    [contradiction|].
  destruct rows as [|r rows]; [reflexivity|]. simpl.
  destruct Hin as [->|Hin].
  - rewrite Hv. destruct (index nr r); reflexivity.
  - rewrite (IH rows Hin Hv).
    destruct (index nr r); [|reflexivity]. destruct (index nc c); reflexivity.
Qed.

Lemma reshape_F_length k a m : reshape_F k a = Some m -> length m = k.
Proof.
  unfold reshape_F. destruct k as [|k']; [discriminate|].
  destruct (Nat.eqb _ 0); [|discriminate].
  intros E.
  replace m with (chunks (length a / S k') (S k') a) by congruence.
  apply length_chunks.
Qed.

Lemma predictions_length k f pm :
  MultiClassificationMixin.predictions k f = Some pm -> length pm = k.
Proof.
  unfold MultiClassificationMixin.predictions.
  destruct (reshape_F k f) as [m|] eqn:E; [|discriminate].
  intros H.
  replace pm with (div_col (map (map exp) (sub_col m (max_axis1 m)))
                     (sum_axis1 (map (map exp) (sub_col m (max_axis1 m)))))
    by congruence.
  unfold div_col, sub_col.
  rewrite !length_map. now apply reshape_F_length with (a := f).
Qed.

(** a label beyond the classes makes all three functions raise *)
Lemma bad_label_raises {am : AnchorMixin} k (f : vec) (data : Dataset Z)
      (self : AnchorKookMultiClassificationObjective.Self) v :
  AnchorKookMultiClassificationObjective.n_classes self = k ->
  In v (get_label data) ->
  (Z.of_nat k <= v \/ v < - Z.of_nat k)%Z ->
  MultiClassificationMixin.loss k f data = None /\
  MultiClassificationMixin.grad k f data = None /\
  AnchorKookMultiClassificationObjective.residuals self f data = None.
Proof.
  intros Hk Hin Hv.
  pose proof (index_out_of_range k v Hv) as Hi.
  assert (Hpred : forall pm,
             MultiClassificationMixin.predictions k f = Some pm ->
             sub1_at pm (MultiClassificationMixin._indices (get_label data))
             = None).
  { intros pm E. unfold sub1_at, MultiClassificationMixin._indices.
    cbn [fst snd]. rewrite (predictions_length k f pm E).
    now rewrite (resolve_bad_column _ _ _ _ v Hin Hi). }
  split; [|split].
  - unfold MultiClassificationMixin.loss.
    destruct (reshape_F k f) as [m|] eqn:E; [|reflexivity].
    unfold take, MultiClassificationMixin._indices. cbn [fst snd].
    unfold sub_col. rewrite length_map, (reshape_F_length k f m E).
    now rewrite (resolve_bad_column _ _ _ _ v Hin Hi).
  - unfold MultiClassificationMixin.grad.
    destruct (MultiClassificationMixin.predictions k f) as [pm|] eqn:E;
      [|reflexivity].
    now rewrite (Hpred pm eq_refl).
  - unfold AnchorKookMultiClassificationObjective.residuals,
      AnchorKookMultiClassificationObjective.predictions,
      AnchorKookMultiClassificationObjective._indices.
    rewrite Hk.
    destruct (MultiClassificationMixin.predictions k f) as [pm|] eqn:E;
      [|reflexivity].
    now rewrite (Hpred pm eq_refl).
Qed.

(** The claim of C10 fails for negative labels: label -1 with two classes
    is outside {0, 1}, yet NumPy counts it from the end and the loss is
    computed. *)
Lemma negative_label_is_in_bounds :
  ~ (In (-1)%Z [(-1)%Z] -> ~ (0 <= -1 < 2)%Z ->
     MultiClassificationMixin.loss 2 [0; 0] (mkDataset [(-1)%Z] []) = None).
Proof.
  intros H.
  specialize (H (or_introl eq_refl) ltac:(lia)).
  discriminate H.
Qed.

(** C10, amended. With n labels that are class indices and n * n_classes
    scores, the index pairs of [_indices] all resolve inside the n x
    n_classes array, and the multi-class loss and gradient and the Kook
    multi-class residuals return a value.  A label >= n_classes or
    < -n_classes makes the three of them raise; a label in
    -n_classes .. -1 is counted from the end instead. *)
Theorem multi_class_indexing_total :
  forall (am : AnchorMixin) (n : nat) (f : vec) (data : Dataset Z)
         (self : AnchorKookMultiClassificationObjective.Self),
    let k := AnchorKookMultiClassificationObjective.n_classes self in
    ((0 < k)%nat -> class_labels k (get_label data) ->
     length (get_label data) = n -> length f = (n * k)%nat ->
     resolve n k (fst (MultiClassificationMixin._indices (get_label data)))
                 (snd (MultiClassificationMixin._indices (get_label data)))
     = Some (combine (seq 0 n) (map Z.to_nat (get_label data))) /\
     (forall rc, In rc (combine (seq 0 n) (map Z.to_nat (get_label data))) ->
                 (fst rc < n)%nat /\ (snd rc < k)%nat) /\
     (exists l, MultiClassificationMixin.loss k f data = Some l
                /\ length l = n) /\
     (exists g, MultiClassificationMixin.grad k f data = Some g
                /\ length g = (n * k)%nat) /\
     (exists r, AnchorKookMultiClassificationObjective.residuals self f data
                = Some r /\ length r = (n * k)%nat)) /\
    (forall v, In v (get_label data) ->
               (Z.of_nat k <= v \/ v < - Z.of_nat k)%Z ->
               MultiClassificationMixin.loss k f data = None /\
               MultiClassificationMixin.grad k f data = None /\
               AnchorKookMultiClassificationObjective.residuals self f data
               = None) /\
    (forall v, (- Z.of_nat k <= v < 0)%Z ->
               index k v = Some (Z.to_nat (Z.of_nat k + v))).
Proof.
  intros am n f data self k. split; [|split].
  - intros Hk Hlab Hy Hf. split; [|split; [|split; [|split]]].
    + unfold MultiClassificationMixin._indices. cbn [fst snd].
      rewrite resolve_seq by (auto; lia). now rewrite Hy.
    + intros [r c] Hin. apply in_combine_l in Hin as Hr.
      apply in_combine_r in Hin as Hc. apply in_seq in Hr.
      apply in_map_iff in Hc. destruct Hc as (v & <- & Hv).
      specialize (Hlab v Hv). cbn [fst snd]. lia.
    + destruct (multi_loss_spec n k data Hk Hy Hlab f Hf) as (l & E & Hl & _).
      now exists l.
    + destruct (multi_grad_spec n k data Hk Hy Hlab f Hf) as (g & E & Hg & _).
      now exists g.
    + destruct (kook_multi_residuals_spec n data self Hk Hy Hlab f Hf)
        as (rm & E & Hrm & _).
      exists (flatten_F rm). split; [exact E|].
      now apply length_concat_shaped.
  - intros v Hin Hv. now apply (bad_label_raises k f data self v).
  - intros v Hv. now apply index_wraps.
Qed.

Lemma multi_class_indexing_total_witness :
  (0 < 2)%nat /\ class_labels 2 [1%Z] /\
  exists l, MultiClassificationMixin.loss 2 [0; 0] (mkDataset [1%Z] [[1]])
            = Some l /\ length l = 1%nat.
Proof.
  assert (Hl : class_labels 2 [1%Z]).
  { intros v [<-|[]]; simpl; lia. }
  split; [lia|]. split; [exact Hl|].
  destruct (multi_class_indexing_total proj_one_column 1 [0; 0]
              (mkDataset [1%Z] [[1]])
              (AnchorKookMultiClassificationObjective.init 2 2 false))
    as [H _].
  destruct H as (_ & _ & Hloss & _); try reflexivity; [simpl; lia | exact Hl |].
  exact Hloss.
Defined.

End LabelIndices.

(** ** C8: predictions of the initial score *)

Section InitScoreRoundTrip.

Lemma nat_sum_indicator k v :
  (0 <= v < Z.of_nat k)%Z ->
  fold_right Nat.add O
    (map (fun c => if Z.eq_dec v (Z.of_nat c) then 1%nat else 0%nat) (seq 0 k))
  = 1%nat.
Proof.
  induction k as [|k IH]; intros Hv; [lia|].
  rewrite seq_S, map_app, fold_right_app. simpl.
  destruct (Z.eq_dec v (Z.of_nat k)) as [E|E].
  - assert (H0 : forall l, (forall c, In c l -> (c < k)%nat) ->
               fold_right Nat.add 1%nat
                 (map (fun c => if Z.eq_dec v (Z.of_nat c) then 1%nat else 0%nat) l)
               = 1%nat).
    { induction l as [|c l IHl]; intros Hl; [reflexivity|]. simpl.
      rewrite IHl by (intros; apply Hl; simpl; auto).
      destruct (Z.eq_dec v (Z.of_nat c)) as [E'|]; [|reflexivity].
      specialize (Hl c (or_introl eq_refl)). lia. }
    apply H0. intros c Hc. apply in_seq in Hc. lia.
  - rewrite Nat.add_0_r in *. apply IH. lia.
Qed.

Lemma nat_sum_add (g h : nat -> nat) l :
  fold_right Nat.add O (map (fun c => (g c + h c)%nat) l)
  = (fold_right Nat.add O (map g l) + fold_right Nat.add O (map h l))%nat.
Proof. induction l as [|c l IH]; simpl; [reflexivity|]. rewrite IH. lia. Qed.

Lemma sum_class_counts k (y : list Z) :
  class_labels k y ->
  fold_right Nat.add O (map (class_count y) (seq 0 k)) = length y.
Proof.
  induction y as [|v y IH]; intros Hlab.
  - unfold class_count. simpl. induction (seq 0 k); simpl; auto.
  - rewrite (map_ext (class_count (v :: y))
               (fun c => ((if Z.eq_dec v (Z.of_nat c) then 1 else 0)
                          + class_count y c)%nat)).
    + rewrite (nat_sum_add
                 (fun c => if Z.eq_dec v (Z.of_nat c) then 1%nat else 0%nat)).
      rewrite nat_sum_indicator by (apply Hlab; simpl; auto).
      rewrite IH by (intros w Hw; apply Hlab; simpl; auto). reflexivity.
    + intros c. unfold class_count. simpl.
      destruct (Z.eq_dec v (Z.of_nat c)); reflexivity.
Qed.

Lemma bigsum_INR k (g : nat -> nat) :
  bigsum k (fun c => INR (g c)) = INR (fold_right Nat.add O (map g (seq 0 k))).
Proof.
  induction k as [|k IH]; [reflexivity|].
  rewrite bigsum_S, IH, seq_S, map_app, fold_right_app. simpl.
  rewrite Nat.add_0_r.
  generalize (map g (seq 0 k)) as l. induction l as [|x l IHl]; simpl.
  - lra.
  - rewrite !plus_INR, <- IHl. lra.
Qed.

(** with every class present, [np.unique] lists the classes in order
    together with their counts *)
Lemma unique_of_covering k (y : list Z) :
  class_labels k y -> (forall c, (0 <= c < Z.of_nat k)%Z -> In c y) ->
  unique y = (map Z.of_nat (seq 0 k), map (class_count y) (seq 0 k)).
Proof.
  intros Hlab Hcov.
  destruct (unique_spec y) as (Hk & Hc & Hs & Hin & Hcnt).
  set (l := fold_right insert_count [] y) in *.
  assert (Hlen : length (map fst l) = k).
  { rewrite <- Hk. now apply covers_iff_count. }
  assert (Hr : forall v, In v (map fst l) -> (0 <= v < 0 + Z.of_nat k)%Z).
  { intros v Hv. apply Hin in Hv. specialize (Hlab v Hv). lia. }
  destruct (sorted_window (map fst l) 0%Z k Hs Hr) as [_ Heq].
  specialize (Heq Hlen).
  assert (Hkeys : map fst l = map Z.of_nat (seq 0 k)).
  { rewrite Heq. apply map_ext. intros i. lia. }
  rewrite (surjective_pairing (unique y)), Hk, Hc. f_equal; [exact Hkeys|].
  rewrite (counts_are_count_for l Hs), Hkeys, map_map.
  apply map_ext. intros c. unfold class_count. apply Hcnt.
Qed.

Lemma shaped_tile odds n :
  well_shaped (MultiClassificationMixin.tile odds n) n (length odds) /\
  forall i c, (i < n)%nat -> (c < length odds)%nat ->
    entry (MultiClassificationMixin.tile odds n) i c = nth c odds 0.
Proof.
  unfold MultiClassificationMixin.tile, well_shaped, entry, mat, vec.
  split; [split|].
  - now rewrite length_map.
  - intros c Hc. rewrite (nth_map_d (fun o : R => repeat o n) odds c 0 []) by assumption.
    apply repeat_length.
  - intros i c Hi Hc.
    rewrite (nth_map_d (fun o : R => repeat o n) odds c 0 []) by assumption.
    now apply nth_repeat_lt.
Qed.

Lemma multi_round_trip k (y : list Z) :
  (0 < k)%nat -> class_labels k y ->
  (forall c, (0 <= c < Z.of_nat k)%Z -> In c y) ->
  exists s pm,
    MultiClassificationMixin.init_score k y = Some s /\
    MultiClassificationMixin.predictions k s = Some pm /\
    well_shaped pm (length y) k /\
    forall i c, (i < length y)%nat -> (c < k)%nat ->
      entry pm i c = INR (class_count y c) / INR (length y).
Proof.
  intros Hk Hlab Hcov.
  set (n := length y).
  assert (Hn : (0 < n)%nat).
  { specialize (Hcov 0%Z ltac:(lia)). unfold n.
    destruct y; [contradiction | simpl; lia]. }
  assert (HnR : 0 < INR n) by now apply lt_0_INR.
  unfold MultiClassificationMixin.init_score.
  rewrite (unique_of_covering k y Hlab Hcov).
  rewrite length_map, length_seq, Nat.eqb_refl. cbn [negb].
  rewrite sorted_of_sorted, all_eq_refl.
  2:{ destruct (unique_spec y) as (Hku & _ & Hs & _).
      rewrite (unique_of_covering k y Hlab Hcov) in Hku. cbn [fst] in Hku.
      now rewrite Hku. }
  cbn [negb]. rewrite (sum_class_counts k y Hlab). fold n.
  set (odds := map (fun c => INR c / INR n) (map (class_count y) (seq 0 k))).
  assert (Hol : length odds = k).
  { unfold odds. now rewrite !length_map, length_seq. }
  assert (Hoc : forall c, (c < k)%nat ->
             nth c odds 0 = INR (class_count y c) / INR n).
  { intros c Hc. unfold odds. rewrite map_map.
    rewrite (nth_map_d _ (seq 0 k) c O 0) by (now rewrite length_seq).
    now rewrite seq_nth. }
  assert (Hpos : forall c, (c < k)%nat -> 0 < nth c odds 0).
  { intros c Hc. rewrite Hoc by assumption.
    apply Rdiv_lt_0_compat; [|exact HnR]. apply lt_0_INR.
    unfold class_count. apply count_occ_In. apply Hcov. lia. }
  destruct (shaped_tile odds n) as [Hts Hte]. rewrite Hol in Hts, Hte.
  set (s := map ln (flatten_F (MultiClassificationMixin.tile odds n))).
  assert (Hsl : length s = (n * k)%nat).
  { unfold s, flatten_F. rewrite length_map.
    now apply length_concat_shaped. }
  assert (Hsc : forall i c, (i < n)%nat -> (c < k)%nat ->
             score_of n s i c = ln (nth c odds 0)).
  { intros i c Hi Hc. unfold score_of, s, flatten_F.
    rewrite nth_map0
      by (rewrite (length_concat_shaped _ n k); auto; nia).
    rewrite (nth_concat_shaped _ n k) by assumption.
    now rewrite Hte. }
  destruct (predictions_spec n k s Hk Hsl) as (pm & E & Hpm & Hpe).
  exists s, pm. split; [reflexivity|]. split; [exact E|].
  split; [exact Hpm|].
  intros i c Hi Hc. rewrite Hpe by assumption. unfold softmax.
  rewrite Hsc by assumption. rewrite exp_ln by now apply Hpos.
  rewrite (bigsum_ext k _ (fun c' => / INR n * INR (class_count y c'))).
  - rewrite bigsum_scal, bigsum_INR, (sum_class_counts k y Hlab). fold n.
    rewrite Hoc by assumption. field. lra.
  - intros c' Hc'. rewrite Hsc by assumption.
    rewrite exp_ln by now apply Hpos. rewrite Hoc by assumption.
    unfold Rdiv. ring.
Qed.

Lemma binary_round_trip (y : vec) :
  binary_labels y -> In 0 y -> In 1 y ->
  exists s,
    ClassificationMixin.init_score y = repeat (Fin s) (length y) /\
    ClassificationMixin.predictions (repeat s (length y))
    = repeat (vmean y) (length y).
Proof.
  intros Hb H0 H1.
  destruct (init_score_value_cases y Hb)
    as [(Ey & _) | [(_ & Hn & _) | [(_ & Hn & _) | (_ & _ & s & E & He & Hp)]]];
    try contradiction.
  { subst y. destruct H0. }
  exists s. unfold ClassificationMixin.init_score. rewrite E.
  split; [reflexivity|].
  unfold ClassificationMixin.predictions. rewrite map_repeat. f_equal.
  unfold ClassificationMixin.sigmoid. rewrite exp_Ropp, He. field. lra.
Qed.

(** C8. Feeding the initial score back through the predictions gives the
    empirical class frequencies: for 0/1 labels with both values present
    every binary prediction is the mean label, and for labels that are
    exactly the classes 0 .. k-1, k > 0, every row of the multi-class
    predictions is the vector of class frequencies. *)
Theorem init_score_round_trip :
  (forall y : vec,
      binary_labels y -> In 0 y -> In 1 y ->
      exists s,
        ClassificationMixin.init_score y = repeat (Fin s) (length y) /\
        ClassificationMixin.predictions (repeat s (length y))
        = repeat (vmean y) (length y)) /\
  (forall (k : nat) (y : list Z),
      (0 < k)%nat -> class_labels k y ->
      (forall c, (0 <= c < Z.of_nat k)%Z -> In c y) ->
      exists s pm,
        MultiClassificationMixin.init_score k y = Some s /\
        MultiClassificationMixin.predictions k s = Some pm /\
        well_shaped pm (length y) k /\
        forall i c, (i < length y)%nat -> (c < k)%nat ->
          entry pm i c = INR (class_count y c) / INR (length y)).
Proof.
  split; [exact binary_round_trip | exact multi_round_trip].
Qed.

Lemma init_score_round_trip_witness :
  binary_labels [0; 1; 1] /\ In 0 [0; 1; 1] /\ In 1 [0; 1; 1] /\
  exists s,
    ClassificationMixin.predictions (repeat s 3) = repeat (vmean [0; 1; 1]) 3.
Proof.
  assert (Hb : binary_labels [0; 1; 1]).
  { intros v [<-|[<-|[<-|[]]]]; [left|right|right]; reflexivity. }
  assert (H0 : In 0 [0; 1; 1]) by (simpl; auto).
  assert (H1 : In 1 [0; 1; 1]) by (simpl; auto).
  split; [exact Hb|]. split; [exact H0|]. split; [exact H1|].
  destruct init_score_round_trip as [HB _].
  destruct (HB [0; 1; 1] Hb H0 H1) as (s & _ & E).
  exists s. exact E.
Defined.

End InitScoreRoundTrip.

(** * Further properties of the code *)

(** * Further properties of the code *)

(** ** The binary family *)

Section BinaryFamilyFacts.

Local Abbreviation D := derivable_pt_lim.

Lemma ln_mono x y : 0 < x -> x <= y -> ln x <= ln y.
Proof.
  intros Hx [H| ->]; [left; now apply ln_increasing | right; reflexivity].
Qed.

(** X1. For scores and labels of one length the binary loss of an example
    is never negative and never below the signed score (1 - 2 y) f: below
    neither -f for label 1 nor f for label 0. *)
Theorem binary_loss_dominates_margin :
  forall (f : vec) (data : Dataset R) (i : nat),
    length f = length (get_label data) -> (i < length f)%nat ->
    let s := (-2 * nth i (get_label data) 0 + 1) * nth i f 0 in
    let l := nth i (ClassificationMixin.loss f data) 0 in
    0 <= l /\ s <= l.
Proof.
  intros f data i Hlen Hi s l.
  assert (Hl : l = ln (1 + exp s)).
  { unfold l, s, ClassificationMixin.loss.
    now rewrite (nth_map2 _ _ _ _ 0 0) by lia. }
  pose proof (exp_pos s) as Hs.
  rewrite Hl. split.
  - rewrite <- ln_1. apply ln_mono; lra.
  - rewrite <- (ln_exp s) at 1. apply ln_mono; lra.
Qed.

Lemma binary_loss_dominates_margin_witness :
  (-2 * nth 0 [1] 0 + 1) * nth 0 [-3] 0
  <= nth 0 (ClassificationMixin.loss [-3] (mkDataset [1] [])) 0.
Proof.
  apply (binary_loss_dominates_margin [-3] (mkDataset [1] []) 0%nat).
  - reflexivity.
  - simpl; lia.
Defined.

(** X2. For scores and labels of one length the binary Hessian is the
    derivative of the binary gradient in the score, and lies between 0 and
    1/4. *)
Theorem binary_hess_is_derivative_of_grad :
  forall (f : vec) (data : Dataset R) (i : nat),
    length f = length (get_label data) -> (i < length f)%nat ->
    let h := nth i (ClassificationMixin.hess f data) 0 in
    D (fun t => nth i (ClassificationMixin.grad (upd f i t) data) 0)
      (nth i f 0) h /\
    0 <= h <= 1 / 4.
Proof.
  intros f data i Hlen Hf h.
  assert (Hy : (i < length (get_label data))%nat) by lia.
  assert (Hh : h = ClassificationMixin.sigmoid (nth i f 0)
                   * (1 - ClassificationMixin.sigmoid (nth i f 0))).
  { unfold h. rewrite binary_hess_formula. now rewrite nth_map0. }
  split.
  - apply (D_ext (fun t => ClassificationMixin.sigmoid t
                           - nth i (get_label data) 0)).
    + intros t. unfold ClassificationMixin.grad,
        ClassificationMixin.predictions.
      rewrite nth_vsub by (rewrite ?length_map, ?length_upd; lia).
      rewrite nth_map0 by (rewrite length_upd; lia).
      rewrite nth_upd, Nat.eqb_refl by lia. reflexivity.
    + rewrite Hh. eapply D_val.
      * apply D_minus; [apply D_sigmoid | apply D_const].
      * ring.
  - rewrite Hh.
    pose proof (sigmoid_range (nth i f 0)) as [H0 H1].
    set (s := ClassificationMixin.sigmoid (nth i f 0)) in *.
    split; [nra|]. pose proof (pow2_ge_0 (s - 1 / 2)). nra.
Qed.

Lemma binary_hess_is_derivative_of_grad_witness :
  0 <= nth 0 (ClassificationMixin.hess [0] (mkDataset [1] [])) 0 <= 1 / 4.
Proof.
  apply (binary_hess_is_derivative_of_grad [0] (mkDataset [1] []) 0%nat);
    [reflexivity | simpl; lia].
Defined.

(** X3. For scores and labels of one length the binary gradient of an
    example lies between -1 and 0 when its label is 1 and between 0 and 1
    when its label is 0. *)
Theorem binary_grad_sign :
  forall (f : vec) (data : Dataset R) (i : nat),
    length f = length (get_label data) -> (i < length f)%nat ->
    let g := nth i (ClassificationMixin.grad f data) 0 in
    (nth i (get_label data) 0 = 1 -> -1 <= g <= 0) /\
    (nth i (get_label data) 0 = 0 -> 0 <= g <= 1).
Proof.
  intros f data i Hlen Hf g.
  assert (Hy : (i < length (get_label data))%nat) by lia.
  assert (Hg : g = ClassificationMixin.sigmoid (nth i f 0)
                   - nth i (get_label data) 0).
  { unfold g, ClassificationMixin.grad, ClassificationMixin.predictions.
    rewrite nth_vsub by (rewrite ?length_map; lia).
    now rewrite nth_map0. }
  pose proof (sigmoid_range (nth i f 0)) as [H0 H1].
  split; intros E; rewrite Hg, E; lra.
Qed.

Lemma binary_grad_sign_witness :
  -1 <= nth 0 (ClassificationMixin.grad [0] (mkDataset [1] [])) 0 <= 0.
Proof.
  destruct (binary_grad_sign [0] (mkDataset [1] []) 0%nat) as [H _];
    [reflexivity | simpl; lia |].
  apply H. reflexivity.
Defined.

End BinaryFamilyFacts.

(** ** The multi-class family *)

Section MultiFamilyFacts.

Local Abbreviation D := derivable_pt_lim.

Lemma bigsum_minus n g h :
  bigsum n (fun i => g i - h i) = bigsum n g - bigsum n h.
Proof.
  induction n as [|n IH]; [rewrite !bigsum_0; lra|].
  rewrite !bigsum_S, IH; lra.
Qed.

Lemma bigsum_swap n k (g : nat -> nat -> R) :
  bigsum n (fun i => bigsum k (fun c => g i c))
  = bigsum k (fun c => bigsum n (fun i => g i c)).
Proof.
  induction n as [|n IH].
  - rewrite bigsum_0. symmetry.
    rewrite (bigsum_ext k _ (fun _ => 0)) by (intros; apply bigsum_0).
    apply bigsum_const0.
  - rewrite bigsum_S, IH, <- bigsum_plus.
    apply bigsum_ext; intros c _. now rewrite bigsum_S.
Qed.

Lemma bigsum_onehot k (y : list Z) i :
  class_labels k y -> (i < length y)%nat -> bigsum k (onehot y i) = 1.
Proof.
  intros Hc Hi. pose proof (nth_label_class k y i Hc Hi) as Hl.
  rewrite <- (bigsum_delta k (Z.to_nat (nth i y 0%Z)) (fun _ => 1)) by assumption.
  apply bigsum_ext; intros c _. unfold onehot.
  rewrite (Nat.eqb_sym c). reflexivity.
Qed.

Lemma residual_row_sum n k (y : list Z) f i :
  (0 < k)%nat -> class_labels k y -> length y = n -> (i < n)%nat ->
  bigsum k (fun c => class_prob n k f i c - onehot y i c) = 0.
Proof.
  intros Hk Hc Hy Hi. rewrite bigsum_minus.
  unfold class_prob. rewrite softmax_sum by assumption.
  rewrite bigsum_onehot by (auto; lia). lra.
Qed.

(** X4. With n_classes = k > 0, [predictions] raises exactly when the number
    of scores is not a multiple of k, and then [loss], [grad] and [hess]
    raise as well; otherwise it returns an array with len(f) / k rows and k
    columns. *)
Theorem multi_predictions_defined_iff_divisible :
  forall (k : nat) (f : vec) (data : Dataset Z),
    (0 < k)%nat ->
    (MultiClassificationMixin.predictions k f = None
     <-> (length f mod k)%nat <> 0%nat) /\
    (MultiClassificationMixin.predictions k f = None ->
     MultiClassificationMixin.loss k f data = None /\
     MultiClassificationMixin.grad k f data = None /\
     MultiClassificationMixin.hess k f data = None) /\
    (forall pm, MultiClassificationMixin.predictions k f = Some pm ->
                well_shaped pm (length f / k) k).
Proof.
  intros k f data Hk.
  assert (Hiff : MultiClassificationMixin.predictions k f = None
                 <-> (length f mod k)%nat <> 0%nat).
  { unfold MultiClassificationMixin.predictions, reshape_F.
    destruct k as [|k']; [lia|].
    destruct (Nat.eqb_spec (length f mod S k') 0) as [E|E].
    - split; [discriminate | contradiction].
    - split; auto. }
  split; [exact Hiff|]. split.
  - intros Hn. apply Hiff in Hn.
    assert (Hr : reshape_F k f = None).
    { unfold reshape_F. destruct k as [|k']; [reflexivity|].
      destruct (Nat.eqb_spec (length f mod S k') 0); [contradiction|reflexivity]. }
    unfold MultiClassificationMixin.loss, MultiClassificationMixin.grad,
      MultiClassificationMixin.hess, MultiClassificationMixin.predictions.
    rewrite Hr. auto.
  - intros pm Hp.
    destruct (Nat.eq_dec (length f mod k) 0) as [E|E].
    + assert (Hf : length f = (length f / k * k)%nat).
      { rewrite Nat.mul_comm. apply Nat.Div0.div_exact. exact E. }
      destruct (predictions_spec (length f / k) k f Hk Hf) as (pm' & Hp' & Hs & _).
      congruence.
    + apply Hiff in E. congruence.
Qed.

Lemma multi_predictions_defined_iff_divisible_witness :
  MultiClassificationMixin.predictions 2 [0; 0; 0] = None
  <-> (length [0; 0; 0] mod 2)%nat <> 0%nat.
Proof.
  apply (multi_predictions_defined_iff_divisible 2 [0; 0; 0] (mkDataset [] [])).
  lia.
Defined.

(** X5. For every example the entries of the multi-class gradient sum to zero
    over the classes. *)
Theorem multi_grad_sums_to_zero_over_classes :
  forall (n k : nat) (data : Dataset Z) (f : vec),
    (0 < k)%nat -> length (get_label data) = n ->
    class_labels k (get_label data) -> length f = (n * k)%nat ->
    exists g,
      MultiClassificationMixin.grad k f data = Some g /\
      forall i, (i < n)%nat -> bigsum k (fun c => nth (c * n + i) g 0) = 0.
Proof.
  intros n k data f Hk Hy Hc Hf.
  destruct (multi_grad_spec n k data Hk Hy Hc f Hf) as (g & Hg & _ & Hgi).
  exists g. split; [assumption|]. intros i Hi.
  rewrite (bigsum_ext k _ (fun c => class_prob n k f i c
                                    - onehot (get_label data) i c))
    by (intros c Hc'; now apply Hgi).
  now apply residual_row_sum.
Qed.

Lemma multi_grad_sums_to_zero_over_classes_witness :
  exists g,
    MultiClassificationMixin.grad 2 [0; 0] (mkDataset [1%Z] []) = Some g /\
    forall i, (i < 1)%nat -> bigsum 2 (fun c => nth (c * 1 + i) g 0) = 0.
Proof.
  apply (multi_grad_sums_to_zero_over_classes 1 2 (mkDataset [1%Z] []) [0; 0]).
  - lia.
  - reflexivity.
  - intros v [<-|[]]; simpl; lia.
  - reflexivity.
Defined.

(** X6. For labels in 0..k-1 and n * k scores the multi-class loss of an
    example is never negative and never below the gap between the score of
    any class and the score of the label. *)
Theorem multi_loss_dominates_score_gaps :
  forall (n k : nat) (data : Dataset Z) (f : vec),
    (0 < k)%nat -> length (get_label data) = n ->
    class_labels k (get_label data) -> length f = (n * k)%nat ->
    exists l,
      MultiClassificationMixin.loss k f data = Some l /\
      length l = n /\
      forall i, (i < n)%nat ->
        0 <= nth i l 0 /\
        forall c, (c < k)%nat ->
          score_of n f i c
          - score_of n f i (Z.to_nat (nth i (get_label data) 0%Z))
          <= nth i l 0.
Proof.
  intros n k data f Hk Hy Hc Hf.
  destruct (multi_loss_spec n k data Hk Hy Hc f Hf) as (l & Hl & Hll & Hli).
  exists l. split; [assumption|]. split; [assumption|].
  intros i Hi.
  assert (Hlab : (Z.to_nat (nth i (get_label data) 0%Z) < k)%nat)
    by (apply nth_label_class; auto; lia).
  assert (Hgap : forall c, (c < k)%nat ->
            score_of n f i c
            - score_of n f i (Z.to_nat (nth i (get_label data) 0%Z))
            <= nth i l 0).
  { intros c Hck. rewrite Hli by assumption.
    assert (Hle : exp (score_of n f i c)
                  <= bigsum k (fun c' => exp (score_of n f i c'))).
    { rewrite (bigsum_split k c _ Hck).
      assert (0 <= bigsum k (fun i0 => if Nat.eqb i0 c then 0
                                       else exp (score_of n f i i0))).
      { apply bigsum_nonneg. intros c' _.
        destruct (Nat.eqb c' c); [lra | left; apply exp_pos]. }
      lra. }
    pose proof (ln_mono _ _ (exp_pos (score_of n f i c)) Hle) as H.
    rewrite ln_exp in H. lra. }
  split; [|exact Hgap].
  specialize (Hgap _ Hlab). lra.
Qed.

Lemma multi_loss_dominates_score_gaps_witness :
  exists l,
    MultiClassificationMixin.loss 2 [3; 0] (mkDataset [1%Z] []) = Some l /\
    length l = 1%nat /\
    forall i, (i < 1)%nat ->
      0 <= nth i l 0 /\
      forall c, (c < 2)%nat ->
        score_of 1 [3; 0] i c
        - score_of 1 [3; 0] i (Z.to_nat (nth i [1%Z] 0%Z))
        <= nth i l 0.
Proof.
  apply (multi_loss_dominates_score_gaps 1 2 (mkDataset [1%Z] []) [3; 0]).
  - lia.
  - reflexivity.
  - intros v [<-|[]]; simpl; lia.
  - reflexivity.
Defined.

(** X7. With at least two classes the multi-class [hess] is never negative,
    and the derivative of a gradient entry in its own score is [factor]
    times the matching [hess] entry: [hess] is the diagonal second
    derivative of the loss scaled by n_classes / (n_classes - 1). *)
Theorem multi_hess_is_scaled_derivative_of_grad :
  forall (n k : nat) (data : Dataset Z) (f : vec) (i c : nat),
    (1 < k)%nat -> length (get_label data) = n ->
    class_labels k (get_label data) -> length f = (n * k)%nat ->
    (i < n)%nat -> (c < k)%nat ->
    exists h,
      MultiClassificationMixin.hess k f data = Some h /\
      length h = (n * k)%nat /\
      0 <= nth (c * n + i) h 0 /\
      D (fun t => coordinate
                    (MultiClassificationMixin.grad k (upd f (c * n + i) t) data)
                    (c * n + i))
        (nth (c * n + i) f 0)
        (MultiClassificationMixin.factor k * nth (c * n + i) h 0).
Proof.
  intros n k data f i c Hk Hy Hc Hf Hi Hck.
  assert (Hk0 : (0 < k)%nat) by lia.
  assert (Hj : (c * n + i < n * k)%nat) by nia.
  destruct (predictions_spec n k f Hk0 Hf) as (pm & Hp & Hs & Hpe).
  pose proof (length_concat_shaped pm n k Hs) as Hlen.
  set (z0 := score_of n f i).
  set (p := softmax k z0 c).
  assert (Hp0 : 0 < p) by (apply softmax_pos; assumption).
  assert (Hp1 : p < 1) by (apply softmax_lt_one; assumption).
  assert (HK : 1 < INR k) by (change 1 with (INR 1); apply lt_INR; lia).
  eexists. split.
  { rewrite multi_hess_formula by lia. rewrite Hp. reflexivity. }
  assert (Hn : nth (c * n + i)
                 (map (fun p => p * (1 - p) * INR k / (INR k - 1))
                      (flatten_F pm)) 0
               = p * (1 - p) * INR k / (INR k - 1)).
  { unfold flatten_F. rewrite nth_map0 by lia.
    rewrite (nth_concat_shaped pm n k) by assumption.
    rewrite Hpe by assumption. reflexivity. }
  split; [|split].
  - unfold flatten_F. now rewrite length_map.
  - rewrite Hn. left.
    apply Rmult_lt_0_compat; [|apply Rinv_0_lt_compat; lra].
    apply Rmult_lt_0_compat; [|lra]. apply Rmult_lt_0_compat; lra.
  - rewrite Hn.
    apply (D_ext (fun t => softmax k (with_score z0 c t) c
                           - onehot (get_label data) i c)).
    + intros t.
      assert (Hf' : length (upd f (c * n + i) t) = (n * k)%nat)
        by now rewrite length_upd.
      destruct (multi_grad_spec n k data Hk0 Hy Hc _ Hf') as (g & Hg & _ & Hgi).
      rewrite Hg. cbn [coordinate]. rewrite Hgi by assumption.
      f_equal. apply softmax_ext; [|assumption].
      intros c' Hc'. rewrite (score_of_upd n k) by assumption.
      rewrite Nat.eqb_refl. cbn [andb]. reflexivity.
    + assert (Hsame : softmax k (with_score z0 c (nth (c * n + i) f 0)) c = p).
      { apply softmax_ext; [|assumption]. intros c' _. unfold with_score.
        destruct (Nat.eqb_spec c' c) as [->|]; reflexivity. }
      eapply D_val.
      * apply D_minus; [apply (D_softmax k c z0 Hck c) | apply D_const].
      * rewrite Nat.eqb_refl, Hsame.
        unfold MultiClassificationMixin.factor. field. lra.
Qed.

Lemma multi_hess_is_scaled_derivative_of_grad_witness :
  exists h,
    MultiClassificationMixin.hess 2 [0; 0] (mkDataset [1%Z] []) = Some h /\
    length h = (1 * 2)%nat /\
    0 <= nth (0 * 1 + 0) h 0 /\
    D (fun t => coordinate
                  (MultiClassificationMixin.grad 2 (upd [0; 0] (0 * 1 + 0) t)
                     (mkDataset [1%Z] []))
                  (0 * 1 + 0))
      (nth (0 * 1 + 0) [0; 0] 0)
      (MultiClassificationMixin.factor 2 * nth (0 * 1 + 0) h 0).
Proof.
  apply (multi_hess_is_scaled_derivative_of_grad
           1 2 (mkDataset [1%Z] []) [0; 0] 0 0).
  - lia.
  - reflexivity.
  - intros v [<-|[]]; simpl; lia.
  - reflexivity.
  - lia.
  - lia.
Defined.

Lemma score_of_shifted n k f s i c :
  length f = (n * k)%nat -> length s = n -> (i < n)%nat -> (c < k)%nat ->
  score_of n (vadd f (flatten_F (repeat s k))) i c
  = score_of n f i c - (- nth i s 0).
Proof.
  intros Hf Hs Hi Hc.
  assert (Hsh : well_shaped (repeat s k) n k).
  { split; [apply repeat_length|]. intros c' Hc'.
    now rewrite nth_repeat_lt. }
  unfold score_of, flatten_F.
  rewrite nth_vadd
    by (rewrite ?(length_concat_shaped _ n k Hsh); nia).
  rewrite (nth_concat_shaped _ n k) by assumption.
  unfold entry. rewrite nth_repeat_lt by assumption. ring.
Qed.

Lemma flat_index_split n k j :
  (j < n * k)%nat ->
  exists i c, (i < n)%nat /\ (c < k)%nat /\ j = (c * n + i)%nat.
Proof.
  intros Hj. assert (Hn : (0 < n)%nat) by nia.
  exists (j mod n)%nat, (j / n)%nat.
  split; [apply Nat.mod_upper_bound; lia|]. split.
  - apply Nat.Div0.div_lt_upper_bound. lia.
  - rewrite (Nat.div_mod_eq j n) at 1. lia.
Qed.

Section Shifted.

Variables (n k : nat) (data : Dataset Z) (f s : vec).
Hypothesis Hk : (0 < k)%nat.
Hypothesis Hy : length (get_label data) = n.
Hypothesis Hc : class_labels k (get_label data).
Hypothesis Hf : length f = (n * k)%nat.
Hypothesis Hs : length s = n.

Local Abbreviation f' := (vadd f (flatten_F (repeat s k))).

Lemma length_shifted : length f' = (n * k)%nat.
Proof.
  assert (Hsh : well_shaped (repeat s k) n k).
  { split; [apply repeat_length|]. intros c' Hc'.
    now rewrite nth_repeat_lt. }
  apply length_vadd; [assumption|].
  apply (length_concat_shaped _ n k Hsh).
Qed.

Lemma softmax_shifted i c :
  (i < n)%nat -> (c < k)%nat ->
  softmax k (score_of n f' i) c = softmax k (score_of n f i) c.
Proof.
  intros Hi Hck.
  rewrite (softmax_ext k (score_of n f' i)
             (fun c' => score_of n f i c' - (- nth i s 0)) c);
    [| intros c' Hc'; now apply score_of_shifted | assumption].
  unfold softmax at 1. now apply softmax_shift.
Qed.

Lemma multi_predictions_shifted :
  MultiClassificationMixin.predictions k f'
  = MultiClassificationMixin.predictions k f.
Proof.
  destruct (predictions_spec n k f Hk Hf) as (pm & Hp & Hpm & Hpe).
  destruct (predictions_spec n k f' Hk length_shifted)
    as (pm' & Hp' & Hpm' & Hpe').
  rewrite Hp, Hp'. f_equal. apply (mat_ext2 _ _ n k); auto.
  intros i c Hi Hck. rewrite Hpe, Hpe' by assumption.
  now apply softmax_shifted.
Qed.

Lemma multi_loss_shifted :
  MultiClassificationMixin.loss k f' data
  = MultiClassificationMixin.loss k f data.
Proof.
  destruct (multi_loss_spec n k data Hk Hy Hc f Hf) as (l & Hl & Hll & Hli).
  destruct (multi_loss_spec n k data Hk Hy Hc f' length_shifted)
    as (l' & Hl' & Hll' & Hli').
  rewrite Hl, Hl'. f_equal. apply (vec_ext _ _ n); auto.
  intros i Hi. rewrite Hli, Hli' by assumption.
  assert (Hlab : (Z.to_nat (nth i (get_label data) 0%Z) < k)%nat)
    by (apply nth_label_class; auto; lia).
  rewrite (score_of_shifted n k) by assumption.
  rewrite (bigsum_ext k
             (fun c => exp (score_of n f' i c))
             (fun c => exp (nth i s 0) * exp (score_of n f i c))).
  - rewrite bigsum_scal.
    pose proof (bigsum_exp_pos k (score_of n f i) Hk) as Hpos.
    rewrite ln_mult, ln_exp; [ring | apply exp_pos | assumption].
  - intros c Hck. rewrite (score_of_shifted n k) by assumption.
    rewrite <- exp_plus. f_equal. ring.
Qed.

Lemma multi_grad_shifted :
  MultiClassificationMixin.grad k f' data
  = MultiClassificationMixin.grad k f data.
Proof.
  destruct (multi_grad_spec n k data Hk Hy Hc f Hf) as (g & Hg & Hgl & Hgi).
  destruct (multi_grad_spec n k data Hk Hy Hc f' length_shifted)
    as (g' & Hg' & Hgl' & Hgi').
  rewrite Hg, Hg'. f_equal. apply (vec_ext _ _ (n * k)); auto.
  intros j Hj. destruct (flat_index_split n k j Hj) as (i & c & Hi & Hck & ->).
  rewrite Hgi, Hgi' by assumption. now rewrite softmax_shifted.
Qed.

End Shifted.

(** X8. Adding to the scores of every example a number of its own, the same
    for all classes, changes neither the predictions nor the loss nor the
    gradient of the multi-class family. *)
Theorem multi_family_shift_invariant :
  forall (n k : nat) (data : Dataset Z) (f s : vec),
    (0 < k)%nat -> length (get_label data) = n ->
    class_labels k (get_label data) -> length f = (n * k)%nat ->
    length s = n ->
    let f' := vadd f (flatten_F (repeat s k)) in
    MultiClassificationMixin.predictions k f'
    = MultiClassificationMixin.predictions k f /\
    MultiClassificationMixin.loss k f' data
    = MultiClassificationMixin.loss k f data /\
    MultiClassificationMixin.grad k f' data
    = MultiClassificationMixin.grad k f data.
Proof.
  intros n k data f s Hk Hy Hc Hf Hs f'. split; [|split].
  - now apply (multi_predictions_shifted n).
  - now apply (multi_loss_shifted n).
  - now apply (multi_grad_shifted n).
Qed.

Lemma multi_family_shift_invariant_witness :
  MultiClassificationMixin.predictions 2 (vadd [0; 0] (flatten_F (repeat [5] 2)))
  = MultiClassificationMixin.predictions 2 [0; 0].
Proof.
  apply (multi_family_shift_invariant 1 2 (mkDataset [1%Z] []) [0; 0] [5]).
  - lia.
  - reflexivity.
  - intros v [<-|[]]; simpl; lia.
  - reflexivity.
  - reflexivity.
Defined.

End MultiFamilyFacts.

(** ** Labels and scores of different lengths *)

Section LabelCount.

Lemma resolve_seq_overflow nr nc (y : list Z) : forall s,
  (s <= nr)%nat -> (nr < s + length y)%nat ->
  resolve nr nc (map Z.of_nat (seq s (length y))) y = None.
Proof.
  induction y as [|v y IH]; intros s Hs Hlt; simpl in *; [lia|].
  destruct (Nat.eq_dec s nr) as [->|Hne].
  - rewrite index_out_of_range by lia. reflexivity.
  - rewrite (IH (S s)) by lia.
    destruct (index nr (Z.of_nat s)); [|reflexivity].
    destruct (index nc v); reflexivity.
Qed.

Lemma normalised_scores_shaped n k f :
  (0 < k)%nat -> length f = (n * k)%nat ->
  well_shaped (sub_col (chunks n k f) (max_axis1 (chunks n k f))) n k.
Proof.
  intros Hk Hf.
  pose proof (chunks_shaped n k f Hf) as HF.
  assert (Hmx : length (max_axis1 (chunks n k f)) = n).
  { apply length_max_axis1; eauto using shaped_ne, shaped_In. }
  apply shaped_map; auto. intros v Hv. now apply length_vsub.
Qed.

Lemma sub1_at_short (m : mat) n k (y : list Z) :
  (0 < k)%nat -> well_shaped m n k -> (length y <= n)%nat ->
  class_labels k y ->
  exists m',
    sub1_at m (MultiClassificationMixin._indices y) = Some m' /\
    well_shaped m' n k /\
    forall i c, (i < n)%nat -> (c < k)%nat ->
      entry m' i c
      = entry m i c - (if (i <? length y)%nat then onehot y i c else 0).
Proof.
  intros Hk Hm Hy Hc. unfold sub1_at, MultiClassificationMixin._indices.
  cbn [fst snd]. rewrite (nrows_shaped m n k) by assumption.
  pose proof Hm as [Hl Hcol]. rewrite Hl.
  rewrite resolve_seq by (auto; lia).
  set (l := length y) in *.
  set (yn := map Z.to_nat y).
  set (vals := map (fun v => v - 1) (map (mget m) (combine (seq 0 l) yn))).
  assert (Hyn : length yn = l) by (unfold yn; now rewrite length_map).
  assert (Hvl : length vals = l).
  { unfold vals. rewrite !length_map, length_combine, length_seq. lia. }
  assert (Hynk : forall c, In c yn -> (c < k)%nat).
  { intros c Hin. unfold yn in Hin. apply in_map_iff in Hin.
    destruct Hin as (v & <- & Hv). specialize (Hc v Hv). lia. }
  destruct (fold_mset_entries l O yn vals m n k Hm) as [Hsh He];
    auto; try lia.
  eexists; split; [reflexivity|]. split; [exact Hsh|].
  intros i c Hi Hlt. rewrite He by assumption.
  destruct (Nat.leb_spec 0 i); [|lia].
  change (0 + l)%nat with l.
  destruct (Nat.ltb_spec i l) as [Hil|Hil]; cbn [andb]; [|ring].
  rewrite Nat.sub_0_r. unfold onehot.
  assert (Hni : nth i yn O = Z.to_nat (nth i y 0%Z)).
  { unfold yn. apply (nth_map_d _ _ _ 0%Z). lia. }
  rewrite Hni.
  destruct (Nat.eqb_spec (Z.to_nat (nth i y 0%Z)) c) as [E|E]; [|ring].
  unfold vals. rewrite map_map.
  rewrite (nth_map_d _ _ _ (O, O))
    by (rewrite length_combine, length_seq; lia).
  rewrite combine_nth by (now rewrite length_seq).
  rewrite seq_nth by lia. unfold mget. cbn [fst snd].
  rewrite Hni, E. unfold entry. simpl. ring.
Qed.

(** X9. The multi-class family compares the number m of labels with the
    number n = len(f) / k of examples only through its indexing: with
    m > n [loss] and [grad] raise; with m <= n [grad] does not raise and
    subtracts the one-hot label from the first m rows only, leaving the
    predictions of the other examples unchanged; [loss] raises for
    1 < m < n. *)
Theorem multi_label_count_mismatch :
  forall (n k : nat) (f : vec) (data : Dataset Z),
    (0 < k)%nat -> length f = (n * k)%nat ->
    class_labels k (get_label data) ->
    let y := get_label data in
    let m := length y in
    ((n < m)%nat ->
     MultiClassificationMixin.loss k f data = None /\
     MultiClassificationMixin.grad k f data = None) /\
    ((m <= n)%nat ->
     exists g,
       MultiClassificationMixin.grad k f data = Some g /\
       length g = (n * k)%nat /\
       forall i c, (i < n)%nat -> (c < k)%nat ->
         nth (c * n + i) g 0
         = softmax k (score_of n f i) c
           - (if (i <? m)%nat then onehot y i c else 0)) /\
    ((1 < m)%nat -> (m < n)%nat ->
     MultiClassificationMixin.loss k f data = None).
Proof.
  intros n k f data Hk Hf Hc y m.
  pose proof (normalised_scores_shaped n k f Hk Hf) as HFs.
  destruct (predictions_spec n k f Hk Hf) as (pm & Hp & Hpm & Hpe).
  split; [|split].
  - intros Hnm. split.
    + unfold MultiClassificationMixin.loss.
      rewrite (reshape_F_ok n) by assumption.
      unfold take, MultiClassificationMixin._indices. cbn [fst snd].
      rewrite (nrows_shaped _ n k) by assumption.
      rewrite resolve_seq_overflow by (fold y m; lia). reflexivity.
    + unfold MultiClassificationMixin.grad. rewrite Hp.
      unfold sub1_at, MultiClassificationMixin._indices. cbn [fst snd].
      rewrite (nrows_shaped _ n k) by assumption.
      rewrite resolve_seq_overflow by (fold y m; lia). reflexivity.
  - intros Hmn. unfold MultiClassificationMixin.grad. rewrite Hp.
    destruct (sub1_at_short pm n k y Hk Hpm Hmn Hc) as (m' & Hs1 & Hm' & He).
    unfold y in Hs1. cbv zeta. rewrite Hs1.
    eexists; split; [reflexivity|]. split.
    + now apply length_concat_shaped.
    + intros i c Hi Hck. unfold flatten_F.
      rewrite (nth_concat_shaped m' n k) by assumption.
      rewrite He, Hpe by assumption. reflexivity.
  - intros H1 Hmn. unfold MultiClassificationMixin.loss.
    rewrite (reshape_F_ok n) by assumption.
    set (Fs := sub_col (chunks n k f) (max_axis1 (chunks n k f))) in *.
    unfold take, MultiClassificationMixin._indices. cbn [fst snd].
    rewrite (nrows_shaped Fs n k) by assumption.
    destruct HFs as [HFl HFc]. rewrite HFl.
    rewrite resolve_seq by (auto; fold y m; lia).
    set (E := map (map exp) Fs).
    assert (HE : well_shaped E n k).
    { apply shaped_map; [split; assumption|].
      intros v Hv. now rewrite length_map. }
    assert (HS : length (sum_axis1 E) = n).
    { apply length_sum_axis1; eauto using shaped_ne, shaped_In. }
    unfold broadcast, vneg.
    rewrite !length_map, length_combine, length_seq, length_map, HS.
    fold y m. rewrite Nat.min_id.
    destruct (Nat.eqb_spec m n); [lia|].
    destruct (Nat.eqb_spec m 1); [lia|].
    destruct (Nat.eqb_spec n 1); [lia|]. reflexivity.
Qed.

Lemma multi_label_count_mismatch_witness :
  exists g,
    MultiClassificationMixin.grad 2 [0; 1; 2; 5] (mkDataset [1%Z] []) = Some g /\
    length g = (2 * 2)%nat /\
    forall i c, (i < 2)%nat -> (c < 2)%nat ->
      nth (c * 2 + i) g 0
      = softmax 2 (score_of 2 [0; 1; 2; 5] i) c
        - (if (i <? 1)%nat then onehot [1%Z] i c else 0).
Proof.
  destruct (multi_label_count_mismatch 2 2 [0; 1; 2; 5] (mkDataset [1%Z] []))
    as (_ & H & _).
  - lia.
  - reflexivity.
  - intros v [<-|[]]; simpl; lia.
  - apply H. simpl. lia.
Defined.

End LabelCount.

(** ** The Kook and Liu classification objectives *)

Section ClassificationObjectiveFacts.

Lemma vsum_center_zero (v : vec) : vsum (center v) = 0.
Proof.
  unfold center. rewrite vsum_map.
  rewrite bigsum_minus, bigsum_const, <- vsum_bigsum.
  destruct v as [|x v]; [simpl; lra|].
  unfold vmean. field. apply not_0_INR. discriminate.
Qed.

(** X10. With [center_residuals] set, the residuals of the Kook objective sum
    to zero. *)
Theorem kook_centered_residuals_sum_to_zero :
  forall (self : AnchorKookClassificationObjective.Self) (f : vec)
         (data : Dataset R),
    AnchorKookClassificationObjective.center_residuals self = true ->
    length f = length (get_label data) ->
    length (AnchorKookClassificationObjective.residuals self f data) = length f /\
    vsum (AnchorKookClassificationObjective.residuals self f data) = 0.
Proof.
  intros self f data Hc Hl.
  unfold AnchorKookClassificationObjective.residuals. rewrite Hc.
  split.
  - rewrite length_map.
    apply length_vsub; [|now symmetry].
    unfold AnchorKookClassificationObjective.predictions,
      ClassificationMixin.predictions. now rewrite length_map.
  - apply (vsum_center_zero
             (vsub (AnchorKookClassificationObjective.predictions f)
                   (get_label data))).
Qed.

Lemma kook_centered_residuals_sum_to_zero_witness :
  vsum (AnchorKookClassificationObjective.residuals
          (AnchorKookClassificationObjective.init 2 true)
          [0; 3] (mkDataset [0; 1] ones2)) = 0.
Proof.
  apply (kook_centered_residuals_sum_to_zero
           (AnchorKookClassificationObjective.init 2 true)
           [0; 3] (mkDataset [0; 1] ones2));
    reflexivity.
Defined.

(** X11. The residuals of the multi-class Kook objective sum to zero over the
    classes for every example, with and without [center_residuals]; with it
    they also sum to zero over the examples for every class. *)
Theorem kook_multi_residuals_sum_to_zero :
  forall (n : nat) (data : Dataset Z)
         (self : AnchorKookMultiClassificationObjective.Self) (f : vec),
    let k := AnchorKookMultiClassificationObjective.n_classes self in
    (0 < k)%nat -> length (get_label data) = n ->
    class_labels k (get_label data) -> length f = (n * k)%nat ->
    exists r,
      AnchorKookMultiClassificationObjective.residuals self f data = Some r /\
      length r = (n * k)%nat /\
      (forall i, (i < n)%nat -> bigsum k (fun c => nth (c * n + i) r 0) = 0) /\
      (AnchorKookMultiClassificationObjective.center_residuals self = true ->
       forall c, (c < k)%nat -> bigsum n (fun i => nth (c * n + i) r 0) = 0).
Proof.
  intros n data self f k Hk Hy Hc Hf.
  destruct (kook_multi_residuals_spec n data self Hk Hy Hc f Hf)
    as (rm & Hr & Hs & Hcol).
  fold k in Hs, Hcol.
  exists (flatten_F rm). split; [assumption|].
  split; [apply (length_concat_shaped rm n k Hs)|].
  set (y := get_label data) in *.
  assert (Hlen : forall c, length (residual_col n k y f c) = n).
  { intros c. exact (length_residual_col n data self f c). }
  assert (Hnth : forall i c, (i < n)%nat ->
            nth i (residual_col n k y f c) 0
            = class_prob n k f i c - onehot y i c).
  { intros i c Hi. exact (nth_residual_col n data self f c i Hi). }
  assert (He : forall i c, (i < n)%nat -> (c < k)%nat ->
            nth (c * n + i) (flatten_F rm) 0
            = nth i (centered
                       (AnchorKookMultiClassificationObjective.center_residuals self)
                       (residual_col n k y f c)) 0).
  { intros i c Hi Hck. unfold flatten_F.
    rewrite (nth_concat_shaped rm n k) by assumption.
    unfold entry. now rewrite Hcol. }
  split.
  - intros i Hi.
    rewrite (bigsum_ext k _ _ (fun c Hck => He i c Hi Hck)).
    destruct (AnchorKookMultiClassificationObjective.center_residuals self);
      cbn [centered].
    + rewrite (bigsum_ext k _
                 (fun c => (class_prob n k f i c - onehot y i c)
                           - vmean (residual_col n k y f c))).
      2:{ intros c Hck. rewrite nth_center by (rewrite Hlen; assumption).
          now rewrite Hnth. }
      rewrite bigsum_minus, residual_row_sum by assumption.
      unfold vmean.
      rewrite (bigsum_ext k _
                 (fun c => / INR n
                           * bigsum n (fun i' => class_prob n k f i' c
                                                 - onehot y i' c))).
      2:{ intros c Hck. rewrite Hlen, vsum_bigsum, Hlen.
          rewrite (bigsum_ext n _ _ (fun i' Hi' => Hnth i' c Hi')).
          unfold Rdiv. ring. }
      rewrite bigsum_scal, <- bigsum_swap.
      rewrite (bigsum_ext n _ (fun _ => 0)), bigsum_const0; [ring|].
      intros i' Hi'. now apply residual_row_sum.
    + rewrite (bigsum_ext k _ _ (fun c _ => Hnth i c Hi)).
      now apply residual_row_sum.
  - intros Hcen c Hck.
    rewrite (bigsum_ext n _ _ (fun i Hi => He i c Hi Hck)).
    rewrite Hcen. cbn [centered].
    transitivity (vsum (center (residual_col n k y f c))).
    + rewrite vsum_bigsum, length_center, Hlen. reflexivity.
    + apply vsum_center_zero.
Qed.

Lemma kook_multi_residuals_sum_to_zero_witness :
  exists r,
    AnchorKookMultiClassificationObjective.residuals
      (AnchorKookMultiClassificationObjective.init 2 2 true)
      [0; 1; 2; 3] (mkDataset [0%Z; 1%Z] ones2) = Some r /\
    length r = (2 * 2)%nat /\
    (forall i, (i < 2)%nat -> bigsum 2 (fun c => nth (c * 2 + i) r 0) = 0) /\
    (true = true ->
     forall c, (c < 2)%nat -> bigsum 2 (fun i => nth (c * 2 + i) r 0) = 0).
Proof.
  apply (kook_multi_residuals_sum_to_zero
           2 (mkDataset [0%Z; 1%Z] ones2)
           (AnchorKookMultiClassificationObjective.init 2 2 true)
           [0; 1; 2; 3]).
  - simpl; lia.
  - reflexivity.
  - intros v [<-|[<-|[]]]; simpl; lia.
  - reflexivity.
Defined.

(** X12. For every example the entries of the multi-class Kook gradient sum
    to zero over the classes, for every gamma and with or without
    [center_residuals], whenever [_proj] keeps the shape of its argument. *)
Theorem kook_multi_grad_sums_to_zero_over_classes :
  forall (am : AnchorMixin) (n : nat) (data : Dataset Z)
         (self : AnchorKookMultiClassificationObjective.Self) (f : vec),
    let k := AnchorKookMultiClassificationObjective.n_classes self in
    (0 < k)%nat -> length (get_label data) = n ->
    class_labels k (get_label data) ->
    shape_preserving am n (anchor data) -> length f = (n * k)%nat ->
    exists g,
      AnchorKookMultiClassificationObjective.grad self f data = Some g /\
      forall i, (i < n)%nat -> bigsum k (fun c => nth (c * n + i) g 0) = 0.
Proof.
  intros am n data self f k Hk Hy Hc Hsp Hf.
  destruct (kook_multi_grad_spec n data self Hk Hy Hc Hsp f Hf)
    as (g & gb & Hg & _ & _ & _ & Hgi).
  fold k in Hgi.
  exists g. split; [assumption|]. intros i Hi.
  set (Q := fun c =>
         nth i (centered
                  (AnchorKookMultiClassificationObjective.center_residuals self)
                  (_proj (anchor data)
                     (centered
                        (AnchorKookMultiClassificationObjective.center_residuals self)
                        (residual_col n k (get_label data) f c)))) 0).
  set (p := class_prob n k f i).
  set (K := 2 * AnchorKookMultiClassificationObjective.factor self
            * (AnchorKookMultiClassificationObjective.gamma self - 1)).
  set (S := bigsum k (fun c' => Q c' * p c')).
  rewrite (bigsum_ext k _
             (fun c => (p c - onehot (get_label data) i c)
                       + K * (Q c * p c - S * p c))).
  2:{ intros c Hck. destruct (Hgi i c Hi Hck) as [Hb Ha].
      rewrite Ha, Hb. unfold K, S, Q, p. ring. }
  rewrite (bigsum_plus k (fun c => p c - onehot (get_label data) i c)
             (fun c => K * (Q c * p c - S * p c))).
  rewrite (bigsum_scal k K (fun c => Q c * p c - S * p c)).
  rewrite (bigsum_minus k (fun c => Q c * p c) (fun c => S * p c)).
  rewrite (bigsum_scal k S p).
  assert (H0 : bigsum k (fun c => p c - onehot (get_label data) i c) = 0)
    by (apply residual_row_sum; assumption).
  assert (H1 : bigsum k p = 1) by (apply softmax_sum; assumption).
  rewrite H0, H1. fold S. ring.
Qed.

Lemma kook_multi_grad_sums_to_zero_over_classes_witness :
  exists g,
    AnchorKookMultiClassificationObjective.grad
      (am := proj_one_column)
      (AnchorKookMultiClassificationObjective.init 3 2 true)
      [0; 1; 2; 3] (mkDataset [0%Z; 1%Z] ones2) = Some g /\
    forall i, (i < 2)%nat -> bigsum 2 (fun c => nth (c * 2 + i) g 0) = 0.
Proof.
  apply (kook_multi_grad_sums_to_zero_over_classes
           proj_one_column 2 (mkDataset [0%Z; 1%Z] ones2)
           (AnchorKookMultiClassificationObjective.init 3 2 true)
           [0; 1; 2; 3]).
  - simpl; lia.
  - reflexivity.
  - intros v [<-|[<-|[]]]; simpl; lia.
  - exact (ols_shape _ _ _ proj_one_column_ols).
  - reflexivity.
Defined.

Lemma nth_penalised (base v : vec) c n i :
  length base = n -> length v = n -> (i < n)%nat ->
  nth i (vadd base (vscale c (map (fun x => x ^ 2) v))) 0
  = nth i base 0 + c * nth i v 0 ^ 2.
Proof.
  intros Hb Hv Hi.
  rewrite nth_vadd by (rewrite ?length_vscale, ?length_map; lia).
  rewrite nth_vscale by (rewrite length_map; lia).
  rewrite nth_map0 by lia. reflexivity.
Qed.

Lemma length_liu_residuals (self : AnchorLiuClassificationObjective.Self)
      (f : vec) (data : Dataset R) n :
  length f = n -> length (get_label data) = n ->
  length (AnchorLiuClassificationObjective.residuals self f data) = n.
Proof.
  intros Hf Hy. unfold AnchorLiuClassificationObjective.residuals.
  apply length_map2_same; [assumption | now rewrite length_map].
Qed.

Lemma length_kook_residuals (self : AnchorKookClassificationObjective.Self)
      (f : vec) (data : Dataset R) n :
  length f = n -> length (get_label data) = n ->
  length (AnchorKookClassificationObjective.residuals self f data) = n.
Proof.
  intros Hf Hy.
  unfold AnchorKookClassificationObjective.residuals,
    AnchorKookClassificationObjective.predictions,
    ClassificationMixin.predictions.
  destruct (AnchorKookClassificationObjective.center_residuals self);
    rewrite ?length_map; apply length_vsub; rewrite ?length_map; assumption.
Qed.

Lemma kook_multi_loss_entries (am : AnchorMixin) (n : nat) (data : Dataset Z)
      (self : AnchorKookMultiClassificationObjective.Self) (f : vec) :
  let k := AnchorKookMultiClassificationObjective.n_classes self in
  (0 < k)%nat -> length (get_label data) = n ->
  class_labels k (get_label data) ->
  shape_preserving am n (anchor data) -> length f = (n * k)%nat ->
  exists l lb,
    AnchorKookMultiClassificationObjective.loss self f data = Some l /\
    MultiClassificationMixin.loss k f data = Some lb /\
    length l = n /\ length lb = n /\
    forall i, (i < n)%nat ->
      nth i l 0
      = nth i lb 0
        + AnchorKookMultiClassificationObjective.factor self
          * (AnchorKookMultiClassificationObjective.gamma self - 1)
          * bigsum k (fun c =>
              nth i (_proj (anchor data)
                       (centered
                          (AnchorKookMultiClassificationObjective.center_residuals self)
                          (residual_col n k (get_label data) f c))) 0 ^ 2).
Proof.
  intros k Hk Hy Hlab Hshape Hf.
  unfold AnchorKookMultiClassificationObjective.loss.
  destruct (kook_multi_residuals_spec n data self Hk Hy Hlab f Hf)
    as (rm & -> & Hrm & Hcol).
  fold k in Hrm, Hcol. fold k.
  rewrite (reshape_flatten rm n k) by assumption.
  destruct (multi_loss_spec n k data Hk Hy Hlab f Hf) as (lb & El & Hl & _).
  rewrite El.
  set (sq := map (map (fun x => x ^ 2)) (_proj2 (anchor data) rm)).
  assert (Hpr : well_shaped (_proj2 (anchor data) rm) n k).
  { unfold _proj2. apply shaped_map; [exact Hrm|].
    intros v Hv. now apply Hshape. }
  assert (Hsq : well_shaped sq n k).
  { unfold sq. apply shaped_map; [exact Hpr|].
    intros v Hv. now rewrite length_map. }
  assert (Hsl : length (sum_axis1 sq) = n).
  { apply length_sum_axis1; eauto using shaped_ne, shaped_In. }
  eexists; exists lb. split; [reflexivity|]. split; [reflexivity|].
  split; [|split; [assumption|]].
  - apply length_vadd; [assumption|]. now rewrite length_vscale.
  - intros i Hi.
    rewrite nth_vadd by (rewrite ?length_vscale; lia).
    rewrite nth_vscale by lia.
    rewrite (entry_sum_axis1 sq n k) by assumption.
    f_equal. f_equal. apply bigsum_ext; intros c Hc.
    destruct Hrm as [Hrl Hrc]. destruct Hpr as [Hpl Hpc].
    unfold sq. rewrite entry_map by lia.
    rewrite nth_map0 by (rewrite Hpc; assumption).
    f_equal. unfold _proj2.
    rewrite (nth_map_d (_proj (anchor data)) rm c [] []) by lia.
    now rewrite Hcol.
Qed.



(** X14. For scores and labels of one length, and a score of absolute value
    at most 700 (the range in which [np.exp] of the score and of its
    negative neither overflows nor underflows to zero), the Liu residual of
    an example is not negative when its label is 1 and not positive when its
    label is 0. *)
Theorem liu_residual_sign :
  forall (self : AnchorLiuClassificationObjective.Self) (f : vec)
         (data : Dataset R) (i : nat),
    length f = length (get_label data) -> (i < length f)%nat ->
    Rabs (nth i f 0) <= 700 ->
    let r := nth i (AnchorLiuClassificationObjective.residuals self f data) 0 in
    (nth i (get_label data) 0 = 1 -> 0 <= r) /\
    (nth i (get_label data) 0 = 0 -> r <= 0).
Proof.
  intros self f data i Hlen Hf _ r.
  assert (Hy : (i < length (get_label data))%nat) by lia.
  set (x := nth i f 0).
  assert (Hr : r = - x + (2 * nth i (get_label data) 0 - 1)
                         * (1 + exp (- (2 * nth i (get_label data) 0 - 1) * x))
                         * ln (1 + exp ((2 * nth i (get_label data) 0 - 1) * x))).
  { unfold r, AnchorLiuClassificationObjective.residuals.
    rewrite (nth_map2 _ _ _ _ 0 0) by (rewrite ?length_map; lia).
    rewrite nth_map0 by lia. reflexivity. }
  assert (Hln : forall t, 0 < ln (1 + exp t) /\ t < ln (1 + exp t)).
  { intros t. pose proof (exp_pos t) as Ht. split.
    - assert (H : ln 1 < ln (1 + exp t)) by (apply ln_increasing; lra).
      now rewrite ln_1 in H.
    - assert (H : ln (exp t) < ln (1 + exp t)) by (apply ln_increasing; lra).
      now rewrite ln_exp in H. }
  split; intros E; rewrite Hr, E.
  - replace (- (2 * 1 - 1) * x) with (- x) by ring.
    replace ((2 * 1 - 1) * x) with x by ring.
    destruct (Hln x) as [H0 H1]. pose proof (exp_pos (- x)) as He.
    pose proof (Rmult_lt_0_compat _ _ He H0). nra.
  - replace (- (2 * 0 - 1) * x) with x by ring.
    replace ((2 * 0 - 1) * x) with (- x) by ring.
    destruct (Hln (- x)) as [H0 H1]. pose proof (exp_pos x) as He.
    pose proof (Rmult_lt_0_compat _ _ He H0). nra.
Qed.

Lemma liu_residual_sign_witness :
  0 <= nth 0 (AnchorLiuClassificationObjective.residuals
                (AnchorLiuClassificationObjective.init 2)
                [0] (mkDataset [1] [])) 0.
Proof.
  destruct (liu_residual_sign (AnchorLiuClassificationObjective.init 2)
              [0] (mkDataset [1] []) 0%nat) as [H _].
  - reflexivity.
  - simpl; lia.
  - cbn [nth]. rewrite Rabs_R0. lra.
  - apply H. reflexivity.
Defined.

(** X15. Adding to the scores of every example a number of its own, the same
    for all classes, changes neither the residuals nor the loss nor the
    gradient of the multi-class Kook objective, whenever [_proj] keeps the
    shape of its argument. *)
Theorem kook_multi_shift_invariant :
  forall (am : AnchorMixin) (n : nat) (data : Dataset Z)
         (self : AnchorKookMultiClassificationObjective.Self) (f s : vec),
    let k := AnchorKookMultiClassificationObjective.n_classes self in
    (0 < k)%nat -> length (get_label data) = n ->
    class_labels k (get_label data) ->
    shape_preserving am n (anchor data) ->
    length f = (n * k)%nat -> length s = n ->
    let f' := vadd f (flatten_F (repeat s k)) in
    AnchorKookMultiClassificationObjective.residuals self f' data
    = AnchorKookMultiClassificationObjective.residuals self f data /\
    AnchorKookMultiClassificationObjective.loss self f' data
    = AnchorKookMultiClassificationObjective.loss self f data /\
    AnchorKookMultiClassificationObjective.grad self f' data
    = AnchorKookMultiClassificationObjective.grad self f data.
Proof.
  intros am n data self f s k Hk Hy Hc Hsp Hf Hs f'.
  pose proof (length_shifted n k f s Hf Hs) as Hf'. fold f' in Hf'.
  assert (Hcp : forall i c, (i < n)%nat -> (c < k)%nat ->
            class_prob n k f' i c = class_prob n k f i c).
  { intros i c Hi Hck. unfold class_prob. now apply (softmax_shifted n). }
  assert (Hrc : forall c, (c < k)%nat ->
            residual_col n k (get_label data) f' c
            = residual_col n k (get_label data) f c).
  { intros c Hck. unfold residual_col. apply map_ext_in.
    intros i Hin. apply in_seq in Hin. rewrite Hcp by lia. reflexivity. }
  split; [|split].
  - destruct (kook_multi_residuals_spec n data self Hk Hy Hc f Hf)
      as (rm & Hr & Hsh & Hcol).
    destruct (kook_multi_residuals_spec n data self Hk Hy Hc f' Hf')
      as (rm' & Hr' & Hsh' & Hcol').
    fold k in Hsh, Hcol, Hsh', Hcol'.
    rewrite Hr, Hr'. f_equal. f_equal.
    apply (mat_ext2 _ _ n k); auto.
    intros i c Hi Hck. unfold entry.
    rewrite Hcol', Hcol, Hrc by assumption. reflexivity.
  - destruct (kook_multi_loss_entries am n data self f Hk Hy Hc Hsp Hf)
      as (l & lb & El & Eb & Hll & _ & Hli).
    destruct (kook_multi_loss_entries am n data self f' Hk Hy Hc Hsp Hf')
      as (l' & lb' & El' & Eb' & Hll' & _ & Hli').
    fold k in Eb, Hli, Eb', Hli'.
    unfold f' in Eb'.
    rewrite (multi_loss_shifted n k data f s Hk Hy Hc Hf Hs) in Eb'.
    assert (lb' = lb) by congruence. subst lb'.
    rewrite El, El'. f_equal. apply (vec_ext _ _ n); auto.
    intros i Hi. rewrite Hli, Hli' by assumption.
    f_equal. f_equal. apply bigsum_ext. intros c Hck.
    now rewrite Hrc.
  - destruct (kook_multi_grad_spec n data self Hk Hy Hc Hsp f Hf)
      as (g & gb & Eg & Hgl & _ & _ & Hgi).
    destruct (kook_multi_grad_spec n data self Hk Hy Hc Hsp f' Hf')
      as (g' & gb' & Eg' & Hgl' & _ & _ & Hgi').
    fold k in Hgl, Hgi, Hgl', Hgi'.
    rewrite Eg, Eg'. f_equal. apply (vec_ext _ _ (n * k)); auto.
    intros j Hj. destruct (flat_index_split n k j Hj) as (i & c & Hi & Hck & ->).
    destruct (Hgi i c Hi Hck) as [Hb Ha].
    destruct (Hgi' i c Hi Hck) as [Hb' Ha'].
    rewrite Ha, Ha', Hb, Hb'.
    rewrite (Hcp i c Hi Hck), (Hrc c Hck).
    f_equal. f_equal. f_equal. apply bigsum_ext. intros c' Hc'.
    now rewrite (Hcp i c' Hi Hc'), (Hrc c' Hc').
Qed.

Lemma kook_multi_shift_invariant_witness :
  AnchorKookMultiClassificationObjective.loss
    (am := proj_one_column)
    (AnchorKookMultiClassificationObjective.init 3 2 true)
    (vadd [0; 1; 2; 5] (flatten_F (repeat [4; 7] 2)))
    (mkDataset [0%Z; 1%Z] ones2)
  = AnchorKookMultiClassificationObjective.loss
      (am := proj_one_column)
      (AnchorKookMultiClassificationObjective.init 3 2 true)
      [0; 1; 2; 5] (mkDataset [0%Z; 1%Z] ones2).
Proof.
  apply (kook_multi_shift_invariant
           proj_one_column 2 (mkDataset [0%Z; 1%Z] ones2)
           (AnchorKookMultiClassificationObjective.init 3 2 true)
           [0; 1; 2; 5] [4; 7]).
  - simpl; lia.
  - reflexivity.
  - intros v [<-|[<-|[]]]; simpl; lia.
  - exact (ols_shape _ _ _ proj_one_column_ols).
  - reflexivity.
  - reflexivity.
Defined.

End ClassificationObjectiveFacts.

(** ** The regression objectives *)

Section RegressionObjectiveFacts.

Lemma bigsum_le n g h :
  (forall i, (i < n)%nat -> g i <= h i) -> bigsum n g <= bigsum n h.
Proof.
  induction n as [|n IH]; intros H; [rewrite !bigsum_0; lra|].
  rewrite !bigsum_S.
  apply Rplus_le_compat; [apply IH; intros; apply H; lia | apply H; lia].
Qed.

(** X17. With m = n_components > 0 random Fourier features, every feature of
    an example lies between -sqrt(2/m) and sqrt(2/m), and the squares of the
    m features of an example sum to at most 2. *)
Theorem fourier_features_bounded :
  forall (rs : RandomState) (self : AnchorHSICRegressionObjective.Self)
         (f : vec) (data : Dataset R) (i : nat),
    let m := AnchorHSICRegressionObjective.n_components self in
    numpy_rng rs -> (0 < m)%nat ->
    length f = length (get_label data) -> (i < length f)%nat ->
    exists fr fd,
      fst (AnchorHSICRegressionObjective._fourier_residuals self f data)
      = Some (fr, fd) /\
      (forall c, (c < m)%nat -> Rabs (entry fr i c) <= sqrt (2 / INR m)) /\
      bigsum m (fun c => entry fr i c ^ 2) <= 2.
Proof.
  intros rs self f data i m Hrng Hm Hl Hi.
  pose proof (fourier_residuals_draws (length (get_label data)) data eq_refl
                self f Hm) as Hfr.
  cbv zeta in Hfr. fold m in Hfr.
  destruct (draws_length Hrng
              (AnchorHSICRegressionObjective.random_fourier_features_seed self) m)
    as [Hw Ho].
  set (w := fst (draws (AnchorHSICRegressionObjective.random_fourier_features_seed
                          self) m)) in *.
  set (o := snd (draws (AnchorHSICRegressionObjective.random_fourier_features_seed
                          self) m)) in *.
  set (s := sqrt (2 / INR m)) in *.
  assert (HM : 0 < INR m) by (apply lt_0_INR; assumption).
  assert (Hs0 : 0 <= s) by apply sqrt_pos.
  assert (Hs2 : s * s = 2 / INR m).
  { apply sqrt_sqrt. apply Rlt_le, Rdiv_lt_0_compat; lra. }
  eexists; eexists. split; [exact Hfr|].
  assert (He : forall c, (c < m)%nat ->
            entry (map2 (fun wc oc =>
                           map2 (fun fi yi => cos ((yi - fi) * wc + oc) * s)
                                f (get_label data)) w o) i c
            = cos ((nth i (get_label data) 0 - nth i f 0) * nth c w 0
                   + nth c o 0) * s).
  { intros c Hc. unfold entry.
    pose proof (nth_map2
                  (fun wc oc =>
                     map2 (fun fi yi => cos ((yi - fi) * wc + oc) * s)
                          f (get_label data)) w o c 0 0 []) as Hc1.
    unfold vec in *. rewrite Hc1 by lia.
    apply (nth_map2
             (fun fi yi => cos ((yi - fi) * nth c w 0 + nth c o 0) * s)
             f (get_label data) i 0 0 0); lia. }
  split.
  - intros c Hc. rewrite He by assumption.
    rewrite Rabs_mult, (Rabs_pos_eq s) by assumption.
    pose proof (COS_bound ((nth i (get_label data) 0 - nth i f 0) * nth c w 0
                           + nth c o 0)) as [Hc1 Hc2].
    assert (Rabs (cos ((nth i (get_label data) 0 - nth i f 0) * nth c w 0
                       + nth c o 0)) <= 1) by (apply Rabs_le; lra).
    nra.
  - apply Rle_trans with (bigsum m (fun _ => 2 / INR m)).
    + apply bigsum_le. intros c Hc. rewrite He by assumption.
      pose proof (COS_bound ((nth i (get_label data) 0 - nth i f 0) * nth c w 0
                             + nth c o 0)) as [Hc1 Hc2].
      set (x := cos _) in *.
      replace ((x * s) ^ 2) with (x * x * (s * s)) by ring.
      rewrite Hs2.
      assert (Hx : x * x <= 1) by nra.
      assert (Hd : 0 <= 2 / INR m)
        by (apply Rlt_le, Rdiv_lt_0_compat; lra).
      nra.
    + rewrite bigsum_const. right. field. lra.
Qed.

Lemma fourier_features_bounded_witness :
  exists fr fd,
    fst (AnchorHSICRegressionObjective._fourier_residuals
           (rs := constant_rng)
           (AnchorHSICRegressionObjective.init 2 3 0) [0; 1]
           (mkDataset [1; 1] ones2))
    = Some (fr, fd) /\
    (forall c, (c < 3)%nat -> Rabs (entry fr 0 c) <= sqrt (2 / INR 3)) /\
    bigsum 3 (fun c => entry fr 0 c ^ 2) <= 2.
Proof.
  apply (fourier_features_bounded constant_rng
           (AnchorHSICRegressionObjective.init 2 3 0) [0; 1]
           (mkDataset [1; 1] ones2) 0%nat).
  - exact constant_rng_ok.
  - simpl; lia.
  - reflexivity.
  - simpl; lia.
Defined.

(** X18. The anchor-regression objective divides by max(gamma, 1): for
    gamma <= 1 the loss of an example is the base loss plus (gamma - 1) times
    the squared projected residual, and for gamma >= 1 it is the weighted
    mean of the two with weights 1/gamma and 1 - 1/gamma; the gradient is
    scaled in the same way. *)
Theorem anchor_regression_normalisation :
  forall (am : AnchorMixin) (n : nat) (coef : R)
         (self : AnchorRegressionObjective.Self) (f : vec) (data : Dataset R)
         (i : nat),
    shape_preserving am n (anchor data) ->
    length f = n -> length (get_label data) = n -> (i < n)%nat ->
    let g := AnchorRegressionObjective.gamma self in
    let p := nth i (_proj (anchor data)
                      (AnchorRegressionObjective.residuals self f data)) 0 in
    let base := nth i (RegressionMixin.loss coef f data) 0 in
    let gbase := nth i (RegressionMixin.grad coef f data) 0 in
    let l := nth i (AnchorRegressionObjective.loss coef self f data) 0 in
    let gr := nth i (AnchorRegressionObjective.grad coef self f data) 0 in
    (g <= 1 -> l = base + (g - 1) * p ^ 2 /\ gr = gbase - 2 * (g - 1) * p) /\
    (1 <= g -> l = base / g + (1 - 1 / g) * p ^ 2 /\
               gr = gbase / g - 2 * (1 - 1 / g) * p).
Proof.
  intros am n coef self f data i Hs Hf Hy Hi g p base gbase l gr.
  assert (Hr : length (AnchorRegressionObjective.residuals self f data) = n).
  { unfold AnchorRegressionObjective.residuals. now apply length_vsub. }
  assert (Hp : length (_proj (anchor data)
                         (AnchorRegressionObjective.residuals self f data)) = n)
    by now apply Hs.
  assert (Hb : length (RegressionMixin.loss coef f data) = n).
  { unfold RegressionMixin.loss. now apply length_map2_same. }
  assert (Hgb : length (RegressionMixin.grad coef f data) = n).
  { unfold RegressionMixin.grad. now apply length_map2_same. }
  assert (El : l = if Req_dec_T g 1 then base
                   else (base + (g - 1) * p ^ 2) / Rmax g 1).
  { unfold l, AnchorRegressionObjective.loss. fold g.
    destruct (Req_dec_T g 1); [reflexivity|].
    rewrite nth_map0
      by (rewrite (length_vadd _ _ n); rewrite ?length_vscale, ?length_map; lia).
    now rewrite (nth_penalised _ _ _ n). }
  assert (Eg : gr = if Req_dec_T g 1 then gbase
                    else (gbase - 2 * (g - 1) * p) / Rmax g 1).
  { unfold gr, AnchorRegressionObjective.grad. fold g.
    destruct (Req_dec_T g 1); [reflexivity|]. cbv zeta.
    rewrite nth_map0
      by (rewrite (length_vsub _ _ n); rewrite ?length_vscale; lia).
    rewrite nth_vsub by (rewrite ?length_vscale; lia).
    rewrite nth_vscale by lia. reflexivity. }
  rewrite El, Eg.
  split; intros Hg.
  - destruct (Req_dec_T g 1) as [E|E].
    + rewrite E. split; ring.
    + rewrite Rmax_right by assumption. split; field.
  - destruct (Req_dec_T g 1) as [E|E].
    + rewrite E. split; field.
    + rewrite Rmax_left by assumption. split; field; lra.
Qed.

Lemma anchor_regression_normalisation_witness :
  nth 0 (AnchorRegressionObjective.loss (am := proj_one_column) 1
           (AnchorRegressionObjective.init 2) [0; 1]
           (mkDataset [1; 3] ones2)) 0
  = nth 0 (RegressionMixin.loss 1 [0; 1] (mkDataset [1; 3] ones2)) 0 / 2
    + (1 - 1 / 2)
      * nth 0 (_proj (AnchorMixin := proj_one_column) ones2
                 (AnchorRegressionObjective.residuals
                    (AnchorRegressionObjective.init 2) [0; 1]
                    (mkDataset [1; 3] ones2))) 0 ^ 2.
Proof.
  destruct (anchor_regression_normalisation
              proj_one_column 2 1 (AnchorRegressionObjective.init 2) [0; 1]
              (mkDataset [1; 3] ones2) 0%nat
              (ols_shape _ _ _ proj_one_column_ols)
              eq_refl eq_refl ltac:(lia)) as [_ H].
  apply H. simpl. lra.
Defined.

End RegressionObjectiveFacts.

(** ** Initial scores and the pair handed to the boosting engine *)

Section EngineFacts.

Lemma vsum_repeat c n : vsum (repeat c n) = INR n * c.
Proof.
  induction n as [|n IH]; [simpl; lra|].
  rewrite S_INR. cbn [repeat vsum fold_right].
  change (fold_right Rplus 0 (repeat c n)) with (vsum (repeat c n)).
  rewrite IH. ring.
Qed.

Lemma bigsum_onehot_count k (y : list Z) c :
  class_labels k y ->
  bigsum (length y) (fun i => onehot y i c) = INR (class_count y c).
Proof.
  induction y as [|v y IH]; intros Hc; [reflexivity|].
  cbn [length]. rewrite bigsum_S_l.
  assert (Hv : (0 <= v < Z.of_nat k)%Z) by (apply Hc; now left).
  assert (Hy : class_labels k y) by (intros u Hu; apply Hc; now right).
  rewrite (bigsum_ext (length y) _ (fun i => onehot y i c))
    by (intros i _; reflexivity).
  rewrite IH by assumption.
  unfold onehot at 1, class_count. cbn [nth count_occ].
  destruct (Z.eq_dec v (Z.of_nat c)) as [E|E].
  - subst v. rewrite Nat2Z.id, Nat.eqb_refl, S_INR. ring.
  - destruct (Nat.eqb_spec (Z.to_nat v) c) as [E'|E']; [|ring].
    exfalso. apply E. lia.
Qed.

Lemma predictions_some_length n k f pm :
  (0 < k)%nat -> MultiClassificationMixin.predictions k f = Some pm ->
  well_shaped pm n k -> length f = (n * k)%nat.
Proof.
  intros Hk Hp [_ Hcol].
  assert (Hm : (length f mod k = 0)%nat).
  { unfold MultiClassificationMixin.predictions, reshape_F in Hp.
    destruct k as [|k']; [lia|].
    destruct (Nat.eqb_spec (length f mod S k') 0); [assumption|discriminate]. }
  assert (Hf : length f = (length f / k * k)%nat).
  { rewrite Nat.mul_comm. now apply Nat.Div0.div_exact. }
  destruct (predictions_spec (length f / k) k f Hk Hf) as (pm' & Hp' & [_ Hcol'] & _).
  assert (pm' = pm) by congruence. subst pm'.
  rewrite <- (Hcol O Hk), (Hcol' O Hk). exact Hf.
Qed.

(** X19. The initial score is a stationary point of the total base loss
    among the scores that are the same for all examples: at the binary
    [init_score] (labels 0/1, both present) the gradient entries sum to zero,
    and at the multi-class [init_score] (labels exactly the classes
    0..k-1) the gradient entries of every class sum to zero over the
    examples. *)
Theorem init_score_is_stationary :
  (forall (y : vec) (a : mat),
     binary_labels y -> In 0 y -> In 1 y ->
     exists s,
       ClassificationMixin.init_score y = repeat (Fin s) (length y) /\
       vsum (ClassificationMixin.grad (repeat s (length y)) (mkDataset y a))
       = 0) /\
  (forall (k : nat) (y : list Z) (a : mat),
     (0 < k)%nat -> class_labels k y ->
     (forall c, (0 <= c < Z.of_nat k)%Z -> In c y) ->
     exists s g,
       MultiClassificationMixin.init_score k y = Some s /\
       MultiClassificationMixin.grad k s (mkDataset y a) = Some g /\
       forall c, (c < k)%nat ->
         bigsum (length y) (fun i => nth (c * length y + i) g 0) = 0).
Proof.
  split.
  - intros y a Hb H0 H1.
    destruct (binary_round_trip y Hb H0 H1) as (s & Hs & Hp).
    exists s. split; [assumption|].
    unfold ClassificationMixin.grad. rewrite Hp. cbn [get_label].
    rewrite (vsum_vsub _ _ (length y)) by (rewrite ?repeat_length; reflexivity).
    rewrite vsum_repeat. unfold vmean.
    assert (INR (length y) <> 0).
    { apply not_0_INR. destruct y; [contradiction|discriminate]. }
    field. assumption.
  - intros k y a Hk Hc Hall.
    destruct (multi_round_trip k y Hk Hc Hall) as (s & pm & Hs & Hp & Hsh & He).
    pose proof (predictions_some_length (length y) k s pm Hk Hp Hsh) as Hlen.
    destruct (multi_grad_spec (length y) k (mkDataset y a) Hk eq_refl Hc s Hlen)
      as (g & Hg & _ & Hgi).
    destruct (predictions_spec (length y) k s Hk Hlen) as (pm' & Hp' & _ & He').
    assert (pm' = pm) by congruence. subst pm'.
    exists s, g. split; [assumption|]. split; [assumption|].
    intros c Hck.
    assert (Hn : INR (length y) <> 0).
    { apply not_0_INR. destruct y; [|discriminate].
      exfalso. apply (Hall 0%Z). lia. }
    rewrite (bigsum_ext (length y) _
               (fun i => INR (class_count y c) / INR (length y)
                         - onehot y i c)).
    2:{ intros i Hi. rewrite Hgi by assumption. cbn [get_label].
        rewrite <- He', He by assumption. reflexivity. }
    rewrite bigsum_minus, bigsum_const, (bigsum_onehot_count k) by assumption.
    field. assumption.
Qed.

Lemma init_score_is_stationary_witness :
  exists s,
    ClassificationMixin.init_score [0; 1] = repeat (Fin s) (length [0; 1]) /\
    vsum (ClassificationMixin.grad (repeat s (length [0; 1]))
            (mkDataset [0; 1] [])) = 0.
Proof.
  destruct init_score_is_stationary as [H _].
  apply (H [0; 1] []).
  - intros v [<-|[<-|[]]]; [left | right]; reflexivity.
  - now left.
  - right; now left.
Defined.

End EngineFacts.

(** ** Two classes: the multi-class Kook objective against the binary one *)

Section TwoClasses.

Variable am : AnchorMixin.
Variables (n : nat) (a : mat).
Hypothesis Hols : ols_projection am n a.

Lemma kook_grad_entries (self : AnchorKookClassificationObjective.Self)
      (f : vec) (data : Dataset R) :
  shape_preserving am n (anchor data) ->
  length f = n -> length (get_label data) = n ->
  length (AnchorKookClassificationObjective.grad self f data) = n /\
  forall i, (i < n)%nat ->
    nth i (AnchorKookClassificationObjective.grad self f data) 0
    = ClassificationMixin.sigmoid (nth i f 0) - nth i (get_label data) 0
      + 2 * (AnchorKookClassificationObjective.gamma self - 1)
        * nth i (centered (AnchorKookClassificationObjective.center_residuals self)
                   (_proj (anchor data)
                      (AnchorKookClassificationObjective.residuals self f data))) 0
        * ClassificationMixin.sigmoid (nth i f 0)
        * (1 - ClassificationMixin.sigmoid (nth i f 0)).
Proof.
  intros Hs Hf Hy.
  unfold AnchorKookClassificationObjective.grad. cbv zeta.
  change (if AnchorKookClassificationObjective.center_residuals self
          then map (fun x => x - vmean (_proj (anchor data)
                       (AnchorKookClassificationObjective.residuals self f data)))
                   (_proj (anchor data)
                      (AnchorKookClassificationObjective.residuals self f data))
          else _proj (anchor data)
                 (AnchorKookClassificationObjective.residuals self f data))
    with (centered (AnchorKookClassificationObjective.center_residuals self)
            (_proj (anchor data)
               (AnchorKookClassificationObjective.residuals self f data))).
  set (q := centered _ _).
  assert (Hq : length q = n).
  { unfold q, centered.
    destruct (AnchorKookClassificationObjective.center_residuals self);
      rewrite ?length_center; apply Hs; now apply length_kook_residuals. }
  unfold AnchorKookClassificationObjective.predictions.
  set (p := ClassificationMixin.predictions f).
  assert (Hp : length p = n)
    by (unfold p, ClassificationMixin.predictions; now rewrite length_map).
  assert (Hpi : forall i, (i < n)%nat ->
            nth i p 0 = ClassificationMixin.sigmoid (nth i f 0)).
  { intros i Hi. unfold p, ClassificationMixin.predictions.
    apply nth_map0. lia. }
  assert (Hgb : length (ClassificationMixin.grad f data) = n).
  { unfold ClassificationMixin.grad. fold p. now apply length_vsub. }
  assert (H1 : length (vmul (vscale
                 (2 * (AnchorKookClassificationObjective.gamma self - 1)) q) p)
               = n)
    by (apply length_vmul; [now rewrite length_vscale | assumption]).
  assert (H2 : length (map (fun x => 1 - x) p) = n)
    by now rewrite length_map.
  split.
  - apply length_vadd; [assumption|]. now apply length_vmul.
  - intros i Hi.
    rewrite nth_vadd by (rewrite ?(length_vmul _ _ n); auto; lia).
    rewrite nth_vmul by lia.
    rewrite nth_vmul by (rewrite ?length_vscale; lia).
    rewrite nth_vscale by lia.
    rewrite nth_map0 by lia.
    unfold ClassificationMixin.grad. fold p.
    rewrite nth_vsub by lia.
    rewrite Hpi by assumption. ring.
Qed.










End TwoClasses.


(** ** lgbm_mixins.py: what [objective] hands to the engine *)

Section ObjectiveFacts.

Lemma length_binary_hess f (data : Dataset R) :
  length (ClassificationMixin.hess f data) = length f.
Proof. rewrite binary_hess_formula. apply length_map. Qed.

Lemma length_liu_grad (am : AnchorMixin) n
      (self : AnchorLiuClassificationObjective.Self) f (data : Dataset R) :
  shape_preserving am n (anchor data) ->
  length f = n -> length (get_label data) = n ->
  length (AnchorLiuClassificationObjective.grad self f data) = n.
Proof.
  intros Hs Hf Hy.
  assert (Hb : length (ClassificationMixin.grad f data) = n).
  { unfold ClassificationMixin.grad, ClassificationMixin.predictions.
    apply length_vsub; [now rewrite length_map | assumption]. }
  unfold AnchorLiuClassificationObjective.grad.
  destruct (Req_dec_T (AnchorLiuClassificationObjective.gamma self) 1);
    [assumption|]. cbv zeta.
  assert (Hm : forall (g : R -> R -> R),
            length (map2 g f (map (fun yi => 2 * yi - 1) (get_label data))) = n).
  { intros g. apply length_map2_same; [assumption | now rewrite length_map]. }
  apply length_vsub; [assumption|].
  apply length_vmul; [|apply Hm].
  apply length_vmul; [|apply Hm].
  rewrite length_vscale. apply Hs. now apply length_liu_residuals.
Qed.

(** X21. [objective] returns the gradient and the Hessian as two arrays of
    the length of the score vector: n for the Kook and Liu objectives, and
    n * k for the multi-class Kook objective with k >= 2 classes; with
    k = 1 the multi-class [objective] raises, because [hess] divides by a
    [factor] of zero. *)
Theorem objective_returns_arrays_of_score_length :
  forall (am : AnchorMixin) (n : nat) (a : mat),
    shape_preserving am n a ->
    (forall (self : AnchorKookClassificationObjective.Self) f y,
       length f = n -> length y = n ->
       length (fst (AnchorKookClassificationObjective.objective
                      self f (mkDataset y a))) = n /\
       length (snd (AnchorKookClassificationObjective.objective
                      self f (mkDataset y a))) = n) /\
    (forall (self : AnchorLiuClassificationObjective.Self) f y,
       length f = n -> length y = n ->
       length (fst (AnchorLiuClassificationObjective.objective
                      self f (mkDataset y a))) = n /\
       length (snd (AnchorLiuClassificationObjective.objective
                      self f (mkDataset y a))) = n) /\
    (forall (self : AnchorKookMultiClassificationObjective.Self) f y,
       let k := AnchorKookMultiClassificationObjective.n_classes self in
       (0 < k)%nat -> length f = (n * k)%nat -> length y = n ->
       class_labels k y ->
       (k = 1%nat ->
        snd (AnchorKookMultiClassificationObjective.objective
               self f (mkDataset y a)) = None) /\
       ((1 < k)%nat ->
        exists g h,
          AnchorKookMultiClassificationObjective.objective
            self f (mkDataset y a) = (Some g, Some h) /\
          length g = (n * k)%nat /\ length h = (n * k)%nat)).
Proof.
  intros am n a Hs. split; [|split].
  - intros self f y Hf Hy.
    unfold AnchorKookClassificationObjective.objective, LGBMMixin.objective.
    cbn [fst snd]. split.
    + now apply (kook_grad_entries am n self f (mkDataset y a)).
    + unfold AnchorKookClassificationObjective.hess.
      now rewrite length_binary_hess.
  - intros self f y Hf Hy.
    unfold AnchorLiuClassificationObjective.objective, LGBMMixin.objective.
    cbn [fst snd]. split.
    + now apply (length_liu_grad am n).
    + unfold AnchorLiuClassificationObjective.hess.
      now rewrite length_binary_hess.
  - intros self f y k Hk Hf Hy Hc.
    unfold AnchorKookMultiClassificationObjective.objective,
      LGBMMixin.objective, AnchorKookMultiClassificationObjective.hess.
    fold k.
    destruct (predictions_spec n k f Hk Hf) as (pm & Hp & Hsh & _).
    split.
    + intros E. cbn [snd]. unfold MultiClassificationMixin.hess.
      rewrite Hp.
      destruct (Req_dec_T (MultiClassificationMixin.factor k) 0) as [_|H];
        [reflexivity|].
      exfalso. apply H. unfold MultiClassificationMixin.factor.
      rewrite E. simpl. field.
    + intros Hk1.
      destruct (kook_multi_grad_spec n (mkDataset y a) self Hk Hy Hc Hs f Hf)
        as (g & _ & Eg & Hgl & _).
      fold k in Hgl.
      exists g. eexists. split; [|split].
      * rewrite Eg, multi_hess_formula by lia. rewrite Hp. reflexivity.
      * assumption.
      * rewrite length_map. apply (length_concat_shaped pm n k Hsh).
Qed.

Lemma objective_returns_arrays_of_score_length_witness :
  length (fst (AnchorKookClassificationObjective.objective
                 (am := proj_one_column)
                 (AnchorKookClassificationObjective.init 2 true)
                 [0; 3] (mkDataset [0; 1] ones2))) = 2%nat /\
  length (snd (AnchorKookClassificationObjective.objective
                 (am := proj_one_column)
                 (AnchorKookClassificationObjective.init 2 true)
                 [0; 3] (mkDataset [0; 1] ones2))) = 2%nat.
Proof.
  destruct (objective_returns_arrays_of_score_length
              proj_one_column 2 ones2
              (ols_shape _ _ _ proj_one_column_ols)) as [H _].
  apply (H (AnchorKookClassificationObjective.init 2 true) [0; 3] [0; 1]);
    reflexivity.
Defined.

End ObjectiveFacts.

(** ** Two classes: the multi-class family against the binary family *)

Section TwoClassFamily.




End TwoClassFamily.

(** ** simulate.py: the regression function [f2] *)

Section SimulateFacts.

(** X23. On arrays of one length [f2] exceeds [x2 + x3], entry by entry, by the
    number of steps passed: nothing for [x2 > 0], two for [x2 <= -0.5] and
    [x3 <= 1], and one in between; the result has the length of the
    inputs. *)
Theorem f2_is_sum_plus_steps :
  forall (x2 x3 : vec) (i : nat),
    length x2 = length x3 -> (i < length x2)%nat ->
    let d := nth i (Simulate.f2 x2 x3) 0 - (nth i x2 0 + nth i x3 0) in
    length (Simulate.f2 x2 x3) = length x2 /\
    (0 < nth i x2 0 -> d = 0) /\
    (nth i x2 0 <= 0 -> (- (5 / 10) < nth i x2 0 \/ 1 < nth i x3 0) -> d = 1) /\
    (nth i x2 0 <= - (5 / 10) -> nth i x3 0 <= 1 -> d = 2).
Proof.
  intros x2 x3 i Hl Hi d.
  assert (Hd : d = Simulate.le_ind (nth i x2 0) 0
                   + Simulate.le_ind (nth i x2 0) (- (5 / 10))
                     * Simulate.le_ind (nth i x3 0) 1).
  { unfold d, Simulate.f2.
    rewrite (nth_map2 _ _ _ _ 0 0) by lia.
    unfold Simulate.f2_at. ring. }
  split; [|split; [|split]].
  - unfold Simulate.f2. apply length_map2_same; [reflexivity | now symmetry].
  - intros H. rewrite Hd. unfold Simulate.le_ind.
    destruct (Rle_dec (nth i x2 0) 0); [lra|].
    destruct (Rle_dec (nth i x2 0) (- (5 / 10))); [lra|]. ring.
  - intros H [H'|H']; rewrite Hd; unfold Simulate.le_ind;
      destruct (Rle_dec (nth i x2 0) 0); try lra;
      destruct (Rle_dec (nth i x2 0) (- (5 / 10)));
      destruct (Rle_dec (nth i x3 0) 1); try lra.
  - intros H H'. rewrite Hd. unfold Simulate.le_ind.
    destruct (Rle_dec (nth i x2 0) 0); [|lra].
    destruct (Rle_dec (nth i x2 0) (- (5 / 10))); [|lra].
    destruct (Rle_dec (nth i x3 0) 1); [|lra]. ring.
Qed.

Lemma f2_is_sum_plus_steps_witness :
  nth 0 (Simulate.f2 [-1] [0]) 0 - (nth 0 [-1] 0 + nth 0 [0] 0) = 2.
Proof.
  destruct (f2_is_sum_plus_steps [-1] [0] 0%nat) as (_ & _ & _ & H);
    [reflexivity | simpl; lia |].
  apply H; simpl; lra.
Defined.

End SimulateFacts.
